(** * TextFlow: the workflow execution engine

    A shallow embedding of the execution engine of TextFlow (the
    [App] component of the editor and [services/geminiService.ts]): the
    graph queries, the cascade computed by [getDescendantNodeIds], the two
    resets ([executeWorkflow], [handleRetryNode]), the round loop of
    [processWorkflowQueue] and the directive built by [generateText].

    Conventions.
    - A JavaScript string is a [string]; its characters are read as code
      units below 256.
    - An optional field ([userPrompt?: string]) is an [option]; [None] is
      [undefined].
    - [Set<string>] is a [gset string]: the engine only adds to it and
      asks for membership.
    - React state is threaded explicitly: the scheduler's [currentNodes]
      is a [list NodeData]; the copy it publishes with [setWorkspaces]
      receives the very same updates and is not modelled twice.
    - The generative service is an arbitrary function [Provider] of the
      number of calls made so far and of the request, so that nothing is
      assumed about what it answers or when it fails. *)

From Stdlib Require Import ZArith Ascii String List.
From stdpp Require Import base tactics option list relations gmap strings.

Local Open Scope string_scope.
Local Open Scope list_scope.

(** ** Data model ([types.ts]) *)

Inductive NodeType : Set :=
| INPUT
| AI_GENERATOR
| AI_OPTIMIZER
| AI_FACT_CHECK
| AI_CODER
| OUTPUT_PREVIEW
| IMAGE_NODE
| AI_BRAINSTORM.

Inductive NodeStatus : Set :=
| IDLE
| RUNNING
| COMPLETED
| ERROR.

Global Instance NodeType_eq_dec : EqDecision NodeType.
Proof. solve_decision. Defined.

Global Instance NodeStatus_eq_dec : EqDecision NodeStatus.
Proof. solve_decision. Defined.

(** [x] and [y] are canvas coordinates; the engine carries them along and
    never looks at them. *)
Record NodeData : Type := mkNodeData {
  id : string;
  type : NodeType;
  x : Z;
  y : Z;
  title : string;
  content : string;
  userPrompt : option string;
  systemInstruction : option string;
  model : option string;
  customTemplate : option string;
  imageUrls : option (list string);
  status : NodeStatus;
  errorMessage : option string
}.

Record Connection : Type := mkConnection {
  cid : string;
  sourceId : string;
  targetId : string
}.

(** The [Partial<NodeData>] objects the engine writes only ever carry
    [status], [content] and [errorMessage].  A key that is absent is
    [None]; [errorMessage: undefined] is [Some None]. *)
Record Updates : Type := mkUpdates {
  u_status : option NodeStatus;
  u_content : option string;
  u_errorMessage : option (option string)
}.

(** [{ ...n, ...updates }] *)
Definition spread (n : NodeData) (u : Updates) : NodeData :=
  {| id := id n; type := type n; x := x n; y := y n; title := title n;
     content := default (content n) (u_content u);
     userPrompt := userPrompt n;
     systemInstruction := systemInstruction n;
     model := model n;
     customTemplate := customTemplate n;
     imageUrls := imageUrls n;
     status := default (status n) (u_status u);
     errorMessage := default (errorMessage n) (u_errorMessage u) |}.

(** JavaScript truthiness of an optional string, and [a || b]. *)
Definition truthy (s : option string) : bool :=
  match s with
  | Some EmptyString => false
  | Some _ => true
  | None => false
  end.

Definition orElse (s : option string) (d : string) : string :=
  match s with
  | Some EmptyString => d
  | Some v => v
  | None => d
  end.

(** [Array.prototype.join] *)
Fixpoint join (sep : string) (l : list string) : string :=
  match l with
  | [] => ""
  | [a] => a
  | a :: rest => a +:+ sep +:+ join sep rest
  end.

(** ** Graph queries *)

Definition incoming (connections : list Connection) (nodeId : string) : list Connection :=
  List.filter (fun c => String.eqb (targetId c) nodeId) connections.

Definition outgoing (connections : list Connection) (nodeId : string) : list Connection :=
  List.filter (fun c => String.eqb (sourceId c) nodeId) connections.

(** One edge, and one or more edges. *)
Definition edge (connections : list Connection) (a b : string) : Prop :=
  exists c, In c connections /\ sourceId c = a /\ targetId c = b.

Definition reaches (connections : list Connection) : string -> string -> Prop :=
  tc (edge connections).

(** ** [getDescendantNodeIds]

    The body of [for (const conn of outgoing)]: an unseen target is added
    to [descendants] and pushed.  The stack is a list whose head is the
    top ([push] conses, [pop] takes the head). *)
Definition visit (acc : gset string * list string) (conn : Connection)
  : gset string * list string :=
  if decide (targetId conn ∈ acc.1)
  then acc
  else ({[ targetId conn ]} ∪ acc.1, targetId conn :: acc.2).

(** [while (stack.length > 0)], one unit of fuel per iteration. *)
Fixpoint descend (fuel : nat) (connections : list Connection)
    (descendants : gset string) (stack : list string) : option (gset string) :=
  match stack with
  | [] => Some descendants
  | current :: rest =>
      match fuel with
      | O => None
      | S fuel' =>
          let acc := fold_left visit (outgoing connections current) (descendants, rest) in
          descend fuel' connections acc.1 acc.2
      end
  end.

Definition getDescendantNodeIds (connections : list Connection) (startNodeId : string)
  : option (gset string) :=
  descend (S (length connections)) connections ∅ [startNodeId].

(** ** The two resets *)

Definition resetUpdate : Updates :=
  {| u_status := Some IDLE; u_content := None; u_errorMessage := Some None |}.

(** [activeWorkspace.nodes.map(n => ({ ...n, status: IDLE, errorMessage: undefined }))]
    in [executeWorkflow]. *)
Definition resetNodes (nodes : list NodeData) : list NodeData :=
  List.map (fun n => spread n resetUpdate) nodes.

(** The [updatedNodes] of [handleRetryNode] for a given [nodesToReset]. *)
Definition resetIn (nodesToReset : gset string) (nodes : list NodeData) : list NodeData :=
  List.map (fun n => if decide (id n ∈ nodesToReset) then spread n resetUpdate else n) nodes.

(** [handleRetryNode] up to the call of [processWorkflowQueue]: nothing
    happens while a run is in flight; otherwise the cascade is reset and
    the result is what the scheduler is started on.  The outer [option] is
    the fuel of [getDescendantNodeIds]. *)
Inductive RetryOutcome : Type :=
| RetryIgnored
| RetryStarted (updatedNodes : list NodeData).

Definition handleRetryNode (isExecuting : bool) (connections : list Connection)
    (nodes : list NodeData) (nodeId : string) : option RetryOutcome :=
  if isExecuting then Some RetryIgnored
  else
    descendants ← getDescendantNodeIds connections nodeId;
    let nodesToReset : gset string := {[ nodeId ]} ∪ descendants in
    Some (RetryStarted (resetIn nodesToReset nodes)).

(** ** [geminiService.generateText] *)

Definition nl : string := String "010"%char EmptyString.

(** ECMAScript [WhiteSpace] and [LineTerminator] among the code units
    below 256: TAB, LF, VT, FF, CR, SP and NBSP. *)
Definition isWhiteSpace (c : ascii) : bool :=
  let n := nat_of_ascii c in
  (((9 <=? n) && (n <=? 13)) || (n =? 32) || (n =? 160))%nat.

Fixpoint trimStart (s : string) : string :=
  match s with
  | EmptyString => EmptyString
  | String c rest => if isWhiteSpace c then trimStart rest else s
  end.

Fixpoint trimEnd (s : string) : string :=
  match s with
  | EmptyString => EmptyString
  | String c rest =>
      match trimEnd rest with
      | EmptyString => if isWhiteSpace c then EmptyString else String c EmptyString
      | kept => String c kept
      end
  end.

(** [String.prototype.trim] *)
Definition trim (s : string) : string := trimEnd (trimStart s).

(** The template literal of [generateText], before and after [.trim()]. *)
Definition combinedTemplate (systemInstruction globalContext : option string) : string :=
  nl
  +:+ (if truthy globalContext
      then "### GLOBAL CONTEXT / COMPANY VOICE:" +:+ nl
           +:+ orElse globalContext "" +:+ nl +:+ nl
      else "")
  +:+ nl +:+ "### ROLE INSTRUCTION:" +:+ nl
  +:+ orElse systemInstruction "You are a helpful AI assistant."
  +:+ nl +:+ "  ".

Definition combinedSystemInstruction (systemInstruction globalContext : option string) : string :=
  trim (combinedTemplate systemInstruction globalContext).

(** What [ai.models.generateContent] is called with (the temperature is a
    constant), and what it answers: a response whose [text] may be
    missing, or an exception whose [message] may be missing. *)
Record Request : Type := mkRequest {
  r_model : string;
  r_contents : string;
  r_systemInstruction : string
}.

Inductive Response : Type :=
| Text (text : option string)
| Throw (message : option string).

(** The service, as seen from the engine: the answer may depend on the
    request and on how many calls the run has made before. *)
Definition Provider : Type := nat -> Request -> Response.

(** [generateText]: the text ([response.text || ""]), or the exception
    rethrown to the caller. *)
Definition generateText (provider : Provider) (calls : nat) (modelName prompt : string)
    (systemInstruction globalContext : option string) : string + option string :=
  match provider calls
          {| r_model := modelName;
             r_contents := prompt;
             r_systemInstruction := combinedSystemInstruction systemInstruction globalContext |}
  with
  | Text t => inl (orElse t "")
  | Throw m => inr m
  end.

(** ** [processWorkflowQueue] *)

(** [currentNodes.map(n => n.id === id ? { ...n, ...updates } : n)] *)
Definition updateLocalAndState (i : string) (updates : Updates)
    (currentNodes : list NodeData) : list NodeData :=
  List.map (fun n => if String.eqb (id n) i then spread n updates else n) currentNodes.

(** [currentNodes.find(n => n.id === i)] *)
Definition findNode (currentNodes : list NodeData) (i : string) : option NodeData :=
  List.find (fun n => String.eqb (id n) i) currentNodes.

(** Step 1: the filter of [instantNodes] and the content they get. *)
Definition isInstant (n : NodeData) : bool :=
  (bool_decide (type n = INPUT) || bool_decide (type n = IMAGE_NODE))
  && bool_decide (status n = IDLE).

Definition instantContent (node : NodeData) : string :=
  if bool_decide (type node = INPUT)
  then orElse (userPrompt node) ""
  else orElse (join nl <$> imageUrls node) "".

Definition completeWith (text : string) : Updates :=
  {| u_status := Some COMPLETED; u_content := Some text; u_errorMessage := None |}.

Definition resolveStep (currentNodes : list NodeData) (node : NodeData) : list NodeData :=
  updateLocalAndState (id node) (completeWith (instantContent node)) currentNodes.

Definition resolveInstant (currentNodes : list NodeData) : list NodeData :=
  fold_left resolveStep (List.filter isInstant currentNodes) currentNodes.

(** The predicate of the [nodesToRun] filter. *)
Definition sourceReady (currentNodes : list NodeData) (e : Connection) : bool :=
  match findNode currentNodes (sourceId e) with
  | Some sourceNode => bool_decide (status sourceNode = COMPLETED)
  | None => false
  end.

Definition isReady (connections : list Connection) (currentNodes : list NodeData)
    (node : NodeData) : bool :=
  if negb (bool_decide (status node = IDLE)) then false
  else if bool_decide (type node = AI_BRAINSTORM) then true
  else
    let incomingEdges := incoming connections (id node) in
    if (length incomingEdges =? 0)%nat
       && negb (bool_decide (type node = INPUT))
       && negb (bool_decide (type node = IMAGE_NODE))
    then false
    else forallb (sourceReady currentNodes) incomingEdges.

Definition nodesToRun (connections : list Connection) (currentNodes : list NodeData)
  : list NodeData :=
  List.filter (isReady connections currentNodes) currentNodes.

(** Input assembly: the body of [for (const edge of incomingEdges)], on
    the pair ([textInputs], [imageInputs]). *)
Definition gather (currentNodes : list NodeData) (acc : list string * list string)
    (e : Connection) : list string * list string :=
  match findNode currentNodes (sourceId e) with
  | Some source =>
      if bool_decide (type source = IMAGE_NODE)
      then (acc.1, acc.2 ++ default [] (imageUrls source))
      else (acc.1 ++ [content source], acc.2)
  | None => acc
  end.

Definition brainstormPrompt : string :=
  "Generate a list of relevant topics based on the global context provided.".

Definition coderPrompt (inputTextCombined template : string) (imageInputs : list string)
  : string :=
  nl +:+ "CONTENT TO INSERT:" +:+ nl +:+ inputTextCombined +:+ nl +:+ nl
  +:+ "HTML TEMPLATE:" +:+ nl +:+ template +:+ nl +:+ nl
  +:+ "INSTRUCTIONS:" +:+ nl
  +:+ "Insert the content into the HTML template. Do not change the layout structure, only add the text."
  +:+ nl
  +:+ (if (0 <? length imageInputs)%nat
      then "Also, insert these images where appropriate in the HTML: " +:+ join ", " imageInputs
      else "")
  +:+ nl +:+ "                            ".

Definition buildPrompt (node : NodeData) (inputTextCombined : string)
    (imageInputs : list string) : string :=
  if bool_decide (type node = AI_BRAINSTORM) then brainstormPrompt
  else if bool_decide (type node = AI_CODER) && truthy (customTemplate node)
  then coderPrompt inputTextCombined (orElse (customTemplate node) "") imageInputs
  else if (0 <? length imageInputs)%nat
  then inputTextCombined +:+ nl +:+ nl +:+ "Available Image URLs: " +:+ join ", " imageInputs
  else inputTextCombined.

Definition markRunning : Updates :=
  {| u_status := Some RUNNING; u_content := None; u_errorMessage := Some None |}.

Definition failWith (message : option string) : Updates :=
  {| u_status := Some ERROR; u_content := None;
     u_errorMessage := Some (Some (orElse message "Unknown error")) |}.

(** The scheduler's local state: [currentNodes], and the number of calls
    made to the service so far. *)
Record Sched : Type := mkSched {
  currentNodes : list NodeData;
  calls : nat
}.

Section Scheduler.

Variable connections : list Connection.
Variable provider : Provider.
Variable globalContext : string.

(** What a dispatched node asks the service: model, prompt. *)
Definition inputsOf (nodes : list NodeData) (node : NodeData) : list string * list string :=
  fold_left (gather nodes) (incoming connections (id node)) ([], []).

Definition promptOf (nodes : list NodeData) (node : NodeData) : string :=
  let inputs := inputsOf nodes node in
  buildPrompt node (join (nl +:+ nl) inputs.1) inputs.2.

(** How a dispatched node settles, given the nodes as they are once it
    has been marked Running. *)
Definition settle (nodes : list NodeData) (n : nat) (node : NodeData) : Updates :=
  if bool_decide (type node = OUTPUT_PREVIEW)
  then completeWith (join (nl +:+ nl) (inputsOf nodes node).1)
  else
    match generateText provider n (orElse (model node) "gemini-2.5-flash")
            (promptOf nodes node) (systemInstruction node) (Some globalContext)
    with
    | inl result => completeWith result
    | inr message => failWith message
    end.

(** The body of [for (const node of nodesToRun)]. *)
Definition dispatch (st : Sched) (node : NodeData) : Sched :=
  let running := updateLocalAndState (id node) markRunning (currentNodes st) in
  {| currentNodes := updateLocalAndState (id node) (settle running (calls st) node) running;
     calls := if bool_decide (type node = OUTPUT_PREVIEW) then calls st else S (calls st) |}.

(** One iteration of [while (hasProcessed)] that found work. *)
Definition round (st : Sched) : Sched :=
  fold_left dispatch (nodesToRun connections (currentNodes st)) st.

(** The loop: an iteration that finds nothing to run leaves it. *)
Fixpoint loop (fuel : nat) (st : Sched) : option Sched :=
  match fuel with
  | O => None
  | S fuel' =>
      match nodesToRun connections (currentNodes st) with
      | [] => Some st
      | _ :: _ => loop fuel' (round st)
      end
  end.

Definition start (initialNodesState : list NodeData) : Sched :=
  {| currentNodes := resolveInstant initialNodesState; calls := 0 |}.

Definition processWorkflowQueue (fuel : nat) (initialNodesState : list NodeData)
  : option Sched :=
  loop fuel (start initialNodesState).

(** [executeWorkflow]: reset everything, then run. *)
Definition executeWorkflow (fuel : nat) (nodes : list NodeData) : option Sched :=
  processWorkflowQueue fuel (resetNodes nodes).

(** The state at the start of iteration [k] of the loop. *)
Definition atRound (k : nat) (initialNodesState : list NodeData) : Sched :=
  Nat.iter k round (start initialNodesState).

End Scheduler.

(** * Predicates used in the statements *)

Local Open Scope nat_scope.

(** Every id that can ever enter [descendants]. *)
Definition targets (connections : list Connection) : gset string :=
  list_to_set (List.map targetId connections).

(** The loop invariant of [while (stack.length > 0)] in
    [getDescendantNodeIds]. *)
Definition descendInv (connections : list Connection) (startNodeId : string)
    (d : gset string) (s : list string) : Prop :=
  (forall v, v ∈ d -> reaches connections startNodeId v)
  /\ (forall v, In v s -> v = startNodeId \/ v ∈ d)
  /\ (forall u v, u = startNodeId \/ u ∈ d -> edge connections u v -> In u s \/ v ∈ d).

(** The set a retry resets: the target and everything downstream of it. *)
Definition inCascade (connections : list Connection) (targetNodeId v : string) : Prop :=
  v = targetNodeId \/ reaches connections targetNodeId v.

(** The fields no update of the engine writes. *)
Definition sameStatic (n n' : NodeData) : Prop :=
  id n' = id n /\ type n' = type n /\ x n' = x n /\ y n' = y n /\ title n' = title n
  /\ userPrompt n' = userPrompt n /\ systemInstruction n' = systemInstruction n
  /\ model n' = model n /\ customTemplate n' = customTemplate n
  /\ imageUrls n' = imageUrls n.

(** [settled touched n n']: the node [n] became [n']; if its id was
    dispatched it is now Completed or Error, otherwise it is the very same
    record. *)
Definition settled (touched : list string) (n n' : NodeData) : Prop :=
  sameStatic n n'
  /\ (In (id n) touched -> status n' = COMPLETED \/ status n' = ERROR)
  /\ (~ In (id n) touched -> n' = n).

(** How many nodes are Idle. *)
Definition idleCount (nodes : list NodeData) : nat :=
  length (List.filter (fun n => bool_decide (status n = IDLE)) nodes).

(** Kinds that need no input: the two sources and Brainstorm. *)
Definition needsNoInput (t : NodeType) : Prop :=
  t = INPUT \/ t = IMAGE_NODE \/ t = AI_BRAINSTORM.

(** The source of an edge exists and is Completed. *)
Definition sourceCompleted (nodes : list NodeData) (e : Connection) : Prop :=
  exists s, findNode nodes (sourceId e) = Some s /\ status s = COMPLETED.

(** ** The directive, section by section *)

(** The global-context section: present only when there is a global
    context; it ends with the blank lines that separate it from the role
    section. *)
Definition globalSection (globalContext : option string) : string :=
  if truthy globalContext
  then "### GLOBAL CONTEXT / COMPANY VOICE:" +:+ nl
       +:+ orElse globalContext "" +:+ nl +:+ nl +:+ nl
  else "".

Definition genericDirective : string := "You are a helpful AI assistant.".

(** The role section: the node's instruction when it has one, the generic
    directive otherwise; [trim] removes the white space at its end. *)
Definition roleSection (systemInstruction : option string) : string :=
  trimEnd ("### ROLE INSTRUCTION:" +:+ nl
           +:+ (if truthy systemInstruction
                then orElse systemInstruction ""
                else genericDirective)).

(** ** Example graphs *)

Definition exampleNode (i : string) (t : NodeType) (s : NodeStatus) (c : string)
    (prompt err : option string) : NodeData :=
  {| id := i; type := t; x := 0; y := 0; title := i; content := c;
     userPrompt := prompt; systemInstruction := None; model := None;
     customTemplate := None; imageUrls := None; status := s; errorMessage := err |}.

Definition exampleEdge (a b : string) : Connection :=
  {| cid := a +:+ "-" +:+ b; sourceId := a; targetId := b |}.

(** The chain A → B → C → D after a run in which C failed. *)
Definition chainNodes : list NodeData :=
  [ exampleNode "A" INPUT COMPLETED "X" (Some "X") None;
    exampleNode "B" AI_GENERATOR COMPLETED "draft" None None;
    exampleNode "C" AI_OPTIMIZER ERROR "" None (Some "quota exceeded");
    exampleNode "D" OUTPUT_PREVIEW IDLE "" None None ].

Definition chainEdges : list Connection :=
  [ exampleEdge "A" "B"; exampleEdge "B" "C"; exampleEdge "C" "D" ].

(** ** Statements of the specification that the code does not satisfy,
    as they are worded *)

(** The retry cascade clears the content of what it resets. *)
Definition cascade_clears_content : Prop :=
  forall connections nodes nodeId,
  exists updated,
    handleRetryNode false connections nodes nodeId = Some (RetryStarted updated)
    /\ Forall2 (fun n n' =>
         (inCascade connections nodeId (id n) ->
            status n' = IDLE /\ content n' = "" /\ errorMessage n' = None)
         /\ (~ inCascade connections nodeId (id n) -> n' = n))
       nodes updated.

(** A Source-Text node and a Source-Image node, both Idle, the second fed
    by an edge. *)
Definition twoSources : list NodeData :=
  [ exampleNode "in" INPUT IDLE "" (Some "Topic X") None;
    {| id := "img"; type := IMAGE_NODE; x := 0; y := 0; title := "img"; content := "";
       userPrompt := None; systemInstruction := None; model := None;
       customTemplate := None; imageUrls := Some ["u1"; "u2"];
       status := IDLE; errorMessage := None |} ].

(** ** The payload of a Generator, Optimizer or FactCheck node, as the
    specification words it *)

(** What one incoming edge contributes: the content of its source when
    the source is not an image node; the imageUrls of its source when it
    is one. *)
Definition textOf (nodes : list NodeData) (e : Connection) : list string :=
  match findNode nodes (sourceId e) with
  | Some s => if bool_decide (type s = IMAGE_NODE) then [] else [content s]
  | None => []
  end.

Definition imagesOf (nodes : list NodeData) (e : Connection) : list string :=
  match findNode nodes (sourceId e) with
  | Some s => if bool_decide (type s = IMAGE_NODE) then default [] (imageUrls s) else []
  | None => []
  end.

(** The texts in the order of the incoming edges, joined by a blank
    line, then the images as one trailing annotation. *)
Definition payload (connections : list Connection) (nodes : list NodeData)
    (node : NodeData) : string :=
  join (nl +:+ nl) (flat_map (textOf nodes) (incoming connections (id node)))
  +:+ match flat_map (imagesOf nodes) (incoming connections (id node)) with
      | [] => ""
      | images => nl +:+ nl +:+ "Available Image URLs: " +:+ join ", " images
      end.

Definition isTextAgent (t : NodeType) : Prop :=
  t = AI_GENERATOR \/ t = AI_OPTIMIZER \/ t = AI_FACT_CHECK.

(** Two texts P and Q and an image feeding a Generator W, the edge from
    P added first. *)
Definition fanInNodes : list NodeData :=
  [ exampleNode "P" INPUT COMPLETED "first" (Some "first") None;
    exampleNode "Q" INPUT COMPLETED "second" (Some "second") None;
    {| id := "img"; type := IMAGE_NODE; x := 0; y := 0; title := "img";
       content := "u1"; userPrompt := None; systemInstruction := None; model := None;
       customTemplate := None; imageUrls := Some ["u1"];
       status := COMPLETED; errorMessage := None |};
    exampleNode "W" AI_GENERATOR IDLE "" None None ].

Definition fanInEdges : list Connection :=
  [ exampleEdge "P" "W"; exampleEdge "img" "W"; exampleEdge "Q" "W" ].

(** ** Walks and cycles *)

(** A walk [a → x1 → ... → xn → b] along edges; a cycle through [c] is a
    walk from [c] back to [c], and its nodes are [c :: via]. *)
Fixpoint walk (connections : list Connection) (a : string) (via : list string)
    (b : string) : Prop :=
  match via with
  | [] => edge connections a b
  | x :: via' => edge connections a x /\ walk connections x via' b
  end.

(** ** Failure of a dispatched node *)

(** The call made for [node], dispatched from the scheduler state [mid],
    throws with [message]. *)
Definition failsWith (connections : list Connection) (provider : Provider)
    (globalContext : string) (mid : Sched) (node : NodeData) (message : option string)
  : Prop :=
  type node <> OUTPUT_PREVIEW
  /\ generateText provider (calls mid) (orElse (model node) "gemini-2.5-flash")
       (promptOf connections
          (updateLocalAndState (id node) markRunning (currentNodes mid)) node)
       (systemInstruction node) (Some globalContext)
     = inr message.

(** ** More example graphs and services *)

Definition alwaysText : Provider := fun _ _ => Text (Some "ok").

(** The first call of the run throws, the later ones answer. *)
Definition failFirst : Provider :=
  fun calls _ => match calls with O => Throw (Some "boom") | S _ => Text (Some "ok") end.

(** I → A → B → E and I → G → E, where B is a Brainstorm node. *)
Definition detourNodes : list NodeData :=
  [ exampleNode "I" INPUT IDLE "" (Some "Topic X") None;
    exampleNode "A" AI_GENERATOR IDLE "" None None;
    exampleNode "B" AI_BRAINSTORM IDLE "" None None;
    exampleNode "G" AI_GENERATOR IDLE "" None None;
    exampleNode "E" AI_OPTIMIZER IDLE "" None None ].

Definition detourEdges : list Connection :=
  [ exampleEdge "I" "A"; exampleEdge "A" "B"; exampleEdge "B" "E";
    exampleEdge "I" "G"; exampleEdge "G" "E" ].

(** A mixed store, as a retry starts on after the graph was edited:
    I → A → D → E and I → F → E, where I and D are Completed from an
    earlier run and A, F and E have not run yet. *)
Definition staleDetourNodes : list NodeData :=
  [ exampleNode "I" INPUT COMPLETED "Topic X" (Some "Topic X") None;
    exampleNode "A" AI_GENERATOR IDLE "" None None;
    exampleNode "D" AI_GENERATOR COMPLETED "old" None None;
    exampleNode "F" AI_GENERATOR IDLE "" None None;
    exampleNode "E" AI_OPTIMIZER IDLE "" None None ].

Definition staleDetourEdges : list Connection :=
  [ exampleEdge "I" "A"; exampleEdge "A" "D"; exampleEdge "D" "E";
    exampleEdge "I" "F"; exampleEdge "F" "E" ].

(** The scenario Input → Writer → Coder (with a template) → Preview, and
    a service that answers with its prompt between brackets. *)
Definition scenarioNodes : list NodeData :=
  [ exampleNode "Input" INPUT IDLE "" (Some "Topic X") None;
    exampleNode "Writer" AI_GENERATOR ERROR "stale" None (Some "old failure");
    {| id := "Coder"; type := AI_CODER; x := 0; y := 0; title := "Coder"; content := "";
       userPrompt := None; systemInstruction := None; model := None;
       customTemplate := Some "<main></main>"; imageUrls := None;
       status := IDLE; errorMessage := None |};
    exampleNode "Preview" OUTPUT_PREVIEW COMPLETED "old page" None None ].

Definition scenarioEdges : list Connection :=
  [ exampleEdge "Input" "Writer"; exampleEdge "Writer" "Coder";
    exampleEdge "Coder" "Preview" ].

Definition echo : Provider :=
  fun _ request => Text (Some ("[" +:+ r_contents request +:+ "]")).

(** I → A → P: a source, a Generator and a Preview. *)
Definition pipelineNodes : list NodeData :=
  [ exampleNode "I" INPUT IDLE "" (Some "Topic X") None;
    exampleNode "A" AI_GENERATOR IDLE "" None None;
    exampleNode "P" OUTPUT_PREVIEW IDLE "" None None ].

Definition pipelineEdges : list Connection :=
  [ exampleEdge "I" "A"; exampleEdge "A" "P" ].

(** ** More statements of the specification that the code does not
    satisfy, as they are worded *)

(** Once a node has failed, no descendant of it is selected in a later
    round. *)
Definition descendants_never_selected : Prop :=
  forall connections provider globalContext init k pre node post message,
    List.NoDup (List.map id init) ->
    nodesToRun connections (currentNodes (atRound connections provider globalContext k init))
    = pre ++ node :: post ->
    failsWith connections provider globalContext
      (fold_left (dispatch connections provider globalContext) pre
         (atRound connections provider globalContext k init)) node message ->
    forall j d, k < j ->
      In d (currentNodes (atRound connections provider globalContext j init)) ->
      reaches connections (id node) (id d) ->
      ~ In d (nodesToRun connections
                (currentNodes (atRound connections provider globalContext j init))).

(** ** The invariant of the data model, and the states a run publishes *)

Definition errorOnlyIfError (n : NodeData) : Prop :=
  errorMessage n <> None -> status n = ERROR.

Definition contentOnlyIfCompleted (n : NodeData) : Prop :=
  content n <> "" -> status n = COMPLETED.

(** Every list of nodes [processWorkflowQueue] publishes when started on
    [init]: after each write of step 1, after a dispatched node is marked
    Running, and after a dispatched node settles (which, with no node
    dispatched yet, is the state at the start of a round). *)
Inductive Published (connections : list Connection) (provider : Provider)
    (globalContext : string) (init : list NodeData) : list NodeData -> Prop :=
| pub_instant (pre post : list NodeData) :
    List.filter isInstant init = pre ++ post ->
    Published connections provider globalContext init (fold_left resolveStep pre init)
| pub_running (k : nat) (pre : list NodeData) (node : NodeData) (post : list NodeData) :
    nodesToRun connections (currentNodes (atRound connections provider globalContext k init))
    = pre ++ node :: post ->
    Published connections provider globalContext init
      (updateLocalAndState (id node) markRunning
         (currentNodes
            (fold_left (dispatch connections provider globalContext) pre
               (atRound connections provider globalContext k init))))
| pub_settled (k : nat) (pre post : list NodeData) :
    nodesToRun connections (currentNodes (atRound connections provider globalContext k init))
    = pre ++ post ->
    Published connections provider globalContext init
      (currentNodes
         (fold_left (dispatch connections provider globalContext) pre
            (atRound connections provider globalContext k init))).

(** Every list of nodes reachable from [s0] through the engine: a full
    run ([executeWorkflow]: reset everything, then the scheduler) or a
    retry ([handleRetryNode]: reset the cascade, then the scheduler), for
    any edges, service and global context, from any reachable list. *)
Inductive Reachable (s0 : list NodeData) : list NodeData -> Prop :=
| reach_init : Reachable s0 s0
| reach_full_run connections provider globalContext s s' :
    Reachable s0 s ->
    Published connections provider globalContext (resetNodes s) s' ->
    Reachable s0 s'
| reach_retry connections provider globalContext s nodeId updated s' :
    Reachable s0 s ->
    handleRetryNode false connections s nodeId = Some (RetryStarted updated) ->
    Published connections provider globalContext updated s' ->
    Reachable s0 s'.

(** The invariant as the specification words it, content included. *)
Definition content_only_when_completed : Prop :=
  forall s0 s,
    List.NoDup (List.map id s0) ->
    Forall errorOnlyIfError s0 -> Forall contentOnlyIfCompleted s0 ->
    Reachable s0 s ->
    Forall contentOnlyIfCompleted s.

(** A single Source-Text node, never run. *)
Definition loneSource : list NodeData :=
  [ exampleNode "I" INPUT IDLE "" (Some "Topic X") None ].

(** * The editing surface ([App] and [NodeComponent])

    The handlers that build and edit the graph between runs.  Ids made
    from the clock ([`node-${Date.now()}`], [`c-${Date.now()}`]) take the
    time stamp as an argument; positions are arguments as well. *)

(** ** Connections *)

(** [NodeComponent]: a source node shows no input handle, a Preview no
    output handle. *)
Definition isSourceNode (node : NodeData) : bool :=
  bool_decide (type node = INPUT)
  || bool_decide (type node = IMAGE_NODE)
  || bool_decide (type node = AI_BRAINSTORM).

Definition hasOutputHandle (node : NodeData) : bool :=
  negb (bool_decide (type node = OUTPUT_PREVIEW)).


(** [handleConnectEnd], on the connections of the active workspace; the
    drag is over in every case ([setConnectionStart(null)]). *)
Definition handleConnectEnd (connectionStart : option string) (stamp : string)
    (connections : list Connection) (targetNodeId : string) (isInput : bool)
  : list Connection * option string :=
  (match connectionStart with
   | Some startId =>
       if isInput && negb (String.eqb startId targetNodeId)
       then
         match List.find (fun c => String.eqb (sourceId c) startId
                                   && String.eqb (targetId c) targetNodeId) connections with
         | Some _ => connections
         | None =>
             connections
             ++ [ {| cid := "c-" +:+ stamp; sourceId := startId; targetId := targetNodeId |} ]
         end
       else connections
   | None => connections
   end,
   None).

Definition deleteConnection (connectionId : string) (connections : list Connection)
  : list Connection :=
  List.filter (fun c => negb (String.eqb (cid c) connectionId)) connections.

(** ** Nodes *)

(** [deleteNode]: the node goes, and every connection that touches it. *)
Definition deleteNode (nodeId : string) (nodes : list NodeData)
    (connections : list Connection) : list NodeData * list Connection :=
  (List.filter (fun n => negb (String.eqb (id n) nodeId)) nodes,
   List.filter (fun c => negb (String.eqb (sourceId c) nodeId)
                         && negb (String.eqb (targetId c) nodeId)) connections).






(** The [newNode] of [duplicateNode]: the original under a new id, moved,
    renamed, Idle and with empty content; every other field is copied.
    Positions are JavaScript numbers in the code and integers here, so
    [x + 40] is exact here where the code rounds; no statement below
    reads a position. *)
Definition cloneOf (stamp : string) (nodeToClone : NodeData) : NodeData :=
  {| id := "node-" +:+ stamp; type := type nodeToClone;
     x := (x nodeToClone + 40)%Z; y := (y nodeToClone + 40)%Z;
     title := title nodeToClone +:+ " (Copy)";
     content := "";
     userPrompt := userPrompt nodeToClone;
     systemInstruction := systemInstruction nodeToClone;
     model := model nodeToClone;
     customTemplate := customTemplate nodeToClone;
     imageUrls := imageUrls nodeToClone;
     status := IDLE;
     errorMessage := errorMessage nodeToClone |}.

Definition duplicateNode (stamp : string) (nodeId : string) (nodes : list NodeData)
  : list NodeData :=
  match findNode nodes nodeId with
  | None => nodes
  | Some nodeToClone => nodes ++ [cloneOf stamp nodeToClone]
  end.

(** [updateNodeContent]: the text typed in an Input node is its prompt. *)
Definition updateNodeContent (nodeId text : string) (nodes : list NodeData)
  : list NodeData :=
  List.map (fun n =>
    if String.eqb (id n) nodeId
    then {| id := id n; type := type n; x := x n; y := y n; title := title n;
            content := content n; userPrompt := Some text;
            systemInstruction := systemInstruction n; model := model n;
            customTemplate := customTemplate n; imageUrls := imageUrls n;
            status := status n; errorMessage := errorMessage n |}
    else n) nodes.

(** The safety reset applied to what is read from storage when the page
    loads: a node stored as Running is Idle again. *)
Definition recoverNode (n : NodeData) : NodeData :=
  if bool_decide (status n = RUNNING)
  then {| id := id n; type := type n; x := x n; y := y n; title := title n;
          content := content n; userPrompt := userPrompt n;
          systemInstruction := systemInstruction n; model := model n;
          customTemplate := customTemplate n; imageUrls := imageUrls n;
          status := IDLE; errorMessage := errorMessage n |}
  else n.

Definition recoverNodes (nodes : list NodeData) : list NodeData :=
  List.map recoverNode nodes.

(** ** The image list of the side panel *)

(** [String.prototype.split] on one separator character. *)
Fixpoint splitOn (sep : ascii) (s : string) : list string :=
  match s with
  | EmptyString => [EmptyString]
  | String c rest =>
      if Ascii.eqb c sep then EmptyString :: splitOn sep rest
      else match splitOn sep rest with
           | [] => [String c EmptyString]
           | line :: lines => String c line :: lines
           end
  end.

Definition newline : ascii := "010"%char.

(** The textarea shows [imageUrls?.join('\n') || ''] and an edit stores
    [value.split('\n').filter(line => line.trim() !== '' || line === '\n')]. *)
Definition showImageUrls (imageUrls : option (list string)) : string :=
  orElse (join nl <$> imageUrls) "".

Definition parseImageUrls (value : string) : list string :=
  List.filter (fun line => negb (String.eqb (trim line) "") || String.eqb line nl)
    (splitOn newline value).

(** ** Workspaces *)

(** [pan] and [scale] are carried along like [x] and [y]. *)
Record Workspace : Type := mkWorkspace {
  w_id : string;
  w_name : string;
  w_globalContext : string;
  w_nodes : list NodeData;
  w_connections : list Connection;
  w_pan : Z * Z;
  w_scale : Z
}.

(** [workspaces.find(w => w.id === activeWorkspaceId) || workspaces[0]];
    [None] is [undefined]. *)
Definition activeWorkspace (workspaces : list Workspace) (activeWorkspaceId : string)
  : option Workspace :=
  match List.find (fun w => String.eqb (w_id w) activeWorkspaceId) workspaces with
  | Some w => Some w
  | None => List.head workspaces
  end.

(** [updateActiveWorkspace], for an update given as a function on the
    workspace it is spread over. *)
Definition updateActiveWorkspace (activeWorkspaceId : string)
    (updates : Workspace -> Workspace) (workspaces : list Workspace) : list Workspace :=
  List.map (fun w => if String.eqb (w_id w) activeWorkspaceId then updates w else w)
    workspaces.

Definition createWorkspace (stamp : string) (workspaces : list Workspace)
  : list Workspace * string :=
  let newWs := {| w_id := "ws-" +:+ stamp; w_name := "New Workspace";
                  w_globalContext := ""; w_nodes := []; w_connections := [];
                  w_pan := (0, 0)%Z; w_scale := 1%Z |} in
  (workspaces ++ [newWs], w_id newWs).

(** [deleteWorkspace] on the pair (workspaces, activeWorkspaceId); [None]
    is the TypeError of [newWorkspaces[0].id] on an empty list. *)
Definition deleteWorkspace (workspaceId : string) (workspaces : list Workspace)
    (activeWorkspaceId : string) : option (list Workspace * string) :=
  if (length workspaces <=? 1)%nat then Some (workspaces, activeWorkspaceId)
  else
    let newWorkspaces :=
      List.filter (fun w => negb (String.eqb (w_id w) workspaceId)) workspaces in
    if String.eqb activeWorkspaceId workspaceId
    then match newWorkspaces with
         | [] => None
         | first :: _ => Some (newWorkspaces, w_id first)
         end
    else Some (newWorkspaces, activeWorkspaceId).

(** ** An editing session

    What the editor holds of the active workspace while the user edits:
    the nodes, the connections, and the node a connection is being
    dragged from. *)
Record Editor : Type := mkEditor {
  e_nodes : list NodeData;
  e_connections : list Connection;
  e_connectionStart : option string
}.




(** The two ends of a connection. *)
Definition ends (c : Connection) : string * string := (sourceId c, targetId c).

(** A graph as the editor draws it: unique node ids; no connection from a
    node to itself and no two connections with the same ends; every
    connection ends at a node, one that takes input; no connection, and
    no drag in progress, starts at a Preview. *)
Definition wellDrawn (e : Editor) : Prop :=
  List.NoDup (List.map id (e_nodes e))
  /\ (forall c, In c (e_connections e) -> sourceId c <> targetId c)
  /\ List.NoDup (List.map ends (e_connections e))
  /\ (forall c, In c (e_connections e) -> In (targetId c) (List.map id (e_nodes e)))
  /\ (forall c n, In c (e_connections e) -> In n (e_nodes e) -> id n = targetId c ->
                  isSourceNode n = false)
  /\ (forall c n, In c (e_connections e) -> In n (e_nodes e) -> id n = sourceId c ->
                  hasOutputHandle n = true)
  /\ (forall n, In n (e_nodes e) -> e_connectionStart e = Some (id n) ->
                hasOutputHandle n = true).

(** [INITIAL_NODES] and [INITIAL_CONNECTIONS] of the default workspace. *)
Definition INITIAL_NODES : list NodeData :=
  [ {| id := "node-1"; type := INPUT; x := 50; y := 250; title := "Topic Input";
       content := ""; userPrompt := Some "The future of electric aviation";
       systemInstruction := None; model := None; customTemplate := None;
       imageUrls := None; status := IDLE; errorMessage := None |};
    {| id := "node-2"; type := AI_GENERATOR; x := 400; y := 200; title := "Blog Writer";
       content := ""; userPrompt := None;
       systemInstruction := Some "You are an expert blog writer. Write a comprehensive, engaging blog post about the user provided topic. Use markdown formatting.";
       model := Some "gemini-2.5-flash"; customTemplate := None;
       imageUrls := None; status := IDLE; errorMessage := None |};
    {| id := "node-5"; type := AI_CODER; x := 800; y := 250; title := "HTML Builder";
       content := ""; userPrompt := None;
       systemInstruction := Some "You are a frontend web developer. Take the provided blog content and wrap it in the provided HTML template. If no template is provided, create a modern one. If image URLs are provided in the input, use them in <img> tags.";
       model := Some "gemini-2.5-flash"; customTemplate := None;
       imageUrls := None; status := IDLE; errorMessage := None |};
    {| id := "node-6"; type := OUTPUT_PREVIEW; x := 1200; y := 250; title := "Web Preview";
       content := ""; userPrompt := None; systemInstruction := None; model := None;
       customTemplate := None; imageUrls := None; status := IDLE; errorMessage := None |} ].

Definition INITIAL_CONNECTIONS : list Connection :=
  [ {| cid := "c1"; sourceId := "node-1"; targetId := "node-2" |};
    {| cid := "c4"; sourceId := "node-2"; targetId := "node-5" |};
    {| cid := "c5"; sourceId := "node-5"; targetId := "node-6" |} ].

(** ** Further predicates used in the statements *)

(** What a run may have done to a node: nothing; or, if the node was
    Idle, completed it (a source node resolved by step 1 keeps its error
    message, a dispatched node has it cleared) or failed it, its content
    kept. *)
Definition ranOnce (n n' : NodeData) : Prop :=
  sameStatic n n'
  /\ (n' = n
      \/ (status n = IDLE
          /\ ((status n' = COMPLETED
               /\ errorMessage n' = (if isInstant n then errorMessage n else None)
               /\ (isInstant n = true -> content n' = instantContent n))
              \/ (status n' = ERROR /\ isInstant n = false
                  /\ content n' = content n /\ errorMessage n' <> None)))).

(** A service that never throws. *)
Definition neverThrows (provider : Provider) : Prop :=
  forall calls request, exists t, provider calls request = Text t.

(** A ranking of the ids that every edge climbs: the edge set is acyclic. *)
Definition climbs (connections : list Connection) (rank : string -> nat) : Prop :=
  forall e, In e connections -> rank (sourceId e) < rank (targetId e).

Definition pipelineRank (i : string) : nat :=
  if String.eqb i "I" then 0 else if String.eqb i "A" then 1 else 2.

(** Idle or Completed, and carrying no error message. *)
Definition cleanStatus (n : NodeData) : Prop :=
  (status n = IDLE \/ status n = COMPLETED) /\ errorMessage n = None.

(** The character occurs in the string. *)
Fixpoint mentions (c : ascii) (s : string) : bool :=
  match s with
  | EmptyString => false
  | String c' rest => Ascii.eqb c' c || mentions c rest
  end.

(** A line the image list keeps: it has no line break and is not blank. *)
Definition urlLine (line : string) : Prop :=
  mentions newline line = false /\ String.eqb (trim line) "" = false.

(** Neither Running nor in Error. *)
Definition calm (n : NodeData) : Prop :=
  status n = IDLE \/ status n = COMPLETED.

(** ** A graph redrawn between runs

    I, B and Z are there for a first run, on the single connection
    I → B, which leaves them Completed.  Then A is added and the
    connections I → A, A → B and B → A are drawn, which closes the cycle
    A ⇄ B. *)
Definition firstRunNodes : list NodeData :=
  [ exampleNode "I" INPUT IDLE "" (Some "Topic X") None;
    exampleNode "B" AI_GENERATOR IDLE "" None None;
    exampleNode "Z" INPUT IDLE "" (Some "Note") None ].

Definition firstRunEdges : list Connection :=
  [ exampleEdge "I" "B" ].

Definition redrawnNodes : list NodeData :=
  [ exampleNode "I" INPUT COMPLETED "Topic X" (Some "Topic X") None;
    exampleNode "B" AI_GENERATOR COMPLETED "ok" None None;
    exampleNode "Z" INPUT COMPLETED "Note" (Some "Note") None;
    exampleNode "A" AI_GENERATOR IDLE "" None None ].

Definition redrawnEdges : list Connection :=
  [ exampleEdge "I" "B"; exampleEdge "I" "A"; exampleEdge "A" "B"; exampleEdge "B" "A" ].

(** The specification on cycles, as it is worded: on a graph as the
    editor draws it, whatever store the loop is started on, a node of a
    cycle that is Idle is Idle in the state the loop returns. *)
Definition cycle_nodes_stay_idle : Prop :=
  forall connections provider globalContext init drag fuel final c via,
    wellDrawn {| e_nodes := init; e_connections := connections; e_connectionStart := drag |} ->
    walk connections c via c ->
    processWorkflowQueue connections provider globalContext fuel init = Some final ->
    forall n, In n init -> In (id n) (c :: via) -> status n = IDLE ->
      exists n', findNode (currentNodes final) (id n) = Some n' /\ status n' = IDLE.

(** * Proofs *)

(** ** The engine on small graphs *)

Example join_three : join ", " ["a"; "b"; "c"] = "a, b, c".
Proof. reflexivity. Qed.

Example directive_with_context :
  combinedSystemInstruction (Some "Be brief.") (Some "Acme")
  = "### GLOBAL CONTEXT / COMPANY VOICE:" +:+ nl +:+ "Acme" +:+ nl +:+ nl +:+ nl
    +:+ "### ROLE INSTRUCTION:" +:+ nl +:+ "Be brief.".
Proof. reflexivity. Qed.

Example directive_default :
  combinedSystemInstruction None (Some "")
  = "### ROLE INSTRUCTION:" +:+ nl +:+ "You are a helpful AI assistant.".
Proof. reflexivity. Qed.

Example descendants_of_B :
  getDescendantNodeIds chainEdges "B" = Some ({[ "C"; "D" ]} : gset string).
Proof. vm_compute. reflexivity. Qed.

(** A full run of the scenario: every node ends Completed, the Writer
    with the answer to the Input's prompt, the Preview with the Coder's
    content. *)
Example scenario_full_run :
  exists final coderContent,
    executeWorkflow scenarioEdges echo "" 5 scenarioNodes = Some final
    /\ List.map (fun n => (id n, status n, errorMessage n)) (currentNodes final)
       = [ ("Input", COMPLETED, None); ("Writer", COMPLETED, None);
           ("Coder", COMPLETED, None); ("Preview", COMPLETED, None) ]
    /\ List.map content (currentNodes final)
       = [ "Topic X"; "[Topic X]"; coderContent; coderContent ]
    /\ coderContent
       = "[" +:+ coderPrompt "[Topic X]" "<main></main>" [] +:+ "]".
Proof. eexists _, _. vm_compute. repeat split. Qed.

(** The same run when the first call, the Writer's, throws: the Writer
    ends in Error with the message, Coder and Preview stay Idle. *)
Example scenario_writer_fails :
  exists final,
    executeWorkflow scenarioEdges failFirst "" 5 scenarioNodes = Some final
    /\ List.map (fun n => (id n, status n, errorMessage n)) (currentNodes final)
       = [ ("Input", COMPLETED, None); ("Writer", ERROR, Some "boom");
           ("Coder", IDLE, None); ("Preview", IDLE, None) ].
Proof. eexists. vm_compute. repeat split. Qed.


(** ** The cascade: [getDescendantNodeIds] computes reachability *)

Section Cascade.

Variable connections : list Connection.

Local Notation targets := (targets connections).

Lemma targets_bound : size targets ≤ length connections.
Proof.
  unfold targets. induction connections as [|c l IH]; cbn [List.map length].
  - rewrite list_to_set_nil, size_empty. lia.
  - rewrite list_to_set_cons, size_union_alt, size_singleton.
    assert (size (list_to_set (List.map targetId l) ∖ {[targetId c]} : gset string)
            ≤ size (list_to_set (List.map targetId l) : gset string))
      by (apply subseteq_size; set_solver).
    lia.
Qed.

Lemma in_targets c : In c connections -> targetId c ∈ targets.
Proof.
  intros Hc. unfold targets. apply elem_of_list_to_set, list_elem_of_In.
  apply in_map_iff. eauto.
Qed.

Lemma outgoing_In c a : In c (outgoing connections a) <-> In c connections /\ sourceId c = a.
Proof.
  unfold outgoing. rewrite filter_In, String.eqb_eq. tauto.
Qed.

Lemma incoming_In c a : In c (incoming connections a) <-> In c connections /\ targetId c = a.
Proof.
  unfold incoming. rewrite filter_In, String.eqb_eq. tauto.
Qed.

(** What the inner [for] loop does to [descendants] and to the stack. *)
Lemma fold_visit_set l d s :
  (fold_left visit l (d, s)).1 = d ∪ list_to_set (List.map targetId l).
Proof.
  revert d s. induction l as [|c l IH]; intros d s; simpl.
  - set_solver.
  - unfold visit at 2; simpl. destruct (decide (targetId c ∈ d)).
    + rewrite IH. set_solver.
    + rewrite IH. set_solver.
Qed.

Lemma fold_visit_elem l d s v :
  v ∈ (fold_left visit l (d, s)).1 <-> v ∈ d \/ In v (List.map targetId l).
Proof.
  rewrite fold_visit_set, elem_of_union, elem_of_list_to_set, list_elem_of_In. tauto.
Qed.

Lemma fold_visit_stack l d s v :
  In v (fold_left visit l (d, s)).2 <-> In v s \/ (In v (List.map targetId l) /\ v ∉ d).
Proof.
  revert d s. induction l as [|c l IH]; intros d s; simpl.
  - tauto.
  - unfold visit at 2; simpl. destruct (decide (targetId c ∈ d)) as [Hin|Hin].
    + rewrite IH. split; [tauto|].
      intros [?|[[<-|?] ?]]; tauto.
    + rewrite IH. simpl. rewrite elem_of_union, elem_of_singleton.
      split.
      * intros [[<-|?]|[? Hv]]; [right; tauto|tauto|right; split; [tauto|]].
        intros ?; apply Hv; tauto.
      * intros [?|[[<-|?] Hv]]; [tauto|tauto|].
        destruct (decide (v = targetId c)) as [->|Hne]; [tauto|].
        right. split; [assumption|]. intros [?|?]; [congruence|tauto].
Qed.

(** Each iteration pops one id and pushes exactly the ids it adds, so
    unseen targets plus stack height goes down by one per [pop]. *)
Lemma fold_visit_measure l d s :
  (forall c, In c l -> targetId c ∈ targets) ->
  size (targets ∖ (fold_left visit l (d, s)).1) + length (fold_left visit l (d, s)).2
  = size (targets ∖ d) + length s.
Proof.
  revert d s. induction l as [|c l IH]; intros d s Hl; simpl; [reflexivity|].
  unfold visit at 2 4; simpl. destruct (decide (targetId c ∈ d)) as [Hin|Hin].
  - apply IH. intros; apply Hl; right; assumption.
  - rewrite IH by (intros; apply Hl; right; assumption). simpl.
    assert (Ht : targetId c ∈ targets) by (apply Hl; left; reflexivity).
    assert (Heq : targets ∖ d = {[targetId c]} ∪ targets ∖ ({[targetId c]} ∪ d)).
    { apply set_eq. intros v. rewrite elem_of_union, !elem_of_difference,
        elem_of_union, elem_of_singleton.
      destruct (decide (v = targetId c)) as [->|?]; tauto. }
    rewrite Heq.
    rewrite (size_union (C:=gset string) {[targetId c]}) by set_solver.
    rewrite size_singleton. lia.
Qed.

Section From.

Variable startNodeId : string.

Local Notation descendInv := (descendInv connections startNodeId).

Lemma descendInv_init : descendInv ∅ [startNodeId].
Proof.
  repeat split.
  - set_solver.
  - intros v [<-|[]]. tauto.
  - intros u v [->|Hu] _; [left; left; reflexivity|set_solver].
Qed.

Lemma descendInv_step d current rest :
  descendInv d (current :: rest) ->
  descendInv (fold_left visit (outgoing connections current) (d, rest)).1
             (fold_left visit (outgoing connections current) (d, rest)).2.
Proof.
  intros (Ha & Hb & Hc).
  assert (Hcur : current = startNodeId \/ current ∈ d) by (apply Hb; left; reflexivity).
  assert (Hout : forall v, In v (List.map targetId (outgoing connections current))
                           <-> edge connections current v).
  { intros v. rewrite in_map_iff. unfold edge. setoid_rewrite outgoing_In.
    split; intros (c & ?); exists c; tauto. }
  repeat split.
  - intros v. rewrite fold_visit_elem, Hout.
    intros [?|He]; [auto|].
    destruct Hcur as [->|Hd]; [apply tc_once; assumption|].
    eapply tc_r; [apply Ha|]; eassumption.
  - intros v. rewrite fold_visit_stack, fold_visit_elem.
    intros [Hv|[? ?]]; [|tauto].
    destruct (Hb v) as [?|?]; [right; assumption|tauto|tauto].
  - intros u v. rewrite !fold_visit_elem, fold_visit_stack, !Hout.
    intros Hu He.
    destruct (decide (u = current)) as [->|Hne]; [tauto|].
    destruct (decide (u ∈ d)) as [Hd|Hd].
    + destruct (Hc u v) as [[?|?]|?]; [tauto|assumption|congruence|tauto|tauto].
    + destruct Hu as [->|[?|?]]; [|contradiction|tauto].
      destruct (Hc startNodeId v) as [[?|?]|?]; [tauto|assumption|congruence|tauto|tauto].
Qed.

Lemma descendInv_done d v :
  descendInv d [] -> (v ∈ d <-> reaches connections startNodeId v).
Proof.
  intros (Ha & Hb & Hc). split; [apply Ha|].
  intros Hr. unfold reaches in Hr.
  assert (H : forall u w, tc (edge connections) u w -> u = startNodeId \/ u ∈ d -> w ∈ d).
  { clear Hr. induction 1 as [u w He|u m w He _ IH]; intros Hu.
    - destruct (Hc u w Hu He) as [[]|?]. assumption.
    - apply IH. right. destruct (Hc u m Hu He) as [[]|?]. assumption. }
  eapply H; [eassumption|tauto].
Qed.

(** The loop ends within the fuel and returns the invariant at an
    empty stack. *)
Lemma descend_returns fuel d s :
  size (targets ∖ d) + length s ≤ fuel ->
  descendInv d s ->
  exists D, descend fuel connections d s = Some D /\ descendInv D [].
Proof.
  revert d s. induction fuel as [|fuel IH]; intros d s Hm Hinv.
  - destruct s as [|? ?]; simpl in *; [eauto|lia].
  - destruct s as [|current rest]; simpl; [eauto|].
    apply IH; [|apply descendInv_step; assumption].
    rewrite fold_visit_measure; [simpl in *; lia|].
    intros c Hc. apply in_targets. apply outgoing_In in Hc. tauto.
Qed.

(** [getDescendantNodeIds] returns, and returns exactly the ids
    reachable from the start by one or more edges. *)
Lemma getDescendantNodeIds_spec :
  exists D, getDescendantNodeIds connections startNodeId = Some D
            /\ forall v, v ∈ D <-> reaches connections startNodeId v.
Proof.
  destruct (descend_returns (S (length connections)) ∅ [startNodeId]) as (D & HD & Hinv).
  - pose proof targets_bound.
    assert (size (targets ∖ ∅) ≤ size targets) by (apply subseteq_size; set_solver).
    simpl. lia.
  - apply descendInv_init.
  - exists D. split; [exact HD|]. intros v. apply descendInv_done. exact Hinv.
Qed.

End From.

End Cascade.

(** ** Pointwise updates *)

Lemma sameStatic_refl n : sameStatic n n.
Proof. repeat split. Qed.

Lemma sameStatic_spread n u : sameStatic n (spread n u).
Proof. repeat split. Qed.

Lemma sameStatic_trans a b c : sameStatic a b -> sameStatic b c -> sameStatic a c.
Proof. unfold sameStatic. intuition congruence. Qed.

Lemma sameStatic_id n n' : sameStatic n n' -> id n' = id n.
Proof. intros H; apply H. Qed.

Lemma sameStatic_type n n' : sameStatic n n' -> type n' = type n.
Proof. intros H; apply H. Qed.

(** [Forall2], read along the two lists. *)
Lemma Forall2_in_r {A B} (R : A -> B -> Prop) l l' b :
  Forall2 R l l' -> In b l' -> exists a, In a l /\ R a b.
Proof.
  induction 1 as [|a0 b0 l l' H0 _ IH]; simpl; [tauto|].
  intros [<-|Hb]; [eauto|]. destruct (IH Hb) as (a & ? & ?); eauto.
Qed.

Lemma Forall2_in_l {A B} (R : A -> B -> Prop) l l' a :
  Forall2 R l l' -> In a l -> exists b, In b l' /\ R a b.
Proof.
  induction 1 as [|a0 b0 l l' H0 _ IH]; simpl; [tauto|].
  intros [<-|Ha]; [eauto|]. destruct (IH Ha) as (b & ? & ?); eauto.
Qed.

Lemma Forall2_with_In {A B} (R : A -> B -> Prop) l l' :
  Forall2 R l l' -> Forall2 (fun a b => In a l /\ R a b) l l'.
Proof.
  induction 1 as [|a b l l' Hab _ IH]; constructor.
  - split; [left; reflexivity|exact Hab].
  - eapply Forall2_impl; [exact IH|]. intros a' b' [Hin HR]. split; [right; exact Hin|exact HR].
Qed.

Lemma Forall2_compose {A} (R S T : A -> A -> Prop) l l' l'' :
  (forall a b c, R a b -> S b c -> T a c) ->
  Forall2 R l l' -> Forall2 S l' l'' -> Forall2 T l l''.
Proof.
  intros HT H. revert l''. induction H as [|a b l l' Hab _ IH]; intros l'' H';
    inversion H'; subst; constructor; eauto.
Qed.

Lemma Forall2_map_self {A} (R : A -> A -> Prop) (f : A -> A) l :
  (forall a, In a l -> R a (f a)) -> Forall2 R l (List.map f l).
Proof.
  induction l as [|a l IH]; simpl; intros H; constructor; auto.
Qed.

Lemma Forall2_ids R l l' :
  (forall n n', R n n' -> id n' = id n) ->
  Forall2 R l l' -> List.map id l' = List.map id l.
Proof.
  intros HR. induction 1; simpl; [reflexivity|]. f_equal; auto.
Qed.

(** [find] walks both lists in step when ids agree position by position. *)
Lemma findNode_Forall2 R l l' i :
  (forall n n', R n n' -> id n' = id n) ->
  Forall2 R l l' ->
  match findNode l i with
  | Some n => exists n', findNode l' i = Some n' /\ R n n'
  | None => findNode l' i = None
  end.
Proof.
  intros HR. unfold findNode. induction 1 as [|a b l l' Hab _ IH]; simpl; [reflexivity|].
  rewrite (HR _ _ Hab). destruct (String.eqb (id a) i); [eauto|exact IH].
Qed.

Lemma findNode_Some l i n : findNode l i = Some n -> In n l /\ id n = i.
Proof.
  unfold findNode. intros H. apply find_some in H. rewrite String.eqb_eq in H. exact H.
Qed.

Lemma NoDup_id_inj l n m :
  List.NoDup (List.map id l) -> In n l -> In m l -> id n = id m -> n = m.
Proof.
  induction l as [|a l IH]; simpl; [tauto|].
  intros Hnd. apply NoDup_cons_iff in Hnd as [Hna Hnd].
  intros [<-|Hn] [<-|Hm] Heq; auto.
  - exfalso. apply Hna. rewrite Heq. apply in_map. assumption.
  - exfalso. apply Hna. rewrite <- Heq. apply in_map. assumption.
Qed.

Lemma findNode_NoDup l n :
  List.NoDup (List.map id l) -> In n l -> findNode l (id n) = Some n.
Proof.
  intros Hnd Hn. destruct (findNode l (id n)) as [m|] eqn:Hf.
  - apply findNode_Some in Hf as [Hm Hid]. f_equal. eapply NoDup_id_inj; eauto.
  - unfold findNode in Hf. eapply find_none in Hf; [|exact Hn].
    rewrite String.eqb_refl in Hf. discriminate.
Qed.

(** One [updateLocalAndState]. *)
Lemma updateLocalAndState_Forall2 i u l :
  Forall2 (fun n n' => n' = if String.eqb (id n) i then spread n u else n)
          l (updateLocalAndState i u l).
Proof. apply Forall2_map_self. reflexivity. Qed.

Lemma updateLocalAndState_twice i u v l :
  updateLocalAndState i v (updateLocalAndState i u l)
  = List.map (fun n => if String.eqb (id n) i then spread (spread n u) v else n) l.
Proof.
  unfold updateLocalAndState. rewrite map_map. apply map_ext. intros n.
  destruct (String.eqb (id n) i) eqn:E; simpl; rewrite E; reflexivity.
Qed.

(** ** What a dispatch, a round and the first step do to each node *)

Lemma settled_id T n n' : settled T n n' -> id n' = id n.
Proof. intros H. apply sameStatic_id, H. Qed.

Lemma settled_compose T1 T2 a b c :
  settled T1 a b -> settled T2 b c -> settled (T1 ++ T2) a c.
Proof.
  intros (Hs1 & Ht1 & Hu1) (Hs2 & Ht2 & Hu2).
  pose proof (sameStatic_id _ _ Hs1) as Hid.
  split; [eapply sameStatic_trans; eassumption|]. rewrite Hid in *.
  split.
  - intros Hin. destruct (in_dec string_dec (id a) T2) as [H2|H2]; [auto|].
    rewrite (Hu2 H2). apply in_app_or in Hin. destruct Hin; [auto|contradiction].
  - intros Hn. rewrite Hu2, Hu1; [reflexivity| |]; intros ?; apply Hn, in_or_app; auto.
Qed.

(** A node whose status is Idle after some dispatches was not touched. *)
Lemma settled_idle T n n' : settled T n n' -> status n' = IDLE -> n' = n.
Proof.
  intros (_ & Ht & Hu) Hidle. destruct (in_dec string_dec (id n) T) as [H|H]; [|auto].
  destruct (Ht H); congruence.
Qed.

Section SchedulerFacts.

Variable connections : list Connection.
Variable provider : Provider.
Variable globalContext : string.

Notation dispatch := (dispatch connections provider globalContext).
Notation round := (round connections provider globalContext).
Notation settle := (settle connections provider globalContext).
Notation atRound := (atRound connections provider globalContext).

Lemma settle_status nodes k node :
  u_status (settle nodes k node) = Some COMPLETED
  \/ u_status (settle nodes k node) = Some ERROR.
Proof.
  unfold settle. destruct (bool_decide (type node = OUTPUT_PREVIEW)); [left; reflexivity|].
  destruct (generateText _ _ _ _ _ _); [left|right]; reflexivity.
Qed.

Lemma dispatch_nodes st node :
  currentNodes (dispatch st node)
  = List.map (fun n =>
       if String.eqb (id n) (id node)
       then spread (spread n markRunning)
              (settle (updateLocalAndState (id node) markRunning (currentNodes st))
                 (calls st) node)
       else n) (currentNodes st).
Proof. unfold dispatch; simpl. apply updateLocalAndState_twice. Qed.

Lemma dispatch_settled st node :
  Forall2 (settled [id node]) (currentNodes st) (currentNodes (dispatch st node)).
Proof.
  rewrite dispatch_nodes. apply Forall2_map_self. intros n _.
  destruct (String.eqb (id n) (id node)) eqn:E.
  - apply String.eqb_eq in E. split; [|split].
    + eapply sameStatic_trans; apply sameStatic_spread.
    + intros _. simpl.
      destruct (settle_status (updateLocalAndState (id node) markRunning (currentNodes st))
                  (calls st) node) as [-> | ->]; simpl; auto.
    + intros Hn. exfalso. apply Hn. left. auto.
  - split; [apply sameStatic_refl|]. split; [|reflexivity].
    apply String.eqb_neq in E. intros [?|[]]. congruence.
Qed.

Lemma fold_dispatch_settled run st :
  Forall2 (settled (List.map id run))
          (currentNodes st) (currentNodes (fold_left dispatch run st)).
Proof.
  revert st. induction run as [|m run IH]; intros st; simpl.
  - rewrite <- (map_id (currentNodes st)) at 2.
    apply Forall2_map_self. intros n _. split; [apply sameStatic_refl|]. split; [simpl; intros []|reflexivity].
  - eapply Forall2_compose; [|apply dispatch_settled|apply IH].
    intros a b c Hab Hbc. exact (settled_compose [id m] _ _ _ _ Hab Hbc).
Qed.

Lemma round_settled st :
  Forall2 (settled (List.map id (nodesToRun connections (currentNodes st))))
          (currentNodes st) (currentNodes (round st)).
Proof. apply fold_dispatch_settled. Qed.

End SchedulerFacts.

Lemma round_unfold connections provider globalContext st :
  round connections provider globalContext st
  = fold_left (dispatch connections provider globalContext)
      (nodesToRun connections (currentNodes st)) st.
Proof. reflexivity. Qed.

Lemma atRound_unfold connections provider globalContext k init :
  atRound connections provider globalContext k init
  = Nat.iter k (round connections provider globalContext) (start init).
Proof. reflexivity. Qed.

(** ** Idle nodes only ever leave Idle *)

Lemma idleCount_le (R : NodeData -> NodeData -> Prop) l l' :
  (forall n n', R n n' -> status n' = IDLE -> status n = IDLE) ->
  Forall2 R l l' -> idleCount l' <= idleCount l.
Proof.
  intros HR. unfold idleCount. induction 1 as [|a b l l' Hab _ IH]; simpl; [lia|].
  destruct (bool_decide_reflect (status b = IDLE)) as [Hb|Hb]; simpl.
  - rewrite bool_decide_eq_true_2 by eauto. simpl. lia.
  - destruct (bool_decide (status a = IDLE)); simpl; lia.
Qed.

Lemma idleCount_lt (R : NodeData -> NodeData -> Prop) l l' a :
  (forall n n', R n n' -> status n' = IDLE -> status n = IDLE) ->
  (forall n', R a n' -> status n' <> IDLE) ->
  status a = IDLE -> In a l ->
  Forall2 R l l' -> idleCount l' < idleCount l.
Proof.
  intros HR Ha Hidle Hin H. induction H as [|a0 b l l' Hab Hrest IH]; simpl in *; [tauto|].
  pose proof (idleCount_le R l l' HR Hrest) as Hle.
  unfold idleCount in *. simpl.
  destruct Hin as [->|Hin].
  - rewrite (bool_decide_eq_true_2 _ Hidle).
    rewrite (bool_decide_eq_false_2 _ (Ha _ Hab)). simpl. lia.
  - specialize (IH Hin).
    destruct (bool_decide_reflect (status b = IDLE)) as [Hb|Hb]; simpl.
    + rewrite bool_decide_eq_true_2 by eauto. simpl. lia.
    + destruct (bool_decide (status a0 = IDLE)); simpl; lia.
Qed.

Lemma idleCount_length l : idleCount l <= length l.
Proof. unfold idleCount. apply filter_length_le. Qed.

Lemma settled_keeps_idle T n n' : settled T n n' -> status n' = IDLE -> status n = IDLE.
Proof. intros H Hi. rewrite <- (settled_idle _ _ _ H Hi). exact Hi. Qed.

(** ** The readiness filter *)

Lemma sourceReady_spec nodes e :
  sourceReady nodes e = true <-> sourceCompleted nodes e.
Proof.
  unfold sourceReady, sourceCompleted. destruct (findNode nodes (sourceId e)) as [s|].
  - rewrite bool_decide_eq_true. split; [eauto|]. intros (s' & [= <-] & ?). assumption.
  - split; [discriminate|]. intros (? & [=] & _).
Qed.

Lemma isReady_idle connections nodes node :
  isReady connections nodes node = true -> status node = IDLE.
Proof.
  unfold isReady. destruct (bool_decide_reflect (status node = IDLE)); simpl; [auto|discriminate].
Qed.

(** The filter, case by case, on any list of nodes. *)
Lemma isReady_spec connections nodes node :
  isReady connections nodes node = true <->
  status node = IDLE
  /\ (type node = AI_BRAINSTORM
      \/ ((incoming connections (id node) <> [] \/ type node = INPUT \/ type node = IMAGE_NODE)
          /\ forall e, In e (incoming connections (id node)) -> sourceCompleted nodes e)).
Proof.
  assert (Hall : forallb (sourceReady nodes) (incoming connections (id node)) = true
                 <-> forall e, In e (incoming connections (id node)) -> sourceCompleted nodes e).
  { rewrite forallb_forall. split; intros H e He; apply sourceReady_spec, H, He. }
  unfold isReady.
  destruct (bool_decide_reflect (status node = IDLE)) as [Hs|Hs]; simpl;
    [|split; [discriminate|tauto]].
  destruct (bool_decide_reflect (type node = AI_BRAINSTORM)) as [Hb|Hb];
    [split; [auto|reflexivity]|].
  destruct (bool_decide_reflect (type node = INPUT)) as [Hi|Hi];
  destruct (bool_decide_reflect (type node = IMAGE_NODE)) as [Hm|Hm];
  destruct (incoming connections (id node)) as [|e0 es]; simpl length; simpl andb; cbv iota;
    rewrite ?Hall.
  all: try (split; [intros H; split; [assumption|right; split; [|exact H]]; auto; left; discriminate
                   |intros (_ & [?|(_ & H)]); [contradiction|exact H]]).
  split; [discriminate|]. intros (_ & [?|([?|[?|?]] & _)]); congruence.
Qed.

Lemma nodesToRun_In connections nodes node :
  In node (nodesToRun connections nodes) <->
  In node nodes /\ isReady connections nodes node = true.
Proof. unfold nodesToRun. apply filter_In. Qed.

Lemma nodesToRun_idle connections nodes :
  Forall (fun n => status n = IDLE) (nodesToRun connections nodes).
Proof.
  apply List.Forall_forall. intros n Hn. apply nodesToRun_In in Hn as [_ Hn].
  eapply isReady_idle, Hn.
Qed.

(** ** Step 1 *)

Lemma resolveStep_settled nodes node :
  Forall2 (settled [id node]) nodes (resolveStep nodes node).
Proof.
  unfold resolveStep, updateLocalAndState. apply Forall2_map_self. intros n _.
  destruct (String.eqb (id n) (id node)) eqn:E.
  - split; [apply sameStatic_spread|]. split; [simpl; auto|].
    apply String.eqb_eq in E. intros Hn. exfalso. apply Hn. left. auto.
  - split; [apply sameStatic_refl|]. split; [|reflexivity].
    apply String.eqb_neq in E. intros [?|[]]. congruence.
Qed.

Lemma fold_resolveStep_settled run nodes :
  Forall2 (settled (List.map id run)) nodes (fold_left resolveStep run nodes).
Proof.
  revert nodes. induction run as [|m run IH]; intros nodes; simpl.
  - rewrite <- (map_id nodes) at 2.
    apply Forall2_map_self. intros n _. split; [apply sameStatic_refl|].
    split; [simpl; intros []|reflexivity].
  - eapply Forall2_compose; [|apply resolveStep_settled|apply IH].
    intros a b c Hab Hbc. exact (settled_compose [id m] _ _ _ _ Hab Hbc).
Qed.

Lemma resolveInstant_settled nodes :
  Forall2 (settled (List.map id (List.filter isInstant nodes))) nodes (resolveInstant nodes).
Proof. apply fold_resolveStep_settled. Qed.

Lemma isInstant_spec n :
  isInstant n = true <-> (type n = INPUT \/ type n = IMAGE_NODE) /\ status n = IDLE.
Proof.
  unfold isInstant. rewrite andb_true_iff, orb_true_iff, !bool_decide_eq_true. tauto.
Qed.

(** After step 1 no source node is Idle: each one was Idle and resolved
    or was not Idle to begin with. *)
Lemma resolveInstant_no_idle_source nodes n' :
  In n' (resolveInstant nodes) ->
  type n' = INPUT \/ type n' = IMAGE_NODE -> status n' = IDLE -> False.
Proof.
  intros Hin Hty Hidle.
  destruct (Forall2_in_r _ _ _ _ (resolveInstant_settled nodes) Hin) as (n & Hn & Hs).
  pose proof (settled_idle _ _ _ Hs Hidle) as ->.
  destruct Hs as (_ & Ht & _).
  destruct Ht as [Ht|Ht]; [|congruence|congruence].
  apply in_map. apply filter_In. split; [assumption|]. apply isInstant_spec. tauto.
Qed.

Section Rounds.

Variable connections : list Connection.
Variable provider : Provider.
Variable globalContext : string.

Notation round := (round connections provider globalContext).
Notation loop := (loop connections provider globalContext).
Notation atRound := (atRound connections provider globalContext).
Notation start := (start).

Lemma atRound_S k init : atRound (S k) init = round (atRound k init).
Proof. reflexivity. Qed.

(** A round that finds work makes the number of Idle nodes go down. *)
Lemma round_progress st :
  nodesToRun connections (currentNodes st) <> [] ->
  idleCount (currentNodes (round st)) < idleCount (currentNodes st).
Proof.
  intros Hne. destruct (nodesToRun connections (currentNodes st)) as [|a run] eqn:Hrun;
    [contradiction|].
  assert (Ha : In a (nodesToRun connections (currentNodes st))) by (rewrite Hrun; left; auto).
  apply nodesToRun_In in Ha as [Hin Hready].
  eapply (idleCount_lt _ _ _ a); [| | |exact Hin|apply round_settled].
  - intros n n'. apply settled_keeps_idle.
  - intros n' (_ & Ht & _) Hidle. rewrite Hrun in Ht.
    destruct Ht as [Ht|Ht]; [left; reflexivity|congruence|congruence].
  - eapply isReady_idle, Hready.
Qed.

Lemma round_idle_le st :
  idleCount (currentNodes (round st)) <= idleCount (currentNodes st).
Proof.
  eapply idleCount_le; [|apply round_settled]. intros n n'. apply settled_keeps_idle.
Qed.

(** The loop leaves within as many dispatching rounds as there are Idle
    nodes, at the first state where nothing is ready. *)
Lemma loop_returns fuel st :
  idleCount (currentNodes st) < fuel ->
  exists k,
    k <= idleCount (currentNodes st)
    /\ loop fuel st = Some (Nat.iter k round st)
    /\ nodesToRun connections (currentNodes (Nat.iter k round st)) = []
    /\ forall j, j < k -> nodesToRun connections (currentNodes (Nat.iter j round st)) <> [].
Proof.
  revert st. induction fuel as [|fuel IH]; intros st Hfuel; [lia|].
  simpl. destruct (nodesToRun connections (currentNodes st)) as [|a run] eqn:Hrun.
  - exists 0. simpl. repeat split; [lia|assumption|lia].
  - assert (Hne : nodesToRun connections (currentNodes st) <> []) by (rewrite Hrun; discriminate).
    pose proof (round_progress st Hne) as Hlt.
    destruct (IH (round st)) as (k & Hk & Hloop & Hq & Hbefore); [lia|].
    exists (S k). rewrite Nat.iter_succ_r. repeat split; [lia|assumption|assumption|].
    intros [|j] Hj; simpl; [assumption|].
    change (round (Nat.iter j round st)) with (Nat.iter (S j) round st).
    rewrite Nat.iter_succ_r. apply Hbefore. lia.
Qed.

Lemma start_idle_le init : idleCount (currentNodes (start init)) <= length init.
Proof.
  simpl. etransitivity; [|apply idleCount_length].
  eapply idleCount_le; [|apply resolveInstant_settled]. intros n n'. apply settled_keeps_idle.
Qed.

(** Every state at a round boundary is the initial list, node by node,
    with some ids settled. *)
Lemma atRound_settled k init :
  exists T, Forall2 (settled T) (currentNodes (start init)) (currentNodes (atRound k init)).
Proof.
  induction k as [|k [T IH]].
  - exists []. simpl. rewrite <- (map_id (resolveInstant init)) at 2.
    apply Forall2_map_self. intros n _. split; [apply sameStatic_refl|].
    split; [intros []|reflexivity].
  - eexists. rewrite atRound_S. eapply Forall2_compose; [|exact IH|apply round_settled].
    intros a b c Hab Hbc. exact (settled_compose _ _ _ _ _ Hab Hbc).
Qed.

(** No source node is Idle at any round boundary. *)
Lemma atRound_no_idle_source k init n :
  In n (currentNodes (atRound k init)) ->
  type n = INPUT \/ type n = IMAGE_NODE -> status n = IDLE -> False.
Proof.
  intros Hin Hty Hidle. destruct (atRound_settled k init) as [T HT].
  destruct (Forall2_in_r _ _ _ _ HT Hin) as (n0 & Hn0 & Hs).
  pose proof (settled_idle _ _ _ Hs Hidle) as ->.
  exact (resolveInstant_no_idle_source init n0 Hn0 Hty Hidle).
Qed.

End Rounds.

(** ** The retry cascade *)

Lemma spread_reset_fields n :
  status (spread n resetUpdate) = IDLE
  /\ errorMessage (spread n resetUpdate) = None
  /\ content (spread n resetUpdate) = content n
  /\ sameStatic n (spread n resetUpdate).
Proof. repeat split. Qed.

(** C1 (as amended).  A retry that is not ignored resets exactly the
    target and its descendants, that is the ids reachable from the target
    along edges: each such node gets status Idle and no errorMessage, and
    keeps its content and every other field; every other node, ancestors
    and unrelated branches alike, is the same record as before.  While a
    run is executing the retry does nothing. *)
Theorem retry_resets_exactly_the_cascade :
  forall (connections : list Connection) (nodes : list NodeData) (nodeId : string),
    handleRetryNode true connections nodes nodeId = Some RetryIgnored
    /\ exists updated,
         handleRetryNode false connections nodes nodeId = Some (RetryStarted updated)
         /\ Forall2 (fun n n' =>
              (inCascade connections nodeId (id n) ->
                 n' = spread n resetUpdate
                 /\ status n' = IDLE /\ errorMessage n' = None
                 /\ content n' = content n /\ sameStatic n n')
              /\ (~ inCascade connections nodeId (id n) -> n' = n))
            nodes updated.
Proof.
  intros connections nodes nodeId. split; [reflexivity|].
  destruct (getDescendantNodeIds_spec connections nodeId) as (D & HD & Hreach).
  exists (resetIn ({[nodeId]} ∪ D) nodes). split.
  - unfold handleRetryNode. rewrite HD. reflexivity.
  - unfold resetIn. apply Forall2_map_self. intros n _.
    assert (Hin : id n ∈ ({[nodeId]} ∪ D : gset string) <-> inCascade connections nodeId (id n)).
    { rewrite elem_of_union, elem_of_singleton, Hreach. reflexivity. }
    destruct (decide (id n ∈ ({[nodeId]} ∪ D : gset string))) as [Hd|Hd]; split.
    + intros _. split; [reflexivity|]. apply spread_reset_fields.
    + intros Hn. exfalso. apply Hn, Hin, Hd.
    + intros Hc. exfalso. apply Hd, Hin, Hc.
    + reflexivity.
Qed.

(** C1, counterexample.  On the chain A → B → C → D, with B Completed
    and holding the text "draft", retrying B leaves B Idle and still
    holding "draft": the cascade does not clear content. *)
Lemma retry_keeps_content :
  (exists updated b,
      handleRetryNode false chainEdges chainNodes "B" = Some (RetryStarted updated)
      /\ nth_error updated 1 = Some b
      /\ id b = "B" /\ status b = IDLE /\ content b = "draft")
  /\ ~ cascade_clears_content.
Proof.
  assert (Hrun : handleRetryNode false chainEdges chainNodes "B"
                 = Some (RetryStarted
                      [ exampleNode "A" INPUT COMPLETED "X" (Some "X") None;
                        exampleNode "B" AI_GENERATOR IDLE "draft" None None;
                        exampleNode "C" AI_OPTIMIZER IDLE "" None None;
                        exampleNode "D" OUTPUT_PREVIEW IDLE "" None None ]))
    by (vm_compute; reflexivity).
  split.
  - eexists _, _. split; [exact Hrun|]. repeat split.
  - intros Hclaim. destruct (Hclaim chainEdges chainNodes "B") as (updated & Hupd & Hall).
    rewrite Hrun in Hupd. injection Hupd as <-.
    unfold chainNodes in Hall.
    inversion Hall as [|? ? ? ? _ Hrest]; subst.
    inversion Hrest as [|? ? ? ? [HB _] _]; subst.
    destruct HB as (_ & Hcontent & _); [left; reflexivity|]. discriminate Hcontent.
Qed.

(** ** Termination of the loop *)

Section Quiescence.

Variable connections : list Connection.
Variable provider : Provider.
Variable globalContext : string.

Notation round := (round connections provider globalContext).
Notation loop := (loop connections provider globalContext).
Notation atRound := (atRound connections provider globalContext).

(** The loop leaves at the first round that finds nothing, whatever fuel
    is left. *)
Lemma loop_at k : forall fuel st,
  k < fuel ->
  nodesToRun connections (currentNodes (Nat.iter k round st)) = [] ->
  (forall j, j < k -> nodesToRun connections (currentNodes (Nat.iter j round st)) <> []) ->
  loop fuel st = Some (Nat.iter k round st).
Proof.
  induction k as [|k IH]; intros fuel st Hfuel Hq Hbefore.
  - destruct fuel as [|fuel]; [lia|]. simpl in *. rewrite Hq. reflexivity.
  - destruct fuel as [|fuel]; [lia|]. simpl loop.
    destruct (nodesToRun connections (currentNodes st)) as [|a run] eqn:Hrun.
    + exfalso. apply (Hbefore 0); [lia|exact Hrun].
    + rewrite Nat.iter_succ_r in *. apply IH; [lia|assumption|].
      intros j Hj. rewrite <- Nat.iter_succ_r. apply Hbefore. lia.
Qed.

Lemma quiescence init :
  exists k,
    k <= length init
    /\ nodesToRun connections (currentNodes (atRound k init)) = []
    /\ (forall j, j < k -> nodesToRun connections (currentNodes (atRound j init)) <> [])
    /\ forall fuel, length init < fuel ->
         processWorkflowQueue connections provider globalContext fuel init
         = Some (atRound k init).
Proof.
  pose proof (start_idle_le init) as Hle.
  destruct (loop_returns connections provider globalContext
              (S (idleCount (currentNodes (start init)))) (start init))
    as (k & Hk & _ & Hq & Hbefore); [lia|].
  exists k. split; [lia|]. split; [exact Hq|]. split; [exact Hbefore|].
  intros fuel Hfuel. unfold processWorkflowQueue. apply loop_at; [lia|exact Hq|exact Hbefore].
Qed.

End Quiescence.

(** C3.  For every finite list of nodes and every edge set (acyclic or
    not), the loop of [processWorkflowQueue] leaves after [k] dispatching
    rounds with [k] at most the number of nodes, at a state in which the
    readiness filter selects nothing.  Each of the [k] rounds selects at
    least one node, selects only nodes whose status is Idle (never a
    Completed, Error or Running one), leaves every node it selected
    Completed or Error, and so strictly lowers the number of Idle nodes. *)
Theorem scheduler_quiesces_within_node_count :
  forall (connections : list Connection) (provider : Provider) (globalContext : string)
         (init : list NodeData),
  exists k,
    k <= length init
    /\ nodesToRun connections
         (currentNodes (atRound connections provider globalContext k init)) = []
    /\ (forall fuel, length init < fuel ->
          processWorkflowQueue connections provider globalContext fuel init
          = Some (atRound connections provider globalContext k init))
    /\ forall j, j < k ->
         let before := currentNodes (atRound connections provider globalContext j init) in
         let after := currentNodes (atRound connections provider globalContext (S j) init) in
         (exists n, In n (nodesToRun connections before))
         /\ Forall (fun n => status n = IDLE) (nodesToRun connections before)
         /\ (forall n n', In n (nodesToRun connections before) -> In n' after ->
               id n' = id n -> status n' = COMPLETED \/ status n' = ERROR)
         /\ idleCount after < idleCount before.
Proof.
  intros connections provider globalContext init.
  destruct (quiescence connections provider globalContext init) as (k & Hk & Hq & Hbefore & Hloop).
  exists k. split; [exact Hk|]. split; [exact Hq|]. split; [exact Hloop|].
  intros j Hj before after. specialize (Hbefore j Hj). fold before in Hbefore.
  split; [|split; [|split]].
  - destruct (nodesToRun connections before) as [|n run]; [contradiction|].
    exists n. left. reflexivity.
  - apply nodesToRun_idle.
  - intros n n' Hn Hn' Hid.
    pose proof (round_settled connections provider globalContext
                  (atRound connections provider globalContext j init)) as Hs.
    destruct (Forall2_in_r _ _ _ _ Hs Hn') as (n0 & _ & (Hst & Ht & _)).
    apply Ht. rewrite <- (sameStatic_id _ _ Hst), Hid. apply in_map. exact Hn.
  - apply round_progress. exact Hbefore.
Qed.

(** ** Step 1 resolves the sources *)

Lemma NoDup_map_filter {A B} (f : A -> B) (p : A -> bool) l :
  List.NoDup (List.map f l) -> List.NoDup (List.map f (List.filter p l)).
Proof.
  induction l as [|a l IH]; simpl; intros H; [constructor|].
  apply NoDup_cons_iff in H as [Hn Hd]. destruct (p a); simpl; [|auto].
  constructor; [|auto]. intros Hin. apply Hn.
  apply in_map_iff in Hin as (b & Hb & Hin). apply filter_In in Hin as [Hin _].
  rewrite <- Hb. apply in_map. exact Hin.
Qed.

Lemma NoDup_map_split {A B} (f : A -> B) pre a post :
  List.NoDup (List.map f (pre ++ a :: post)) ->
  ~ In (f a) (List.map f pre) /\ ~ In (f a) (List.map f post).
Proof.
  rewrite map_app. simpl. intros H. apply NoDup_remove_2 in H.
  split; intros Hin; apply H, in_or_app; auto.
Qed.

Lemma findNode_update l i u n :
  findNode l i = Some n -> findNode (updateLocalAndState i u l) i = Some (spread n u).
Proof.
  intros Hf.
  pose proof (findNode_Forall2 _ l _ i (fun n n' (H : n' = if String.eqb (id n) i then spread n u else n) =>
       eq_trans (f_equal id H) (ltac:(destruct (String.eqb (id n) i); reflexivity)))
       (updateLocalAndState_Forall2 i u l)) as H.
  rewrite Hf in H. destruct H as (n' & Hn' & ->). rewrite Hn'.
  apply findNode_Some in Hf as [_ <-]. rewrite String.eqb_refl. reflexivity.
Qed.

Lemma findNode_settled T l l' n :
  Forall2 (settled T) l l' -> findNode l (id n) = Some n -> ~ In (id n) T ->
  findNode l' (id n) = Some n.
Proof.
  intros HF Hf HT.
  pose proof (findNode_Forall2 _ l l' (id n) (settled_id T) HF) as H.
  rewrite Hf in H. destruct H as (n' & Hn' & (_ & _ & Hu)). rewrite Hn', (Hu HT). reflexivity.
Qed.

(** Under unique ids, a source that step 1 resolves ends up as itself
    with the update of its own turn. *)
Lemma resolveInstant_own init node :
  List.NoDup (List.map id init) -> In node init -> isInstant node = true ->
  findNode (resolveInstant init) (id node)
  = Some (spread node (completeWith (instantContent node))).
Proof.
  intros Hnd Hin Hinst.
  assert (Hrun : In node (List.filter isInstant init)) by (apply filter_In; auto).
  pose proof (NoDup_map_filter id isInstant init Hnd) as Hndrun.
  unfold resolveInstant.
  destruct (in_split _ _ Hrun) as (pre & post & Heq). rewrite Heq in *.
  destruct (NoDup_map_split id pre node post Hndrun) as [Hpre Hpost].
  rewrite fold_left_app. simpl.
  pose proof (findNode_settled _ _ _ node (fold_resolveStep_settled pre init)
                (findNode_NoDup init node Hnd Hin) Hpre) as H1.
  pose proof (findNode_update _ _ (completeWith (instantContent node)) _ H1) as H2.
  fold (resolveStep (fold_left resolveStep pre init) node) in H2.
  pose proof (findNode_settled _ _ _ (spread node (completeWith (instantContent node)))
                (fold_resolveStep_settled post _) H2 Hpost) as H3.
  exact H3.
Qed.

Lemma orElse_empty o : orElse o "" = default "" o.
Proof. destruct o as [[|? ?]|]; reflexivity. Qed.

Lemma instantContent_image node :
  type node = IMAGE_NODE -> instantContent node = join nl (default [] (imageUrls node)).
Proof.
  intros Hty. unfold instantContent. rewrite Hty. simpl.
  rewrite orElse_empty. destruct (imageUrls node); reflexivity.
Qed.

Lemma instantContent_input node :
  type node = INPUT -> instantContent node = default "" (userPrompt node).
Proof.
  intros Hty. unfold instantContent. rewrite Hty. simpl. apply orElse_empty.
Qed.

(** C7.  With unique node ids, the first step of [processWorkflowQueue]
    (which never looks at the edges: the state it produces is the same for
    every edge set) turns every Idle Source-Text node into a Completed node
    whose content is its prompt (empty when it has none), and every Idle
    Source-Image node into a Completed node whose content is its imageUrls
    joined by newlines; nothing else of the node changes, imageUrls
    included. *)
Theorem sources_resolve_in_the_first_step :
  forall (init : list NodeData),
    List.NoDup (List.map id init) ->
    forall (connections : list Connection) (provider : Provider) (globalContext : string),
      currentNodes (atRound connections provider globalContext 0 init) = resolveInstant init
      /\ forall node, In node init -> status node = IDLE ->
           (type node = INPUT ->
              exists node',
                findNode (resolveInstant init) (id node) = Some node'
                /\ status node' = COMPLETED
                /\ content node' = default "" (userPrompt node)
                /\ errorMessage node' = errorMessage node
                /\ sameStatic node node')
           /\ (type node = IMAGE_NODE ->
                 exists node',
                   findNode (resolveInstant init) (id node) = Some node'
                   /\ status node' = COMPLETED
                   /\ content node' = join nl (default [] (imageUrls node))
                   /\ imageUrls node' = imageUrls node
                   /\ errorMessage node' = errorMessage node
                   /\ sameStatic node node').
Proof.
  intros init Hnd connections provider globalContext. split; [reflexivity|].
  intros node Hin Hidle. split; intros Hty.
  - exists (spread node (completeWith (instantContent node))).
    split; [apply resolveInstant_own; auto; apply isInstant_spec; auto|].
    simpl. rewrite instantContent_input by assumption.
    repeat split.
  - exists (spread node (completeWith (instantContent node))).
    split; [apply resolveInstant_own; auto; apply isInstant_spec; auto|].
    simpl. rewrite instantContent_image by assumption.
    repeat split.
Qed.

Lemma twoSources_NoDup : List.NoDup (List.map id twoSources).
Proof. repeat constructor; simpl; intuition discriminate. Qed.

(** C7, at a concrete input: the Source-Image node of [twoSources], even
    with an edge into it. *)
Lemma sources_resolve_in_the_first_step_witness :
  exists node',
    findNode (resolveInstant twoSources) "img" = Some node'
    /\ status node' = COMPLETED
    /\ content node' = "u1" +:+ nl +:+ "u2"
    /\ imageUrls node' = Some ["u1"; "u2"].
Proof.
  destruct (sources_resolve_in_the_first_step twoSources twoSources_NoDup
              [exampleEdge "in" "img"] (fun _ _ => Text None) "") as [_ H].
  destruct (H (nth 1 twoSources (exampleNode "" INPUT IDLE "" None None))) as [_ Himg];
    [right; left; reflexivity|reflexivity|].
  destruct (Himg eq_refl) as (node' & Hf & Hs & Hc & Hu & _).
  exists node'. repeat split; assumption.
Defined.

(** ** The directive of [generateText] *)

Lemma append_cons ch (a b : string) : String ch a +:+ b = String ch (a +:+ b).
Proof. reflexivity. Qed.

Lemma append_nil_l (b : string) : "" +:+ b = b.
Proof. reflexivity. Qed.

Lemma append_nil_r (s : string) : s +:+ "" = s.
Proof. induction s as [|c s IH]; [reflexivity|rewrite append_cons, IH; reflexivity]. Qed.

Lemma string_app_assoc (a b c : string) : (a +:+ b) +:+ c = a +:+ (b +:+ c).
Proof.
  induction a as [|ch a IH]; [reflexivity|].
  rewrite !append_cons. f_equal. exact IH.
Qed.

Lemma trimEnd_cons ch s :
  trimEnd (String ch s)
  = match trimEnd s with
    | EmptyString => if isWhiteSpace ch then EmptyString else String ch EmptyString
    | kept => String ch kept
    end.
Proof. reflexivity. Qed.

Lemma trimEnd_app_kept a b :
  trimEnd b <> "" -> trimEnd (a +:+ b) = a +:+ trimEnd b.
Proof.
  intros Hb. induction a as [|ch a IH]; [reflexivity|].
  rewrite !append_cons, trimEnd_cons, IH.
  destruct (a +:+ trimEnd b) eqn:E; [|reflexivity].
  destruct a; [rewrite append_nil_l in E; contradiction|rewrite append_cons in E; discriminate].
Qed.

Lemma trimEnd_app_blank b w :
  trimEnd w = "" -> trimEnd (b +:+ w) = trimEnd b.
Proof.
  intros Hw. induction b as [|ch b IH]; [exact Hw|].
  rewrite append_cons, !trimEnd_cons, IH. reflexivity.
Qed.

Lemma trimEnd_head ch s : isWhiteSpace ch = false -> trimEnd (String ch s) <> "".
Proof.
  intros Hch. rewrite trimEnd_cons. destruct (trimEnd s); [rewrite Hch|]; discriminate.
Qed.

Lemma truthy_orElse o : truthy o = true -> o = Some (orElse o "").
Proof. destruct o as [[|? ?]|]; simpl; intros; congruence. Qed.

Lemma combinedSystemInstruction_sections systemInstruction globalContext :
  combinedSystemInstruction systemInstruction globalContext
  = globalSection globalContext +:+ roleSection systemInstruction.
Proof.
  unfold combinedSystemInstruction, combinedTemplate, globalSection, roleSection, trim.
  assert (Hrole : orElse systemInstruction genericDirective
                  = if truthy systemInstruction then orElse systemInstruction ""
                    else genericDirective)
    by (destruct systemInstruction as [[|? ?]|]; reflexivity).
  fold genericDirective. rewrite Hrole.
  set (role := if truthy systemInstruction then _ else _).
  assert (Htail : trimEnd ("### ROLE INSTRUCTION:" +:+ nl +:+ role +:+ nl +:+ "  ")
                  = trimEnd ("### ROLE INSTRUCTION:" +:+ nl +:+ role)).
  { rewrite <- (trimEnd_app_blank ("### ROLE INSTRUCTION:" +:+ nl +:+ role) (nl +:+ "  "))
      by reflexivity.
    rewrite !string_app_assoc. reflexivity. }
  assert (Hkept : trimEnd ("### ROLE INSTRUCTION:" +:+ nl +:+ role +:+ nl +:+ "  ") <> "")
    by (apply trimEnd_head; reflexivity).
  destruct (truthy globalContext).
  - change (trimStart (nl +:+ ("### GLOBAL CONTEXT / COMPANY VOICE:" +:+ nl
                               +:+ orElse globalContext "" +:+ nl +:+ nl)
                       +:+ nl +:+ "### ROLE INSTRUCTION:" +:+ nl +:+ role +:+ nl +:+ "  "))
      with (("### GLOBAL CONTEXT / COMPANY VOICE:" +:+ nl
             +:+ orElse globalContext "" +:+ nl +:+ nl)
            +:+ nl +:+ "### ROLE INSTRUCTION:" +:+ nl +:+ role +:+ nl +:+ "  ").
    rewrite <- Htail.
    rewrite <- (trimEnd_app_kept _ _ Hkept). f_equal.
    rewrite !string_app_assoc. reflexivity.
  - change (trimStart (nl +:+ "" +:+ nl +:+ "### ROLE INSTRUCTION:" +:+ nl +:+ role +:+ nl +:+ "  "))
      with ("### ROLE INSTRUCTION:" +:+ nl +:+ role +:+ nl +:+ "  ").
    simpl "+:+" at 1. exact Htail.
Qed.

(** ** What stays as it is across rounds *)

Section Blocking.

Variable connections : list Connection.
Variable provider : Provider.
Variable globalContext : string.

Notation dispatch := (dispatch connections provider globalContext).
Notation round := (round connections provider globalContext).
Notation loop := (loop connections provider globalContext).
Notation atRound := (atRound connections provider globalContext).

Lemma resolveInstant_ids init : List.map id (resolveInstant init) = List.map id init.
Proof. eapply Forall2_ids; [apply settled_id|apply resolveInstant_settled]. Qed.

Lemma round_ids st : List.map id (currentNodes (round st)) = List.map id (currentNodes st).
Proof. eapply Forall2_ids; [apply settled_id|apply round_settled]. Qed.

Lemma fold_dispatch_ids run st :
  List.map id (currentNodes (fold_left dispatch run st)) = List.map id (currentNodes st).
Proof. eapply Forall2_ids; [apply settled_id|apply fold_dispatch_settled]. Qed.

Lemma atRound_ids k init : List.map id (currentNodes (atRound k init)) = List.map id init.
Proof.
  induction k as [|k IH]; [apply resolveInstant_ids|].
  rewrite atRound_S, round_ids. exact IH.
Qed.

Lemma atRound_add j k init : atRound (j + k) init = Nat.iter j round (atRound k init).
Proof. rewrite !atRound_unfold. rewrite Nat.iter_add. reflexivity. Qed.

(** A round that selects nothing changes nothing, so the state reached
    at quiescence is the state at every later index. *)
Lemma round_quiescent st :
  nodesToRun connections (currentNodes st) = [] -> round st = st.
Proof. rewrite round_unfold. intros ->. reflexivity. Qed.

Lemma atRound_quiescent k init j :
  nodesToRun connections (currentNodes (atRound k init)) = [] ->
  k <= j -> atRound j init = atRound k init.
Proof.
  intros Hq Hj. replace j with ((j - k) + k) by lia. rewrite atRound_add.
  induction (j - k) as [|d IH]; [reflexivity|]. simpl. rewrite IH. apply round_quiescent, Hq.
Qed.

(** Whatever the fuel, a result of the loop is the state at the first
    round that selects nothing. *)
Lemma loop_Some fuel st st' :
  loop fuel st = Some st' ->
  exists k, st' = Nat.iter k round st
            /\ nodesToRun connections (currentNodes st') = [].
Proof.
  revert st. induction fuel as [|fuel IH]; intros st; simpl; [discriminate|].
  destruct (nodesToRun connections (currentNodes st)) as [|a run] eqn:Hrun.
  - intros [= <-]. exists 0. auto.
  - intros H. destruct (IH _ H) as (k & -> & Hq). exists (S k).
    rewrite Nat.iter_succ_r. auto.
Qed.

Lemma processWorkflowQueue_Some fuel init final :
  processWorkflowQueue connections provider globalContext fuel init = Some final ->
  exists k, final = atRound k init
            /\ nodesToRun connections (currentNodes final) = [].
Proof. apply loop_Some. Qed.

(** With unique ids, a node the filter does not select is not written
    during the round. *)
Lemma unselected_untouched nodes n :
  List.NoDup (List.map id nodes) -> In n nodes ->
  ~ In n (nodesToRun connections nodes) ->
  ~ In (id n) (List.map id (nodesToRun connections nodes)).
Proof.
  intros Hnd Hin Hsel Hid. apply in_map_iff in Hid as (m & Hm & Hrun).
  assert (m = n) by (eapply NoDup_id_inj; eauto; apply nodesToRun_In in Hrun; tauto).
  subst. contradiction.
Qed.

Lemma round_unselected st n :
  List.NoDup (List.map id (currentNodes st)) -> In n (currentNodes st) ->
  ~ In n (nodesToRun connections (currentNodes st)) ->
  findNode (currentNodes (round st)) (id n) = Some n.
Proof.
  intros Hnd Hin Hsel.
  eapply findNode_settled; [apply round_settled|apply findNode_NoDup; assumption|].
  apply unselected_untouched; assumption.
Qed.

(** With unique ids, a node that is not Idle stays the record it is for
    the rest of the run: Completed and Error are final. *)
Lemma round_keeps_settled st i n :
  List.NoDup (List.map id (currentNodes st)) ->
  findNode (currentNodes st) i = Some n -> status n <> IDLE ->
  findNode (currentNodes (round st)) i = Some n.
Proof.
  intros Hnd Hf Hs. apply findNode_Some in Hf as [Hin <-].
  apply round_unselected; [assumption|assumption|].
  intros Hsel. apply nodesToRun_In in Hsel as [_ Hr]. apply isReady_idle in Hr. contradiction.
Qed.

Lemma atRound_keeps_settled init k i n :
  List.NoDup (List.map id init) ->
  findNode (currentNodes (atRound k init)) i = Some n -> status n <> IDLE ->
  forall j, k <= j -> findNode (currentNodes (atRound j init)) i = Some n.
Proof.
  intros Hnd Hf Hs j Hj. replace j with ((j - k) + k) by lia.
  induction (j - k) as [|d IH]; [exact Hf|].
  change (S d + k) with (S (d + k)). rewrite atRound_S.
  apply round_keeps_settled; [rewrite atRound_ids; assumption|exact IH|exact Hs].
Qed.

(** Every Idle Brainstorm node is dispatched by the first round that
    sees it, so none is Idle once a round has run. *)
Lemma round_no_idle_brainstorm st n :
  In n (currentNodes (round st)) -> type n = AI_BRAINSTORM -> status n = IDLE -> False.
Proof.
  intros Hin Hty Hidle.
  destruct (Forall2_in_r _ _ _ _ (round_settled connections provider globalContext st) Hin)
    as (n0 & Hn0 & Hs).
  pose proof (settled_idle _ _ _ Hs Hidle) as ->.
  destruct Hs as (_ & Ht & _).
  destruct Ht as [Ht|Ht]; [|congruence|congruence].
  apply in_map. apply nodesToRun_In. split; [assumption|].
  apply isReady_spec. auto.
Qed.

(** The blocking argument.  Take a set [B] of ids in which every id is fed
    by an edge whose source is again in [B], or is never Completed from
    round [k] on.  If at round [k] the nodes with an id in [B] are Idle
    and of kinds that need input, then no round from [k] on selects any
    of them and they remain the records they are. *)
Lemma blocked_ids_stay (B : string -> Prop) init k :
  (forall i, B i ->
     exists p, edge connections p i
               /\ (B p \/ forall j s, k <= j ->
                            findNode (currentNodes (atRound j init)) p = Some s ->
                            status s <> COMPLETED)) ->
  (forall d, In d (currentNodes (atRound k init)) -> B (id d) ->
             status d = IDLE /\ ~ needsNoInput (type d)) ->
  forall j, k <= j ->
    Forall2 (fun n n' => id n' = id n /\ (B (id n) -> n' = n))
            (currentNodes (atRound k init)) (currentNodes (atRound j init))
    /\ forall d, In d (currentNodes (atRound j init)) -> B (id d) ->
                 ~ In d (nodesToRun connections (currentNodes (atRound j init))).
Proof.
  intros Hfed Hstart.
  assert (Hnot : forall j, k <= j ->
            (forall d, In d (currentNodes (atRound j init)) -> B (id d) ->
                       status d = IDLE /\ ~ needsNoInput (type d)) ->
            forall d, In d (currentNodes (atRound j init)) -> B (id d) ->
                      ~ In d (nodesToRun connections (currentNodes (atRound j init)))).
  { intros j Hj Hinv d Hd HB Hsel.
    destruct (Hinv d Hd HB) as [_ Hkind].
    apply nodesToRun_In in Hsel as [_ Hready]. apply isReady_spec in Hready as [_ Hready].
    destruct Hready as [Hb|[_ Hall]]; [apply Hkind; right; right; exact Hb|].
    destruct (Hfed _ HB) as (p & (e & He & Hsrc & Htgt) & Hp).
    destruct (Hall e) as (s & Hs & Hcompleted); [apply incoming_In; auto|].
    rewrite Hsrc in Hs. destruct Hp as [Hp|Hp].
    - apply findNode_Some in Hs as [Hsin Hsid].
      destruct (Hinv s Hsin) as [Hidle _]; [rewrite Hsid; exact Hp|congruence].
    - exact (Hp j s Hj Hs Hcompleted). }
  assert (Hall : forall d, Forall2 (fun n n' => id n' = id n /\ (B (id n) -> n' = n))
                      (currentNodes (atRound k init)) (currentNodes (atRound (d + k) init))
                    /\ (forall n, In n (currentNodes (atRound (d + k) init)) -> B (id n) ->
                                  status n = IDLE /\ ~ needsNoInput (type n))).
  { induction d as [|d [IH Hinv]].
    - split; [|exact Hstart]. simpl.
      rewrite <- (map_id (currentNodes (atRound k init))) at 2.
      apply Forall2_map_self. auto.
    - change (S d + k) with (S (d + k)). rewrite atRound_S.
      assert (Hstep : Forall2 (fun n n' => id n' = id n /\ (B (id n) -> n' = n))
                        (currentNodes (atRound (d + k) init))
                        (currentNodes (round (atRound (d + k) init)))).
      { eapply Forall2_impl; [apply round_settled|].
        intros n n' (Hst & _ & Hu). split; [apply sameStatic_id, Hst|].
        intros HB. apply Hu. intros Hid.
        apply in_map_iff in Hid as (m & Hm & Hrun).
        apply (Hnot (d + k) ltac:(lia) Hinv m);
          [apply nodesToRun_In in Hrun; tauto|rewrite Hm; exact HB|exact Hrun]. }
      split.
      + eapply Forall2_compose; [|exact IH|exact Hstep].
        intros a b c [Hia Hab] [Hib Hbc]. split; [congruence|].
        intros HB. specialize (Hab HB). subst b. exact (Hbc HB).
      + intros n' Hn' HB.
        destruct (Forall2_in_r _ _ _ _ Hstep Hn') as (n & Hn & Heq).
        pose proof (Forall2_in_r _ _ _ _
                      (round_settled connections provider globalContext (atRound (d + k) init))
                      Hn') as (n0 & Hn0 & Hs0).
        assert (HB0 : B (id n0)) by (rewrite <- (settled_id _ _ _ Hs0); exact HB).
        destruct Hs0 as (_ & _ & Hu). rewrite Hu.
        * apply Hinv; assumption.
        * intros Hid. apply in_map_iff in Hid as (m & Hm & Hrun).
          apply (Hnot (d + k) ltac:(lia) Hinv m);
            [apply nodesToRun_In in Hrun; tauto|rewrite Hm; exact HB0|exact Hrun]. }
  intros j Hj. replace j with ((j - k) + k) by lia.
  destruct (Hall (j - k)) as [HF Hinv]. split; [exact HF|].
  apply Hnot; [lia|exact Hinv].
Qed.

End Blocking.

(** ** The readiness filter *)

(** The source of an edge exists and is Completed: with unique ids, some
    node of the store carries the source id and is Completed. *)
Lemma sourceCompleted_In nodes e :
  List.NoDup (List.map id nodes) ->
  (sourceCompleted nodes e
   <-> exists s, In s nodes /\ id s = sourceId e /\ status s = COMPLETED).
Proof.
  intros Hnd. unfold sourceCompleted. split.
  - intros (s & Hf & Hc). apply findNode_Some in Hf as [Hin Hid]. eauto.
  - intros (s & Hin & Hid & Hc). exists s. split; [|exact Hc].
    rewrite <- Hid. apply findNode_NoDup; assumption.
Qed.

(** C4.  With unique node ids, at the start of every round of a run the
    readiness filter selects a node exactly when the node is Idle and
    either its kind needs no input (Source-Text, Source-Image, Brainstorm)
    or some connection ends at it and, for every connection that ends at
    it, the node the connection starts from is in the store and is
    Completed.  A node of any other kind at which no connection ends is
    never selected. *)
Theorem readiness_selects_exactly_the_eligible :
  forall (connections : list Connection) (provider : Provider) (globalContext : string)
         (init : list NodeData) (k : nat) (node : NodeData),
    List.NoDup (List.map id init) ->
    let nodes := currentNodes (atRound connections provider globalContext k init) in
    (In node (nodesToRun connections nodes) <->
       In node nodes
       /\ status node = IDLE
       /\ (needsNoInput (type node)
           \/ ((exists c, In c connections /\ targetId c = id node)
               /\ forall c, In c connections -> targetId c = id node ->
                    exists s, In s nodes /\ id s = sourceId c /\ status s = COMPLETED)))
    /\ (~ needsNoInput (type node) ->
        (forall c, In c connections -> targetId c <> id node) ->
        ~ In node (nodesToRun connections nodes)).
Proof.
  intros connections provider globalContext init k node Hnd nodes.
  assert (Hnd' : List.NoDup (List.map id nodes))
    by (unfold nodes; rewrite atRound_ids; exact Hnd).
  assert (Hsrc : In node nodes -> status node = IDLE ->
                 type node = INPUT \/ type node = IMAGE_NODE -> False).
  { intros Hin Hidle Hty.
    exact (atRound_no_idle_source connections provider globalContext k init node Hin Hty Hidle). }
  assert (Hfed : incoming connections (id node) <> []
                 <-> exists c, In c connections /\ targetId c = id node).
  { split.
    - intros Hne. destruct (incoming connections (id node)) as [|c l] eqn:E; [contradiction|].
      exists c. apply incoming_In. rewrite E. left. reflexivity.
    - intros (c & Hc & Ht) Hnone.
      assert (Hin : In c (incoming connections (id node))) by (apply incoming_In; auto).
      rewrite Hnone in Hin. contradiction. }
  unfold needsNoInput. split.
  - rewrite nodesToRun_In, isReady_spec. split.
    + intros (Hin & Hidle & [Hb|(Hk & Hall)]); [tauto|].
      split; [exact Hin|]. split; [exact Hidle|].
      destruct Hk as [Hk|Hk]; [|exfalso; exact (Hsrc Hin Hidle Hk)].
      right. split; [apply Hfed, Hk|].
      intros c Hc Ht. apply (sourceCompleted_In nodes c Hnd'), Hall, incoming_In. auto.
    + intros (Hin & Hidle & [[Hk|[Hk|Hk]]|(Hne & Hall)]);
        try (exfalso; apply (Hsrc Hin Hidle); tauto); [tauto|].
      split; [exact Hin|]. split; [exact Hidle|]. right.
      split; [left; apply Hfed, Hne|].
      intros e He. apply incoming_In in He as [He Ht].
      apply (sourceCompleted_In nodes e Hnd'), Hall; assumption.
  - intros Hkind Hnone. rewrite nodesToRun_In, isReady_spec.
    intros (_ & _ & [?|([Hne|[?|?]] & _)]); try tauto.
    apply Hfed in Hne as (c & Hc & Ht). exact (Hnone c Hc Ht).
Qed.

(** C4, at a concrete input: in I → A → P, once step 1 has resolved I,
    the filter selects A, whose one connection comes from the Completed
    I, and does not select P, whose connection comes from A, still
    Idle. *)
Lemma readiness_selects_exactly_the_eligible_witness :
  In (exampleNode "A" AI_GENERATOR IDLE "" None None)
     (nodesToRun pipelineEdges
        (currentNodes (atRound pipelineEdges alwaysText "" 0 pipelineNodes)))
  /\ ~ In (exampleNode "P" OUTPUT_PREVIEW IDLE "" None None)
         (nodesToRun pipelineEdges
            (currentNodes (atRound pipelineEdges alwaysText "" 0 pipelineNodes))).
Proof.
  assert (Hnd : List.NoDup (List.map id pipelineNodes))
    by (repeat constructor; simpl; intuition discriminate).
  split.
  - apply (proj1 (readiness_selects_exactly_the_eligible pipelineEdges alwaysText ""
                    pipelineNodes 0 (exampleNode "A" AI_GENERATOR IDLE "" None None) Hnd)).
    split; [simpl; auto|]. split; [reflexivity|]. right. split.
    + exists (exampleEdge "I" "A"). simpl. auto.
    + intros c [<-|[<-|[]]] Ht; [|discriminate Ht].
      exists (exampleNode "I" INPUT COMPLETED "Topic X" (Some "Topic X") None).
      simpl. auto.
  - intros Hsel.
    apply (proj1 (readiness_selects_exactly_the_eligible pipelineEdges alwaysText ""
                    pipelineNodes 0 (exampleNode "P" OUTPUT_PREVIEW IDLE "" None None) Hnd))
      in Hsel as (_ & _ & [[Hk|[Hk|Hk]]|(_ & Hall)]); try discriminate Hk.
    destruct (Hall (exampleEdge "A" "P")) as (s & Hs & Hid & Hc);
      [simpl; auto|reflexivity|].
    simpl in Hs. destruct Hs as [<-|[<-|[<-|[]]]]; discriminate.
Defined.

(** C9.  The directive [generateText] sends is the global-context section
    followed by the role section.  The global-context section is empty
    when there is no (or an empty) global context and otherwise holds it
    under its heading.  The role section holds the node's instruction under
    its heading when the node has a non-empty one, and the generic
    assistant directive otherwise; white space at the very end of the
    instruction is trimmed with the rest of the template. *)
Theorem directive_is_global_section_then_role_section :
  forall (provider : Provider) (calls : nat) (modelName prompt : string)
         (systemInstruction globalContext : option string),
    combinedSystemInstruction systemInstruction globalContext
    = globalSection globalContext +:+ roleSection systemInstruction
    /\ generateText provider calls modelName prompt systemInstruction globalContext
       = match provider calls
                 {| r_model := modelName; r_contents := prompt;
                    r_systemInstruction :=
                      globalSection globalContext +:+ roleSection systemInstruction |}
         with
         | Text t => inl (orElse t "")
         | Throw m => inr m
         end
    /\ (truthy globalContext = false -> globalSection globalContext = "")
    /\ (forall g, globalContext = Some g -> g <> "" ->
          globalSection globalContext
          = "### GLOBAL CONTEXT / COMPANY VOICE:" +:+ nl +:+ g +:+ nl +:+ nl +:+ nl)
    /\ (truthy systemInstruction = false ->
          roleSection systemInstruction = "### ROLE INSTRUCTION:" +:+ nl +:+ genericDirective)
    /\ (forall s, systemInstruction = Some s -> s <> "" ->
          roleSection systemInstruction = trimEnd ("### ROLE INSTRUCTION:" +:+ nl +:+ s)
          /\ (trimEnd s = s ->
              roleSection systemInstruction = "### ROLE INSTRUCTION:" +:+ nl +:+ s)).
Proof.
  intros provider calls modelName prompt systemInstruction globalContext.
  split; [apply combinedSystemInstruction_sections|].
  split; [unfold generateText; rewrite combinedSystemInstruction_sections; reflexivity|].
  split; [unfold globalSection; intros ->; reflexivity|].
  split; [intros g -> Hg; destruct g; [contradiction|reflexivity]|].
  split; [unfold roleSection; intros ->; reflexivity|].
  intros s -> Hs. unfold roleSection.
  assert (Ht : truthy (Some s) = true) by (destruct s; [contradiction|reflexivity]).
  rewrite Ht. assert (Ho : orElse (Some s) "" = s) by (destruct s; [contradiction|reflexivity]).
  rewrite Ho. split; [reflexivity|].
  intros Htrim.
  rewrite <- (string_app_assoc "### ROLE INSTRUCTION:" nl s).
  rewrite trimEnd_app_kept; rewrite Htrim; [reflexivity|exact Hs].
Qed.

(** ** Input assembly *)

Lemma gather_step nodes texts images e :
  gather nodes (texts, images) e = (texts ++ textOf nodes e, images ++ imagesOf nodes e).
Proof.
  unfold gather, textOf, imagesOf. simpl.
  destruct (findNode nodes (sourceId e)) as [s|]; [|rewrite !app_nil_r; reflexivity].
  destruct (bool_decide (type s = IMAGE_NODE)); rewrite !app_nil_r; reflexivity.
Qed.

Lemma fold_gather nodes edges texts images :
  fold_left (gather nodes) edges (texts, images)
  = (texts ++ flat_map (textOf nodes) edges, images ++ flat_map (imagesOf nodes) edges).
Proof.
  revert texts images. induction edges as [|e edges IH]; intros texts images.
  - simpl. rewrite !app_nil_r. reflexivity.
  - cbn [fold_left flat_map]. rewrite gather_step, IH, <- !app_assoc. reflexivity.
Qed.

Lemma buildPrompt_textAgent node text images :
  isTextAgent (type node) ->
  buildPrompt node text images
  = text +:+ match images with
             | [] => ""
             | _ => nl +:+ nl +:+ "Available Image URLs: " +:+ join ", " images
             end.
Proof.
  intros Hty. unfold buildPrompt.
  assert (Hb : bool_decide (type node = AI_BRAINSTORM) = false)
    by (apply bool_decide_eq_false; destruct Hty as [->|[->| ->]]; discriminate).
  assert (Hc : bool_decide (type node = AI_CODER) = false)
    by (apply bool_decide_eq_false; destruct Hty as [->|[->| ->]]; discriminate).
  rewrite Hb, Hc. simpl. destruct images as [|i images]; simpl; [rewrite append_nil_r; reflexivity|reflexivity].
Qed.

Lemma promptOf_payload connections nodes node :
  isTextAgent (type node) -> promptOf connections nodes node = payload connections nodes node.
Proof.
  intros Hty. unfold promptOf, inputsOf. rewrite fold_gather. simpl.
  rewrite buildPrompt_textAgent by assumption. unfold payload.
  destruct (flat_map (imagesOf nodes) (incoming connections (id node))); reflexivity.
Qed.

(** Marking a node Running changes neither the content, the kind nor the
    imageUrls of any node, so the payload is the same seen before or after
    that write. *)
Lemma findNode_update_any l i u j :
  findNode (updateLocalAndState i u l) j
  = (fun n => if String.eqb (id n) i then spread n u else n) <$> findNode l j.
Proof.
  unfold findNode, updateLocalAndState. induction l as [|a l IH]; simpl; [reflexivity|].
  destruct (String.eqb (id a) i) eqn:Ei; simpl; destruct (String.eqb (id a) j); simpl;
    auto; rewrite Ei; reflexivity.
Qed.

Lemma payload_markRunning connections nodes i node :
  payload connections (updateLocalAndState i markRunning nodes) node
  = payload connections nodes node.
Proof.
  unfold payload.
  assert (Ht : forall e, textOf (updateLocalAndState i markRunning nodes) e = textOf nodes e).
  { intros e. unfold textOf. rewrite findNode_update_any.
    destruct (findNode nodes (sourceId e)) as [s|]; simpl; [|reflexivity].
    destruct (String.eqb (id s) i); reflexivity. }
  assert (Hi : forall e, imagesOf (updateLocalAndState i markRunning nodes) e = imagesOf nodes e).
  { intros e. unfold imagesOf. rewrite findNode_update_any.
    destruct (findNode nodes (sourceId e)) as [s|]; simpl; [|reflexivity].
    destruct (String.eqb (id s) i); reflexivity. }
  rewrite (flat_map_ext _ _ Ht), (flat_map_ext _ _ Hi). reflexivity.
Qed.

(** [join] keeps the order of its list. *)
Lemma join_split sep a p rest :
  exists before,
    join sep (a ++ p :: rest)
    = before +:+ p +:+ match rest with [] => "" | _ => sep +:+ join sep rest end.
Proof.
  induction a as [|h a [before IH]].
  - exists "". rewrite append_nil_l.
    destruct rest; [cbn [app join]; rewrite append_nil_r; reflexivity|reflexivity].
  - exists (h +:+ sep +:+ before). simpl app.
    change (join sep (h :: a ++ p :: rest))
      with (match a ++ p :: rest with [] => h | _ => h +:+ sep +:+ join sep (a ++ p :: rest) end).
    destruct (a ++ p :: rest) eqn:E; [destruct a; discriminate|].
    rewrite IH, !string_app_assoc. reflexivity.
Qed.

Lemma join_order sep a p b q c :
  exists before between after,
    join sep (a ++ p :: b ++ q :: c) = before +:+ p +:+ between +:+ q +:+ after.
Proof.
  destruct (join_split sep a p (b ++ q :: c)) as [before Hp].
  destruct (join_split sep b q c) as [mid Hq].
  exists before, (sep +:+ mid), (match c with [] => "" | _ => sep +:+ join sep c end).
  rewrite Hp.
  replace (match b ++ q :: c with [] => "" | _ => sep +:+ join sep (b ++ q :: c) end)
    with (sep +:+ join sep (b ++ q :: c)) by (destruct b; reflexivity).
  rewrite Hq, !string_app_assoc. reflexivity.
Qed.

(** C8.  A Generator, Optimizer or FactCheck node that is dispatched sends
    the service, as prompt, the contents of its upstream nodes that are not
    image nodes, in the order of its incoming edges and joined by a blank
    line; the imageUrls of its upstream image nodes appear only in one
    trailing "Available Image URLs" annotation.  So when the edge from P
    precedes the edge from Q among the incoming edges, P's content stands
    before Q's in the prompt, whichever of the two completed first. *)
Theorem text_agent_payload_follows_edge_order :
  forall (connections : list Connection) (provider : Provider) (globalContext : string)
         (st : Sched) (node : NodeData),
    isTextAgent (type node) ->
    let running := updateLocalAndState (id node) markRunning (currentNodes st) in
    currentNodes (dispatch connections provider globalContext st node)
    = updateLocalAndState (id node)
        match provider (calls st)
                {| r_model := orElse (model node) "gemini-2.5-flash";
                   r_contents := payload connections (currentNodes st) node;
                   r_systemInstruction :=
                     combinedSystemInstruction (systemInstruction node) (Some globalContext) |}
        with
        | Text t => completeWith (orElse t "")
        | Throw m => failWith m
        end
        running
    /\ forall l1 e1 l2 e2 l3 p q,
         incoming connections (id node) = l1 ++ e1 :: l2 ++ e2 :: l3 ->
         findNode (currentNodes st) (sourceId e1) = Some p -> type p <> IMAGE_NODE ->
         findNode (currentNodes st) (sourceId e2) = Some q -> type q <> IMAGE_NODE ->
         exists before between after,
           payload connections (currentNodes st) node
           = before +:+ content p +:+ between +:+ content q +:+ after.
Proof.
  intros connections provider globalContext st node Hty running. split.
  - unfold dispatch, settle. fold running. simpl.
    assert (Hp : bool_decide (type node = OUTPUT_PREVIEW) = false)
      by (apply bool_decide_eq_false; destruct Hty as [->|[->| ->]]; discriminate).
    rewrite Hp. unfold generateText.
    rewrite promptOf_payload by assumption. unfold running. rewrite payload_markRunning.
    destruct (provider _ _); reflexivity.
  - intros l1 e1 l2 e2 l3 p q Hin Hp Hpt Hq Hqt. unfold payload. rewrite Hin.
    rewrite flat_map_app. simpl flat_map. rewrite flat_map_app. simpl flat_map.
    unfold textOf at 2 4. rewrite Hp, Hq.
    rewrite !bool_decide_eq_false_2 by assumption. simpl app.
    destruct (join_order (nl +:+ nl) (flat_map (textOf (currentNodes st)) l1) (content p)
                (flat_map (textOf (currentNodes st)) l2) (content q)
                (flat_map (textOf (currentNodes st)) l3)) as (before & between & after & Hj).
    rewrite Hj. eexists before, between, _. rewrite !string_app_assoc. reflexivity.
Qed.

(** C8, at a concrete input: W is fed by P, an image node and Q, in that
    order. *)
Lemma text_agent_payload_witness :
  payload fanInEdges fanInNodes (nth 3 fanInNodes (exampleNode "" INPUT IDLE "" None None))
  = "first" +:+ nl +:+ nl +:+ "second" +:+ nl +:+ nl +:+ "Available Image URLs: u1"
  /\ exists before between after,
       payload fanInEdges fanInNodes (nth 3 fanInNodes (exampleNode "" INPUT IDLE "" None None))
       = before +:+ "first" +:+ between +:+ "second" +:+ after.
Proof.
  split; [reflexivity|].
  pose proof (text_agent_payload_follows_edge_order fanInEdges (fun _ _ => Text None) ""
                {| currentNodes := fanInNodes; calls := 0 |}
                (nth 3 fanInNodes (exampleNode "" INPUT IDLE "" None None))
                (or_introl eq_refl)) as [_ H].
  exact (H [] (exampleEdge "P" "W") [exampleEdge "img" "W"] (exampleEdge "Q" "W") []
           (nth 0 fanInNodes (exampleNode "" INPUT IDLE "" None None))
           (nth 1 fanInNodes (exampleNode "" INPUT IDLE "" None None))
           eq_refl eq_refl ltac:(discriminate) eq_refl ltac:(discriminate)).
Defined.

(** ** Cycles *)

Lemma walk_fed connections a via b i :
  walk connections a via b -> In i (via ++ [b]) ->
  exists p, In p (a :: via) /\ edge connections p i.
Proof.
  revert a. induction via as [|x via IH]; intros a; simpl.
  - intros He [<-|[]]. eauto.
  - intros [He Hw] [<-|Hi]; [eauto|].
    destruct (IH x Hw Hi) as (p & Hp & Hpe). exists p. split; [right; exact Hp|exact Hpe].
Qed.

(** On a cycle every node is fed by a node of the cycle. *)
Lemma cycle_fed connections c via i :
  walk connections c via c -> In i (c :: via) ->
  exists p, edge connections p i /\ In p (c :: via).
Proof.
  intros Hw Hi. destruct (walk_fed connections c via c i Hw) as (p & Hp & He).
  - apply in_or_app. destruct Hi as [<-|Hi]; [right; left; reflexivity|left; exact Hi].
  - eauto.
Qed.

Lemma resolveInstant_keeps (B : string -> Prop) init :
  (forall n, In n init -> B (id n) -> ~ needsNoInput (type n)) ->
  Forall2 (fun n n' => id n' = id n /\ (B (id n) -> n' = n)) init (resolveInstant init).
Proof.
  intros HB. eapply Forall2_impl; [apply resolveInstant_settled|].
  intros n n' (Hst & _ & Hu). split; [apply sameStatic_id, Hst|].
  intros Hn. apply Hu. intros Hid. apply in_map_iff in Hid as (m & Hm & Hrun).
  apply filter_In in Hrun as [Hin Hinst]. apply isInstant_spec in Hinst as [Hty _].
  apply (HB m Hin); [rewrite Hm; exact Hn|]. unfold needsNoInput. tauto.
Qed.

(** C10 (as amended).  For every finite graph, cyclic or not, the loop of
    [processWorkflowQueue] leaves after at most as many dispatching rounds
    as there are nodes, at a state where nothing is ready.  If the nodes
    of a cycle are all Idle when the run starts and all of kinds that need
    input (none is a Source-Text, Source-Image or Brainstorm node), then no
    round ever selects any of them and the run leaves each of them the
    record it was, so Idle. *)
Theorem cyclic_graphs_quiesce_with_cycle_left_idle :
  forall (connections : list Connection) (provider : Provider) (globalContext : string)
         (init : list NodeData),
  exists k,
    k <= length init
    /\ nodesToRun connections
         (currentNodes (atRound connections provider globalContext k init)) = []
    /\ (forall fuel, length init < fuel ->
          processWorkflowQueue connections provider globalContext fuel init
          = Some (atRound connections provider globalContext k init))
    /\ forall c via,
         walk connections c via c ->
         (forall n, In n init -> In (id n) (c :: via) ->
                    status n = IDLE /\ ~ needsNoInput (type n)) ->
         Forall2 (fun n n' => id n' = id n /\ (In (id n) (c :: via) -> n' = n /\ status n' = IDLE))
                 init (currentNodes (atRound connections provider globalContext k init))
         /\ forall j n,
              In n (currentNodes (atRound connections provider globalContext j init)) ->
              In (id n) (c :: via) ->
              ~ In n (nodesToRun connections
                        (currentNodes (atRound connections provider globalContext j init))).
Proof.
  intros connections provider globalContext init.
  destruct (quiescence connections provider globalContext init) as (k & Hk & Hq & _ & Hloop).
  exists k. split; [exact Hk|]. split; [exact Hq|]. split; [exact Hloop|].
  intros c via Hw Hcyc.
  pose proof (resolveInstant_keeps (fun i => In i (c :: via)) init
                (fun n Hn Hi => proj2 (Hcyc n Hn Hi))) as H0.
  assert (Hstart : forall d,
             In d (currentNodes (atRound connections provider globalContext 0 init)) ->
             In (id d) (c :: via) -> status d = IDLE /\ ~ needsNoInput (type d)).
  { intros d Hd Hi. destruct (Forall2_in_r _ _ _ _ H0 Hd) as (n & Hn & Hid & Heq).
    rewrite Hid in Hi. rewrite (Heq Hi). apply Hcyc; assumption. }
  assert (Hfed : forall i, In i (c :: via) ->
             exists p, edge connections p i
               /\ (In p (c :: via)
                   \/ forall j s, 0 <= j ->
                        findNode (currentNodes (atRound connections provider globalContext j init)) p
                        = Some s -> status s <> COMPLETED)).
  { intros i Hi. destruct (cycle_fed connections c via i Hw Hi) as (p & He & Hp). eauto. }
  pose proof (blocked_ids_stay connections provider globalContext
                (fun i => In i (c :: via)) init 0 Hfed Hstart) as Hstay.
  split.
  - destruct (Hstay k ltac:(lia)) as [HF _].
    eapply Forall2_compose; [|exact (Forall2_with_In _ _ _ H0)|exact HF].
    intros n0 n1 n2 [Hin [Hi1 H1]] [Hi2 H2]. split; [congruence|].
    intros Hi. specialize (H1 Hi). subst n1. specialize (H2 Hi). subst n2.
    split; [reflexivity|]. apply Hcyc; assumption.
  - intros j n Hn Hi. destruct (Hstay j ltac:(lia)) as [_ Hsel]. apply Hsel; assumption.
Qed.

(** C10, counterexample.  A cycle node runs after a retry elsewhere.  A
    first run on I → B with the unrelated source Z completes all three.
    The user adds A and draws I → A, A → B and B → A: the graph is as the
    editor draws it and A ⇄ B is a cycle.  Retry on Z resets Z alone and
    starts the loop on the whole store: A is Idle and both its sources, I
    and its cycle predecessor B, are still Completed, so the first round
    runs A and the run ends with A Completed. *)
Lemma a_cycle_node_runs_after_a_retry_elsewhere :
  (executeWorkflow firstRunEdges alwaysText "" 4 firstRunNodes
   = Some {| currentNodes :=
               [ exampleNode "I" INPUT COMPLETED "Topic X" (Some "Topic X") None;
                 exampleNode "B" AI_GENERATOR COMPLETED "ok" None None;
                 exampleNode "Z" INPUT COMPLETED "Note" (Some "Note") None ];
             calls := 1 |}
   /\ redrawnNodes
      = [ exampleNode "I" INPUT COMPLETED "Topic X" (Some "Topic X") None;
          exampleNode "B" AI_GENERATOR COMPLETED "ok" None None;
          exampleNode "Z" INPUT COMPLETED "Note" (Some "Note") None ]
        ++ [ exampleNode "A" AI_GENERATOR IDLE "" None None ]
   /\ wellDrawn {| e_nodes := redrawnNodes; e_connections := redrawnEdges;
                   e_connectionStart := None |}
   /\ walk redrawnEdges "A" ["B"] "A"
   /\ handleRetryNode false redrawnEdges redrawnNodes "Z"
      = Some (RetryStarted
                [ exampleNode "I" INPUT COMPLETED "Topic X" (Some "Topic X") None;
                  exampleNode "B" AI_GENERATOR COMPLETED "ok" None None;
                  exampleNode "Z" INPUT IDLE "Note" (Some "Note") None;
                  exampleNode "A" AI_GENERATOR IDLE "" None None ])
   /\ processWorkflowQueue redrawnEdges alwaysText "" 5
        [ exampleNode "I" INPUT COMPLETED "Topic X" (Some "Topic X") None;
          exampleNode "B" AI_GENERATOR COMPLETED "ok" None None;
          exampleNode "Z" INPUT IDLE "Note" (Some "Note") None;
          exampleNode "A" AI_GENERATOR IDLE "" None None ]
      = Some {| currentNodes :=
                  [ exampleNode "I" INPUT COMPLETED "Topic X" (Some "Topic X") None;
                    exampleNode "B" AI_GENERATOR COMPLETED "ok" None None;
                    exampleNode "Z" INPUT COMPLETED "Note" (Some "Note") None;
                    exampleNode "A" AI_GENERATOR COMPLETED "ok" None None ];
                calls := 1 |})
  /\ ~ cycle_nodes_stay_idle.
Proof.
  assert (Hdrawn : forall nodes,
            List.map (fun n => (id n, type n)) nodes
            = List.map (fun n => (id n, type n)) redrawnNodes ->
            wellDrawn {| e_nodes := nodes; e_connections := redrawnEdges;
                         e_connectionStart := None |}).
  { intros nodes Hsame.
    assert (Hids : List.map id nodes = List.map id redrawnNodes).
    { pose proof (f_equal (List.map fst) Hsame) as H. rewrite !map_map in H. exact H. }
    assert (Hty : forall n, In n nodes ->
              In (id n, type n) (List.map (fun n => (id n, type n)) redrawnNodes)).
    { intros n Hn. rewrite <- Hsame. apply (in_map (fun n => (id n, type n))), Hn. }
    unfold wellDrawn. simpl. rewrite Hids.
    split; [repeat constructor; simpl; intuition discriminate|].
    split; [intros c [<-|[<-|[<-|[<-|[]]]]]; discriminate|].
    split; [repeat constructor; simpl; intuition discriminate|].
    split; [intros c [<-|[<-|[<-|[<-|[]]]]]; simpl; auto|].
    split; [|split].
    - intros c n Hc Hn Hid. specialize (Hty n Hn). unfold isSourceNode.
      simpl in Hty. rewrite Hid in Hty.
      destruct Hc as [<-|[<-|[<-|[<-|[]]]]]; simpl in Hty;
        destruct Hty as [Hp|[Hp|[Hp|[Hp|[]]]]];
        pose proof (f_equal fst Hp) as Hi; pose proof (f_equal snd Hp) as Ht;
        simpl in Hi, Ht; try discriminate Hi; rewrite <- Ht; reflexivity.
    - intros c n Hc Hn Hid. specialize (Hty n Hn). unfold hasOutputHandle.
      simpl in Hty. destruct Hty as [Hp|[Hp|[Hp|[Hp|[]]]]];
        pose proof (f_equal snd Hp) as Ht; simpl in Ht; rewrite <- Ht; reflexivity.
    - intros n _ Hs. discriminate Hs. }
  assert (Hwalk : walk redrawnEdges "A" ["B"] "A").
  { split; [exists (exampleEdge "A" "B")|exists (exampleEdge "B" "A")]; simpl; auto 10. }
  assert (Hrun : processWorkflowQueue redrawnEdges alwaysText "" 5
                   [ exampleNode "I" INPUT COMPLETED "Topic X" (Some "Topic X") None;
                     exampleNode "B" AI_GENERATOR COMPLETED "ok" None None;
                     exampleNode "Z" INPUT IDLE "Note" (Some "Note") None;
                     exampleNode "A" AI_GENERATOR IDLE "" None None ]
                 = Some {| currentNodes :=
                             [ exampleNode "I" INPUT COMPLETED "Topic X" (Some "Topic X") None;
                               exampleNode "B" AI_GENERATOR COMPLETED "ok" None None;
                               exampleNode "Z" INPUT COMPLETED "Note" (Some "Note") None;
                               exampleNode "A" AI_GENERATOR COMPLETED "ok" None None ];
                           calls := 1 |})
    by (vm_compute; reflexivity).
  split.
  - split; [vm_compute; reflexivity|]. split; [reflexivity|].
    split; [apply Hdrawn; reflexivity|]. split; [exact Hwalk|].
    split; [vm_compute; reflexivity|exact Hrun].
  - intros Hclaim.
    destruct (Hclaim redrawnEdges alwaysText "" _ None 5 _ "A" ["B"]
                (Hdrawn _ eq_refl) Hwalk Hrun
                (exampleNode "A" AI_GENERATOR IDLE "" None None)
                ltac:(simpl; auto) ltac:(simpl; auto) eq_refl)
      as (n' & Hn' & Hs).
    injection Hn' as <-. discriminate Hs.
Qed.

(** ** A node fed by a node that ends in Error *)

Lemma findNode_kept (B : string -> Prop) l l' i n :
  Forall2 (fun n n' => id n' = id n /\ (B (id n) -> n' = n)) l l' ->
  findNode l i = Some n -> B i -> findNode l' i = Some n.
Proof.
  intros HF Hf HB.
  pose proof (findNode_Forall2 _ l l' i (fun n n' H => proj1 H) HF) as H.
  rewrite Hf in H. destruct H as (n' & Hn' & _ & Heq).
  apply findNode_Some in Hf as [_ Hid]. rewrite Hn', Heq; [reflexivity|]. rewrite Hid. exact HB.
Qed.

(** With unique node ids, let B be Idle when the run starts and of a kind
    that needs input (not Source-Text, Source-Image or Brainstorm), and
    let one of its incoming edges come from a node that ends the run in
    Error.  Then no round selects B, B is the same record at every round
    boundary, and at quiescence B is still that record. *)
Lemma blocked_behind_a_failed_source :
  forall (connections : list Connection) (provider : Provider) (globalContext : string)
         (init : list NodeData) (fuel : nat) (final : Sched)
         (e : Connection) (b failed : NodeData),
    List.NoDup (List.map id init) ->
    In b init -> status b = IDLE -> ~ needsNoInput (type b) ->
    In e connections -> targetId e = id b ->
    processWorkflowQueue connections provider globalContext fuel init = Some final ->
    findNode (currentNodes final) (sourceId e) = Some failed -> status failed = ERROR ->
    (forall j,
        findNode (currentNodes (atRound connections provider globalContext j init)) (id b)
        = Some b
        /\ ~ In b (nodesToRun connections
                     (currentNodes (atRound connections provider globalContext j init))))
    /\ findNode (currentNodes final) (id b) = Some b
    /\ nodesToRun connections (currentNodes final) = [].
Proof.
  intros connections provider globalContext init fuel final e b failed
         Hnd Hb Hidle Hkind He Htgt Hrun Hfailed Herr.
  destruct (processWorkflowQueue_Some _ _ _ _ _ _ Hrun) as (kq & -> & Hq).
  set (B := fun i : string => i = id b).
  assert (Hnever : forall j s, 0 <= j ->
            findNode (currentNodes (atRound connections provider globalContext j init))
              (sourceId e) = Some s -> status s <> COMPLETED).
  { intros j s _ Hs Hc.
    assert (Hni : status s <> IDLE) by congruence.
    assert (Hat : findNode (currentNodes (atRound connections provider globalContext kq init))
                    (sourceId e) = Some s).
    { destruct (le_lt_dec j kq) as [Hle|Hlt].
      - eapply atRound_keeps_settled; eauto.
      - rewrite <- (atRound_quiescent connections provider globalContext kq init j Hq) by lia.
        exact Hs. }
    rewrite Hat in Hfailed. injection Hfailed as <-. congruence. }
  assert (H0 : Forall2 (fun n n' => id n' = id n /\ (B (id n) -> n' = n))
                 init (resolveInstant init)).
  { apply resolveInstant_keeps. intros n Hn Hid.
    assert (n = b) by (eapply NoDup_id_inj; eauto). subst. exact Hkind. }
  assert (Hb0 : findNode (resolveInstant init) (id b) = Some b).
  { eapply findNode_kept; [exact H0|apply findNode_NoDup; assumption|reflexivity]. }
  assert (Hstart : forall d,
             In d (currentNodes (atRound connections provider globalContext 0 init)) ->
             B (id d) -> status d = IDLE /\ ~ needsNoInput (type d)).
  { intros d Hd Hid. simpl in Hd.
    assert (d = b).
    { apply findNode_Some in Hb0 as [Hbin _].
      eapply NoDup_id_inj; [rewrite resolveInstant_ids; exact Hnd|exact Hd|exact Hbin|exact Hid]. }
    subst. auto. }
  assert (Hfed : forall i, B i ->
             exists p, edge connections p i
               /\ (B p \/ forall j s, 0 <= j ->
                     findNode (currentNodes (atRound connections provider globalContext j init)) p
                     = Some s -> status s <> COMPLETED)).
  { intros i ->. exists (sourceId e). split; [exists e; auto|right; exact Hnever]. }
  pose proof (blocked_ids_stay connections provider globalContext B init 0 Hfed Hstart) as Hstay.
  assert (Hall : forall j,
             findNode (currentNodes (atRound connections provider globalContext j init)) (id b)
             = Some b
             /\ ~ In b (nodesToRun connections
                          (currentNodes (atRound connections provider globalContext j init)))).
  { intros j. destruct (Hstay j ltac:(lia)) as [HF Hsel].
    assert (Hf : findNode (currentNodes (atRound connections provider globalContext j init)) (id b)
                 = Some b)
      by (eapply findNode_kept; [exact HF|exact Hb0|reflexivity]).
    split; [exact Hf|]. apply Hsel; [apply findNode_Some in Hf; tauto|reflexivity]. }
  split; [exact Hall|]. split; [apply Hall|exact Hq].
Qed.

(** C6.  On a graph as the editor draws it, let node B be Idle and let a
    connection lead from node A to B (its only incoming connection, or one
    of several).  If A ends the run in Error then no round selects B, B is
    the same record at every round boundary, so its status remains Idle
    for the whole run, and in the state the loop returns, where nothing is
    ready, B is still that record: Idle, not Error. *)
Theorem fed_by_failed_node_stays_idle :
  forall (connections : list Connection) (provider : Provider) (globalContext : string)
         (init : list NodeData) (drag : option string) (fuel : nat) (final : Sched)
         (e : Connection) (b failed : NodeData),
    wellDrawn {| e_nodes := init; e_connections := connections; e_connectionStart := drag |} ->
    In b init -> status b = IDLE ->
    In e connections -> targetId e = id b ->
    processWorkflowQueue connections provider globalContext fuel init = Some final ->
    findNode (currentNodes final) (sourceId e) = Some failed -> status failed = ERROR ->
    (forall j,
        findNode (currentNodes (atRound connections provider globalContext j init)) (id b)
        = Some b
        /\ ~ In b (nodesToRun connections
                     (currentNodes (atRound connections provider globalContext j init))))
    /\ findNode (currentNodes final) (id b) = Some b
    /\ status b = IDLE
    /\ nodesToRun connections (currentNodes final) = [].
Proof.
  intros connections provider globalContext init drag fuel final e b failed
         (Hnd & _ & _ & _ & Hin & _) Hb Hidle He Htgt Hrun Hfailed Herr.
  simpl in Hnd, Hin.
  assert (Hkind : ~ needsNoInput (type b)).
  { intros Hk. pose proof (Hin e b He Hb (eq_sym Htgt)) as Hsrc.
    unfold isSourceNode in Hsrc. unfold needsNoInput in Hk.
    destruct Hk as [Hk|[Hk|Hk]]; rewrite Hk in Hsrc; discriminate Hsrc. }
  destruct (blocked_behind_a_failed_source connections provider globalContext init fuel final
              e b failed Hnd Hb Hidle Hkind He Htgt Hrun Hfailed Herr)
    as (Hall & Hfinal & Hq).
  split; [exact Hall|]. split; [exact Hfinal|]. split; [exact Hidle|exact Hq].
Qed.

(** C6, at a concrete input: in I → A → P the call for A throws, and the
    Preview P is left as it was. *)
Lemma fed_by_failed_node_stays_idle_witness :
  exists final,
    processWorkflowQueue pipelineEdges failFirst "" 4 pipelineNodes = Some final
    /\ findNode (currentNodes final) "A"
       = Some (exampleNode "A" AI_GENERATOR ERROR "" None (Some "boom"))
    /\ findNode (currentNodes final) "P" = Some (exampleNode "P" OUTPUT_PREVIEW IDLE "" None None).
Proof.
  assert (Hrun : processWorkflowQueue pipelineEdges failFirst "" 4 pipelineNodes
                 = Some {| currentNodes :=
                             [ exampleNode "I" INPUT COMPLETED "Topic X" (Some "Topic X") None;
                               exampleNode "A" AI_GENERATOR ERROR "" None (Some "boom");
                               exampleNode "P" OUTPUT_PREVIEW IDLE "" None None ];
                           calls := 1 |})
    by (vm_compute; reflexivity).
  eexists. split; [exact Hrun|]. split; [reflexivity|].
  refine (proj1 (proj2 (fed_by_failed_node_stays_idle pipelineEdges failFirst "" pipelineNodes
            None 4 _
            (exampleEdge "A" "P") (exampleNode "P" OUTPUT_PREVIEW IDLE "" None None)
            (exampleNode "A" AI_GENERATOR ERROR "" None (Some "boom"))
            _ _ eq_refl _ eq_refl Hrun eq_refl eq_refl))).
  - unfold wellDrawn. simpl.
    split; [repeat constructor; simpl; intuition discriminate|].
    split; [intros c [<-|[<-|[]]]; discriminate|].
    split; [repeat constructor; simpl; intuition discriminate|].
    split; [intros c [<-|[<-|[]]]; simpl; auto|].
    split; [|split].
    + intros c n [<-|[<-|[]]] [<-|[<-|[<-|[]]]] Hid; try discriminate Hid; reflexivity.
    + intros c n [<-|[<-|[]]] [<-|[<-|[<-|[]]]] Hid; try discriminate Hid; reflexivity.
    + intros n _ Hs. discriminate Hs.
  - simpl. auto.
  - simpl. auto.
Defined.

(** ** A provider failure *)

Lemma tc_last {A} (R : relation A) a b :
  tc R a b -> R a b \/ exists p, tc R a p /\ R p b.
Proof.
  induction 1 as [a b H|a m b H Hmb IH]; [left; exact H|].
  right. destruct IH as [IH|(p & Hp & Hpb)].
  - exists m. split; [apply tc_once; exact H|exact IH].
  - exists p. split; [eapply tc_l; eassumption|exact Hpb].
Qed.

Section Failure.

Variable connections : list Connection.
Variable provider : Provider.
Variable globalContext : string.
Variable init : list NodeData.
Variable k : nat.
Variables pre post : list NodeData.
Variable node : NodeData.
Variable message : option string.

Notation dispatch := (dispatch connections provider globalContext).
Notation round := (round connections provider globalContext).
Notation atRound := (atRound connections provider globalContext).
Notation mid := (fold_left dispatch pre (atRound k init)).
Notation failed := (spread (spread node markRunning) (failWith message)).

Hypothesis Hnd : List.NoDup (List.map id init).
Hypothesis Hrun :
  nodesToRun connections (currentNodes (atRound k init)) = pre ++ node :: post.
Hypothesis Hfail : failsWith connections provider globalContext mid node message.

Lemma failing_selected : In node (nodesToRun connections (currentNodes (atRound k init))).
Proof. rewrite Hrun. apply in_or_app. right. left. reflexivity. Qed.

Lemma failing_in : In node (currentNodes (atRound k init)).
Proof. pose proof failing_selected as H. apply nodesToRun_In in H. tauto. Qed.

Lemma failing_idle : status node = IDLE.
Proof.
  pose proof failing_selected as H. apply nodesToRun_In in H as [_ H].
  eapply isReady_idle, H.
Qed.

Lemma failing_ids_apart :
  ~ In (id node) (List.map id pre) /\ ~ In (id node) (List.map id post).
Proof.
  apply NoDup_map_split. rewrite <- Hrun. apply NoDup_map_filter.
  rewrite atRound_ids. exact Hnd.
Qed.

Lemma failing_before : findNode (currentNodes mid) (id node) = Some node.
Proof.
  eapply findNode_settled; [apply fold_dispatch_settled| |apply failing_ids_apart].
  apply findNode_NoDup; [rewrite atRound_ids; exact Hnd|apply failing_in].
Qed.

Lemma failing_settle :
  settle connections provider globalContext
    (updateLocalAndState (id node) markRunning (currentNodes mid)) (calls mid) node
  = failWith message.
Proof.
  destruct Hfail as [Hty Hgen]. unfold settle.
  rewrite (bool_decide_eq_false_2 _ Hty), Hgen. reflexivity.
Qed.

(** The write of the failure: the failed node and nothing else. *)
Lemma failing_write :
  currentNodes (dispatch mid node)
  = List.map (fun n => if String.eqb (id n) (id node)
                       then spread (spread n markRunning) (failWith message)
                       else n)
      (currentNodes mid).
Proof. rewrite dispatch_nodes, failing_settle. reflexivity. Qed.

Lemma failing_after : findNode (currentNodes (dispatch mid node)) (id node) = Some failed.
Proof.
  rewrite failing_write, <- updateLocalAndState_twice.
  apply findNode_update, findNode_update, failing_before.
Qed.

Lemma failing_round_end :
  findNode (currentNodes (atRound (S k) init)) (id node) = Some failed.
Proof.
  rewrite atRound_S, round_unfold, Hrun, fold_left_app. simpl.
  exact (findNode_settled _ _ _ failed
           (fold_dispatch_settled connections provider globalContext post _)
           failing_after (proj2 failing_ids_apart)).
Qed.

Lemma failing_forever j :
  k < j -> findNode (currentNodes (atRound j init)) (id node) = Some failed.
Proof.
  intros Hj. eapply atRound_keeps_settled; [exact Hnd|apply failing_round_end|discriminate|lia].
Qed.

(** The other nodes of the round are dispatched and settle all the same. *)
Lemma failing_round_others m :
  In m (pre ++ post) ->
  exists m', findNode (currentNodes (atRound (S k) init)) (id m) = Some m'
             /\ (status m' = COMPLETED \/ status m' = ERROR).
Proof.
  intros Hm.
  assert (Hsel : In m (nodesToRun connections (currentNodes (atRound k init)))).
  { rewrite Hrun. apply in_app_or in Hm. apply in_or_app. simpl. tauto. }
  assert (Hin : In m (currentNodes (atRound k init))) by (apply nodesToRun_In in Hsel; tauto).
  pose proof (findNode_Forall2 _ _ _ (id m) (settled_id _)
                (round_settled connections provider globalContext (atRound k init))) as H.
  rewrite (findNode_NoDup _ m) in H; [|rewrite atRound_ids; exact Hnd|exact Hin].
  destruct H as (m' & Hm' & (_ & Ht & _)). exists m'. split; [exact Hm'|].
  apply Ht, in_map, Hsel.
Qed.

(** A node fed by the failed node is not selected in any later round. *)
Lemma failing_blocks_successors j d :
  k < j -> In d (currentNodes (atRound j init)) ->
  edge connections (id node) (id d) ->
  ~ In d (nodesToRun connections (currentNodes (atRound j init))).
Proof.
  intros Hj Hd (e & He & Hsrc & Htgt) Hsel.
  apply nodesToRun_In in Hsel as [_ Hready]. apply isReady_spec in Hready as [Hidle Hready].
  destruct Hready as [Hb|[_ Hall]].
  - destruct j as [|j]; [lia|]. rewrite atRound_S in Hd.
    exact (round_no_idle_brainstorm connections provider globalContext _ d Hd Hb Hidle).
  - destruct (Hall e) as (s & Hs & Hc); [apply incoming_In; auto|].
    rewrite Hsrc, (failing_forever j Hj) in Hs. injection Hs as <-. discriminate Hc.
Qed.

(** The failed node is never Completed from the failing round on. *)
Lemma failing_never_completed j s :
  k <= j -> findNode (currentNodes (atRound j init)) (id node) = Some s ->
  status s <> COMPLETED.
Proof.
  intros Hj Hs. destruct (Nat.eq_dec j k) as [->|Hne].
  - rewrite (findNode_NoDup _ node) in Hs;
      [|rewrite atRound_ids; exact Hnd|apply failing_in].
    injection Hs as <-. rewrite failing_idle. discriminate.
  - rewrite failing_forever in Hs by lia. injection Hs as <-. discriminate.
Qed.

(** Descendants that are Idle and need input when the failing round
    starts are never selected and keep the record they have. *)
Lemma failing_blocks_descendants :
  (forall d, In d (currentNodes (atRound k init)) ->
             reaches connections (id node) (id d) ->
             status d = IDLE /\ ~ needsNoInput (type d)) ->
  forall j d, k <= j -> In d (currentNodes (atRound k init)) ->
    reaches connections (id node) (id d) ->
    findNode (currentNodes (atRound j init)) (id d) = Some d
    /\ ~ In d (nodesToRun connections (currentNodes (atRound j init))).
Proof.
  intros Hdesc j d Hj Hd Hreach.
  assert (Hfed : forall i, reaches connections (id node) i ->
             exists p, edge connections p i
               /\ (reaches connections (id node) p
                   \/ forall j s, k <= j ->
                        findNode (currentNodes (atRound j init)) p = Some s ->
                        status s <> COMPLETED)).
  { intros i Hi. destruct (tc_last _ _ _ Hi) as [He|(p & Hp & He)].
    - exists (id node). split; [exact He|right]. intros j' s. apply failing_never_completed.
    - exists p. split; [exact He|left; exact Hp]. }
  destruct (blocked_ids_stay connections provider globalContext
              (reaches connections (id node)) init k Hfed Hdesc j Hj) as [HF Hsel].
  assert (Hf : findNode (currentNodes (atRound j init)) (id d) = Some d).
  { eapply findNode_kept; [exact HF| |exact Hreach].
    apply findNode_NoDup; [rewrite atRound_ids; exact Hnd|exact Hd]. }
  split; [exact Hf|]. apply Hsel; [apply findNode_Some in Hf; tauto|exact Hreach].
Qed.

(** The run goes on to quiescence, with the failed node still in Error. *)
Lemma failing_run_ends :
  exists kq,
    k < kq /\ kq <= length init
    /\ nodesToRun connections (currentNodes (atRound kq init)) = []
    /\ (forall fuel, length init < fuel ->
          processWorkflowQueue connections provider globalContext fuel init
          = Some (atRound kq init))
    /\ findNode (currentNodes (atRound kq init)) (id node) = Some failed.
Proof.
  destruct (quiescence connections provider globalContext init) as (kq & Hk & Hq & _ & Hloop).
  assert (Hlt : k < kq).
  { destruct (le_lt_dec kq k) as [Hle|Hlt]; [|exact Hlt]. exfalso.
    rewrite (atRound_quiescent connections provider globalContext kq init k Hq Hle) in Hrun.
    rewrite Hq in Hrun. destruct pre; discriminate. }
  exists kq. split; [exact Hlt|]. split; [exact Hk|]. split; [exact Hq|].
  split; [exact Hloop|]. apply failing_forever. exact Hlt.
Qed.

End Failure.

(** C5 (as amended).  With unique node ids, let the call made for a node
    dispatched in round [k] throw.  Then:
    - the node becomes Error, its errorMessage is the message of the
      exception (or "Unknown error" when the exception has no message or
      an empty one), and its content is what it was;
    - that write changes the failed node and no other;
    - the failed node keeps that state at every later round boundary;
    - every other node selected in the round is dispatched and ends the
      round Completed or Error, a node not selected is left as it was,
      and the run goes on to quiescence;
    - a node fed by an edge from the failed node is selected in no later
      round;
    - descendants that are Idle and of kinds that need input when the
      failing round starts are selected in no round from then on and keep
      the record they have, so none of them becomes Error. *)
Theorem provider_failure_stays_local :
  forall (connections : list Connection) (provider : Provider) (globalContext : string)
         (init : list NodeData) (k : nat) (pre post : list NodeData) (node : NodeData)
         (message : option string),
    List.NoDup (List.map id init) ->
    nodesToRun connections (currentNodes (atRound connections provider globalContext k init))
    = pre ++ node :: post ->
    failsWith connections provider globalContext
      (fold_left (dispatch connections provider globalContext) pre
         (atRound connections provider globalContext k init)) node message ->
    let st := atRound connections provider globalContext in
    let mid := fold_left (dispatch connections provider globalContext) pre (st k init) in
    let failed := spread (spread node markRunning) (failWith message) in
    (status failed = ERROR
     /\ errorMessage failed = Some (orElse message "Unknown error")
     /\ (forall m, message = Some m -> m <> "" -> errorMessage failed = Some m)
     /\ content failed = content node
     /\ sameStatic node failed)
    /\ currentNodes (dispatch connections provider globalContext mid node)
       = List.map (fun n => if String.eqb (id n) (id node)
                            then spread (spread n markRunning) (failWith message)
                            else n)
           (currentNodes mid)
    /\ findNode (currentNodes mid) (id node) = Some node
    /\ (forall j, k < j -> findNode (currentNodes (st j init)) (id node) = Some failed)
    /\ (forall m, In m (pre ++ post) ->
          exists m', findNode (currentNodes (st (S k) init)) (id m) = Some m'
                     /\ (status m' = COMPLETED \/ status m' = ERROR))
    /\ (forall n, In n (currentNodes (st k init)) ->
          ~ In n (nodesToRun connections (currentNodes (st k init))) ->
          findNode (currentNodes (st (S k) init)) (id n) = Some n)
    /\ (exists kq,
          k < kq /\ kq <= length init
          /\ nodesToRun connections (currentNodes (st kq init)) = []
          /\ (forall fuel, length init < fuel ->
                processWorkflowQueue connections provider globalContext fuel init
                = Some (st kq init))
          /\ findNode (currentNodes (st kq init)) (id node) = Some failed)
    /\ (forall j d, k < j -> In d (currentNodes (st j init)) ->
          edge connections (id node) (id d) ->
          ~ In d (nodesToRun connections (currentNodes (st j init))))
    /\ ((forall d, In d (currentNodes (st k init)) ->
                   reaches connections (id node) (id d) ->
                   status d = IDLE /\ ~ needsNoInput (type d)) ->
        forall j d, k <= j -> In d (currentNodes (st k init)) ->
          reaches connections (id node) (id d) ->
          findNode (currentNodes (st j init)) (id d) = Some d
          /\ ~ In d (nodesToRun connections (currentNodes (st j init)))).
Proof.
  intros connections provider globalContext init k pre post node message Hnd Hrun Hfail
         st mid failed.
  split.
  { split; [reflexivity|]. split; [reflexivity|]. split; [|split; [reflexivity|]].
    - intros m -> Hm. simpl. destruct m; [contradiction|reflexivity].
    - eapply sameStatic_trans; apply sameStatic_spread. }
  split; [eapply failing_write; eassumption|].
  split; [eapply failing_before; eassumption|].
  split; [intros j; eapply failing_forever; eassumption|].
  split; [intros m; eapply failing_round_others; eassumption|].
  split.
  { intros n Hn Hsel. unfold st. rewrite atRound_S.
    apply round_unselected; [rewrite atRound_ids; exact Hnd|exact Hn|exact Hsel]. }
  split; [eapply failing_run_ends; eassumption|].
  split; [intros j d; eapply failing_blocks_successors; eassumption|].
  eapply failing_blocks_descendants; eassumption.
Qed.

(** C5, at a concrete input: in I → A → P the only call of the run, the
    one for A, throws "boom". *)
Lemma provider_failure_stays_local_witness :
  findNode (currentNodes (atRound pipelineEdges failFirst "" 1 pipelineNodes)) "A"
  = Some (exampleNode "A" AI_GENERATOR ERROR "" None (Some "boom"))
  /\ findNode (currentNodes (atRound pipelineEdges failFirst "" 1 pipelineNodes)) "P"
     = Some (exampleNode "P" OUTPUT_PREVIEW IDLE "" None None).
Proof.
  assert (Hnd : List.NoDup (List.map id pipelineNodes))
    by (repeat constructor; simpl; intuition discriminate).
  assert (Hrun : nodesToRun pipelineEdges
                   (currentNodes (atRound pipelineEdges failFirst "" 0 pipelineNodes))
                 = [] ++ exampleNode "A" AI_GENERATOR IDLE "" None None :: [])
    by (vm_compute; reflexivity).
  assert (Hfail : failsWith pipelineEdges failFirst ""
                    (fold_left (dispatch pipelineEdges failFirst "") []
                       (atRound pipelineEdges failFirst "" 0 pipelineNodes))
                    (exampleNode "A" AI_GENERATOR IDLE "" None None) (Some "boom"))
    by (split; [discriminate|vm_compute; reflexivity]).
  destruct (provider_failure_stays_local pipelineEdges failFirst "" pipelineNodes 0 [] []
              (exampleNode "A" AI_GENERATOR IDLE "" None None) (Some "boom") Hnd Hrun Hfail)
    as (_ & _ & _ & Hlater & _ & Hrest & _).
  split.
  - exact (Hlater 1 ltac:(repeat constructor)).
  - apply (Hrest (exampleNode "P" OUTPUT_PREVIEW IDLE "" None None)).
    + vm_compute. auto.
    + rewrite Hrun. simpl. intuition discriminate.
Defined.

(** C5, counterexample.  In I → A → B → E with I → G → E and B a
    Brainstorm node, the call for A (the first of the run) throws in the
    first round; B and G complete in that round, and the second round
    selects E, a descendant of the failed node.  The same happens on a
    mixed store with Generators only: in I → A → D → E with I → F → E,
    where I and D are Completed from an earlier run, A fails in the first
    round and the second round selects E. *)
Lemma descendant_selected_after_failure :
  (nodesToRun staleDetourEdges
     (currentNodes (atRound staleDetourEdges failFirst "" 0 staleDetourNodes))
   = [ exampleNode "A" AI_GENERATOR IDLE "" None None;
       exampleNode "F" AI_GENERATOR IDLE "" None None ]
   /\ findNode (currentNodes (atRound staleDetourEdges failFirst "" 1 staleDetourNodes)) "A"
      = Some (exampleNode "A" AI_GENERATOR ERROR "" None (Some "boom"))
   /\ nodesToRun staleDetourEdges
        (currentNodes (atRound staleDetourEdges failFirst "" 1 staleDetourNodes))
      = [ exampleNode "E" AI_OPTIMIZER IDLE "" None None ])
  /\
  (nodesToRun detourEdges (currentNodes (atRound detourEdges failFirst "" 0 detourNodes))
   = [] ++ exampleNode "A" AI_GENERATOR IDLE "" None None
        :: [ exampleNode "B" AI_BRAINSTORM IDLE "" None None;
             exampleNode "G" AI_GENERATOR IDLE "" None None ]
   /\ findNode (currentNodes (atRound detourEdges failFirst "" 1 detourNodes)) "A"
      = Some (exampleNode "A" AI_GENERATOR ERROR "" None (Some "boom"))
   /\ reaches detourEdges "A" "E"
   /\ nodesToRun detourEdges (currentNodes (atRound detourEdges failFirst "" 1 detourNodes))
      = [ exampleNode "E" AI_OPTIMIZER IDLE "" None None ])
  /\ ~ descendants_never_selected.
Proof.
  assert (Hrun : nodesToRun detourEdges
                   (currentNodes (atRound detourEdges failFirst "" 0 detourNodes))
                 = [] ++ exampleNode "A" AI_GENERATOR IDLE "" None None
                      :: [ exampleNode "B" AI_BRAINSTORM IDLE "" None None;
                           exampleNode "G" AI_GENERATOR IDLE "" None None ])
    by (vm_compute; reflexivity).
  assert (Hnext : nodesToRun detourEdges
                    (currentNodes (atRound detourEdges failFirst "" 1 detourNodes))
                  = [ exampleNode "E" AI_OPTIMIZER IDLE "" None None ])
    by (vm_compute; reflexivity).
  assert (Hreach : reaches detourEdges "A" "E").
  { eapply tc_l; [|apply tc_once].
    - exists (exampleEdge "A" "B"). simpl. auto.
    - exists (exampleEdge "B" "E"). simpl. auto. }
  split; [repeat split; vm_compute; reflexivity|].
  split; [split; [exact Hrun|split; [vm_compute; reflexivity|split; [exact Hreach|exact Hnext]]]|].
  intros Hclaim.
  assert (Hnd : List.NoDup (List.map id detourNodes))
    by (repeat constructor; simpl; intuition discriminate).
  assert (Hfail : failsWith detourEdges failFirst ""
                    (fold_left (dispatch detourEdges failFirst "") []
                       (atRound detourEdges failFirst "" 0 detourNodes))
                    (exampleNode "A" AI_GENERATOR IDLE "" None None) (Some "boom"))
    by (split; [discriminate|vm_compute; reflexivity]).
  apply (Hclaim detourEdges failFirst "" detourNodes 0 [] _ _ (Some "boom") Hnd Hrun Hfail
           1 (exampleNode "E" AI_OPTIMIZER IDLE "" None None)).
  - repeat constructor.
  - vm_compute. auto 10.
  - exact Hreach.
  - rewrite Hnext. left. reflexivity.
Qed.

(** ** The errorMessage invariant *)

Lemma Forall2_conj {A B} (R S : A -> B -> Prop) l l' :
  Forall2 R l l' -> Forall2 S l l' -> Forall2 (fun a b => R a b /\ S a b) l l'.
Proof.
  induction 1 as [|a b l l' Hab _ IH]; intros HS; inversion HS; subst; constructor; auto.
Qed.

Lemma resolveStep_errorMessage nodes node :
  Forall2 (fun n n' => errorMessage n' = errorMessage n) nodes (resolveStep nodes node).
Proof.
  unfold resolveStep, updateLocalAndState. apply Forall2_map_self. intros n _.
  destruct (String.eqb (id n) (id node)); reflexivity.
Qed.

Lemma fold_resolveStep_errorMessage run nodes :
  Forall2 (fun n n' => errorMessage n' = errorMessage n) nodes (fold_left resolveStep run nodes).
Proof.
  revert nodes. induction run as [|m run IH]; intros nodes; simpl.
  - rewrite <- (map_id nodes) at 2. apply Forall2_map_self. reflexivity.
  - eapply Forall2_compose; [|apply resolveStep_errorMessage|apply IH].
    intros a b c Hab Hbc. congruence.
Qed.

(** Step 1, and every prefix of it, keeps the invariant when ids are
    unique: it only writes nodes that were Idle, which carry no message. *)
Lemma fold_resolveStep_errorOnly init pre post :
  List.NoDup (List.map id init) -> Forall errorOnlyIfError init ->
  List.filter isInstant init = pre ++ post ->
  Forall errorOnlyIfError (fold_left resolveStep pre init).
Proof.
  intros Hnd Hinv Hrun. apply List.Forall_forall. intros n' Hn'.
  pose proof (Forall2_conj _ _ _ _ (Forall2_with_In _ _ _ (fold_resolveStep_settled pre init))
                (fold_resolveStep_errorMessage pre init)) as HF.
  destruct (Forall2_in_r _ _ _ _ HF Hn') as (n & _ & (Hn & (_ & Ht & Hu)) & Hmsg).
  pose proof (proj1 (List.Forall_forall _ _) Hinv n Hn) as Hn_inv.
  intros Hset. rewrite Hmsg in Hset. specialize (Hn_inv Hset).
  rewrite Hu; [exact Hn_inv|]. intros Hid.
  apply in_map_iff in Hid as (m & Hm & Hpre).
  assert (Hm_in : In m (List.filter isInstant init)) by (rewrite Hrun; apply in_or_app; auto).
  apply filter_In in Hm_in as [Hm_in Hinst]. apply isInstant_spec in Hinst as [_ Hidle].
  assert (m = n) by (eapply NoDup_id_inj; eauto). subst. congruence.
Qed.

Lemma spread_markRunning_errorOnly n : errorOnlyIfError (spread n markRunning).
Proof. intros H. contradiction H. reflexivity. Qed.

Section ErrorInvariant.

Variable connections : list Connection.
Variable provider : Provider.
Variable globalContext : string.

Notation dispatch := (dispatch connections provider globalContext).
Notation round := (round connections provider globalContext).
Notation atRound := (atRound connections provider globalContext).

Lemma markRunning_errorOnly nodes i :
  Forall errorOnlyIfError nodes ->
  Forall errorOnlyIfError (updateLocalAndState i markRunning nodes).
Proof.
  intros H. unfold updateLocalAndState. apply List.Forall_map.
  eapply List.Forall_impl; [|exact H]. intros n Hn.
  destruct (String.eqb (id n) i); [apply spread_markRunning_errorOnly|exact Hn].
Qed.

(** A dispatch keeps the invariant: Running and Completed come with no
    message, Error with one. *)
Lemma dispatch_errorOnly st node :
  Forall errorOnlyIfError (currentNodes st) ->
  Forall errorOnlyIfError (currentNodes (dispatch st node)).
Proof.
  intros H. rewrite dispatch_nodes. apply List.Forall_map.
  eapply List.Forall_impl; [|exact H]. intros n Hn.
  destruct (String.eqb (id n) (id node)); [|exact Hn].
  unfold settle. destruct (bool_decide (type node = OUTPUT_PREVIEW)).
  - intros Hset. contradiction Hset. reflexivity.
  - destruct (generateText _ _ _ _ _ _); intros Hset; [contradiction Hset|]; reflexivity.
Qed.

Lemma fold_dispatch_errorOnly run st :
  Forall errorOnlyIfError (currentNodes st) ->
  Forall errorOnlyIfError (currentNodes (fold_left dispatch run st)).
Proof.
  revert st. induction run as [|m run IH]; intros st H; simpl; [exact H|].
  apply IH, dispatch_errorOnly, H.
Qed.

Lemma atRound_errorOnly init k :
  List.NoDup (List.map id init) -> Forall errorOnlyIfError init ->
  Forall errorOnlyIfError (currentNodes (atRound k init)).
Proof.
  intros Hnd Hinv. induction k as [|k IH].
  - simpl. unfold resolveInstant.
    apply (fold_resolveStep_errorOnly init _ [] Hnd Hinv). rewrite app_nil_r. reflexivity.
  - rewrite atRound_S, round_unfold. apply fold_dispatch_errorOnly, IH.
Qed.

Lemma Published_errorOnly init s :
  List.NoDup (List.map id init) -> Forall errorOnlyIfError init ->
  Published connections provider globalContext init s ->
  Forall errorOnlyIfError s.
Proof.
  intros Hnd Hinv [pre post Hrun|k pre node post Hrun|k pre post Hrun].
  - eapply fold_resolveStep_errorOnly; eassumption.
  - apply markRunning_errorOnly, fold_dispatch_errorOnly, atRound_errorOnly; assumption.
  - apply fold_dispatch_errorOnly, atRound_errorOnly; assumption.
Qed.

Lemma Published_ids init s :
  Published connections provider globalContext init s ->
  List.map id s = List.map id init.
Proof.
  intros [pre post Hrun|k pre node post Hrun|k pre post Hrun].
  - eapply Forall2_ids; [apply settled_id|apply fold_resolveStep_settled].
  - unfold updateLocalAndState. rewrite map_map.
    erewrite map_ext; [rewrite fold_dispatch_ids; apply atRound_ids|].
    intros n. destruct (String.eqb (id n) (id node)); reflexivity.
  - rewrite fold_dispatch_ids. apply atRound_ids.
Qed.

End ErrorInvariant.

Lemma resetNodes_spec s :
  List.map id (resetNodes s) = List.map id s
  /\ Forall (fun n => status n = IDLE /\ errorMessage n = None) (resetNodes s)
  /\ Forall2 (fun n n' => content n' = content n /\ sameStatic n n') s (resetNodes s).
Proof.
  unfold resetNodes. split; [rewrite map_map; reflexivity|]. split.
  - apply List.Forall_map, List.Forall_forall. intros n _. split; reflexivity.
  - apply Forall2_map_self. intros n _. split; [reflexivity|apply sameStatic_spread].
Qed.

Lemma resetIn_spec D s :
  List.map id (resetIn D s) = List.map id s
  /\ Forall2 (fun n n' =>
       n' = n
       \/ (status n' = IDLE /\ errorMessage n' = None
           /\ content n' = content n /\ sameStatic n n'))
     s (resetIn D s).
Proof.
  unfold resetIn. split.
  - rewrite map_map. apply map_ext. intros n. destruct (decide (id n ∈ D)); reflexivity.
  - apply Forall2_map_self. intros n _. destruct (decide (id n ∈ D)); [right|left; reflexivity].
    repeat split.
Qed.

Lemma handleRetryNode_started connections s nodeId updated :
  handleRetryNode false connections s nodeId = Some (RetryStarted updated) ->
  exists D, updated = resetIn D s.
Proof.
  unfold handleRetryNode. destruct (getDescendantNodeIds connections nodeId) as [D|]; simpl;
    [|discriminate].
  intros [= <-]. eauto.
Qed.

Lemma reset_errorOnly s s' :
  Forall errorOnlyIfError s ->
  Forall2 (fun n n' => n' = n \/ (status n' = IDLE /\ errorMessage n' = None
                                  /\ content n' = content n /\ sameStatic n n')) s s' ->
  Forall errorOnlyIfError s'.
Proof.
  intros Hinv HF. apply List.Forall_forall. intros n' Hn'.
  destruct (Forall2_in_r _ _ _ _ HF Hn') as (n & Hn & [->|(_ & Hmsg & _)]).
  - exact (proj1 (List.Forall_forall _ _) Hinv n Hn).
  - intros Hset. congruence.
Qed.

Lemma Reachable_invariant s0 s :
  List.NoDup (List.map id s0) -> Forall errorOnlyIfError s0 ->
  Reachable s0 s ->
  List.map id s = List.map id s0 /\ Forall errorOnlyIfError s.
Proof.
  intros Hnd Hinv. induction 1 as [|connections provider globalContext s s' _ [Hids IH] Hpub
                                   |connections provider globalContext s nodeId updated s'
                                      _ [Hids IH] Hretry Hpub].
  - split; [reflexivity|exact Hinv].
  - destruct (resetNodes_spec s) as (Hrid & Hreset & _).
    split.
    + rewrite (Published_ids _ _ _ _ _ Hpub), Hrid. exact Hids.
    + eapply Published_errorOnly; [| |exact Hpub].
      * rewrite Hrid, Hids. exact Hnd.
      * eapply List.Forall_impl; [|exact Hreset]. intros n [_ Hmsg] Hset. congruence.
  - destruct (handleRetryNode_started _ _ _ _ Hretry) as [D ->].
    destruct (resetIn_spec D s) as (Hrid & Hreset).
    split.
    + rewrite (Published_ids _ _ _ _ _ Hpub), Hrid. exact Hids.
    + eapply Published_errorOnly; [| |exact Hpub].
      * rewrite Hrid, Hids. exact Hnd.
      * eapply reset_errorOnly; eassumption.
Qed.

(** C2 (as amended).  Take nodes with unique ids.  A full run puts the
    rule in place whatever the store held: in every list of nodes
    published from the reset of [executeWorkflow] on, errorMessage is set
    only for nodes in Error.  And from a store on which errorMessage is
    set only for nodes in Error, the same holds in every list of nodes the
    engine publishes, through any sequence of full runs and retries over
    any edges and any service.  A full reset leaves every node Idle with
    no errorMessage, and a retry leaves each node either untouched or Idle
    with no errorMessage; both leave the content of every node as it was. *)
Theorem error_message_only_on_error :
  forall (s0 : list NodeData),
    List.NoDup (List.map id s0) ->
    (forall connections provider globalContext s',
        Published connections provider globalContext (resetNodes s0) s' ->
        Forall errorOnlyIfError s')
    /\ (Forall errorOnlyIfError s0 ->
        forall s, Reachable s0 s ->
          Forall errorOnlyIfError s
          /\ List.map id s = List.map id s0
          /\ Forall (fun n => status n = IDLE /\ errorMessage n = None) (resetNodes s)
          /\ Forall2 (fun n n' => content n' = content n /\ sameStatic n n') s (resetNodes s)
          /\ forall connections nodeId updated,
               handleRetryNode false connections s nodeId = Some (RetryStarted updated) ->
               Forall2 (fun n n' =>
                          n' = n
                          \/ (status n' = IDLE /\ errorMessage n' = None
                              /\ content n' = content n /\ sameStatic n n'))
                       s updated).
Proof.
  intros s0 Hnd. split.
  - intros connections provider globalContext s' Hpub.
    destruct (resetNodes_spec s0) as (Hrid & Hreset & _).
    eapply Published_errorOnly; [rewrite Hrid; exact Hnd| |exact Hpub].
    eapply List.Forall_impl; [|exact Hreset]. intros n [_ Hnone] Hsome. contradiction.
  - intros Hinv s Hreach.
    destruct (Reachable_invariant s0 s Hnd Hinv Hreach) as [Hids Hs].
    destruct (resetNodes_spec s) as (_ & Hreset & Hcontent).
    split; [exact Hs|]. split; [exact Hids|]. split; [exact Hreset|]. split; [exact Hcontent|].
    intros connections nodeId updated Hretry.
    destruct (handleRetryNode_started _ _ _ _ Hretry) as [D ->]. apply resetIn_spec.
Qed.

Lemma loneSource_completed :
  Reachable loneSource [ exampleNode "I" INPUT COMPLETED "Topic X" (Some "Topic X") None ].
Proof.
  eapply (reach_full_run loneSource [] alwaysText "" loneSource); [apply reach_init|].
  exact (pub_instant [] alwaysText "" (resetNodes loneSource)
           [exampleNode "I" INPUT IDLE "" (Some "Topic X") None] [] eq_refl).
Qed.

Lemma loneSource_reset :
  Reachable loneSource [ exampleNode "I" INPUT IDLE "Topic X" (Some "Topic X") None ].
Proof.
  eapply (reach_full_run loneSource [] alwaysText ""); [apply loneSource_completed|].
  exact (pub_instant [] alwaysText ""
           (resetNodes [exampleNode "I" INPUT COMPLETED "Topic X" (Some "Topic X") None])
           [] [exampleNode "I" INPUT IDLE "Topic X" (Some "Topic X") None] eq_refl).
Qed.

(** I → A → P after a full run in which the call for A threw. *)
Lemma pipeline_failed_reachable :
  Reachable pipelineNodes
    [ exampleNode "I" INPUT COMPLETED "Topic X" (Some "Topic X") None;
      exampleNode "A" AI_GENERATOR ERROR "" None (Some "boom");
      exampleNode "P" OUTPUT_PREVIEW IDLE "" None None ].
Proof.
  eapply (reach_full_run pipelineNodes pipelineEdges failFirst "" pipelineNodes);
    [apply reach_init|].
  exact (pub_settled pipelineEdges failFirst "" (resetNodes pipelineNodes) 1 [] [] eq_refl).
Qed.

(** The same store once A is retried and marked Running. *)
Lemma pipeline_retry_reachable :
  Reachable pipelineNodes
    [ exampleNode "I" INPUT COMPLETED "Topic X" (Some "Topic X") None;
      exampleNode "A" AI_GENERATOR RUNNING "" None None;
      exampleNode "P" OUTPUT_PREVIEW IDLE "" None None ].
Proof.
  eapply (reach_retry pipelineNodes pipelineEdges alwaysText "" _ "A"
            [ exampleNode "I" INPUT COMPLETED "Topic X" (Some "Topic X") None;
              exampleNode "A" AI_GENERATOR IDLE "" None None;
              exampleNode "P" OUTPUT_PREVIEW IDLE "" None None ]);
    [apply pipeline_failed_reachable|vm_compute; reflexivity|].
  exact (pub_running pipelineEdges alwaysText ""
           [ exampleNode "I" INPUT COMPLETED "Topic X" (Some "Topic X") None;
             exampleNode "A" AI_GENERATOR IDLE "" None None;
             exampleNode "P" OUTPUT_PREVIEW IDLE "" None None ]
           0 [] (exampleNode "A" AI_GENERATOR IDLE "" None None) [] eq_refl).
Qed.

(** C2, at a concrete input: in I → A → P the call for A throws, which
    leaves A in Error with the message; A is then retried, and the store
    published while A is Running carries no message. *)
Lemma error_message_only_on_error_witness :
  Forall errorOnlyIfError
    [ exampleNode "I" INPUT COMPLETED "Topic X" (Some "Topic X") None;
      exampleNode "A" AI_GENERATOR ERROR "" None (Some "boom");
      exampleNode "P" OUTPUT_PREVIEW IDLE "" None None ]
  /\ Forall errorOnlyIfError
       [ exampleNode "I" INPUT COMPLETED "Topic X" (Some "Topic X") None;
         exampleNode "A" AI_GENERATOR RUNNING "" None None;
         exampleNode "P" OUTPUT_PREVIEW IDLE "" None None ].
Proof.
  assert (Hnd : List.NoDup (List.map id pipelineNodes))
    by (repeat constructor; simpl; intuition discriminate).
  assert (Hinv : Forall errorOnlyIfError pipelineNodes)
    by (repeat constructor; intros H; contradiction H; reflexivity).
  split.
  - exact (proj1 (proj2 (error_message_only_on_error pipelineNodes Hnd) Hinv _
                    pipeline_failed_reachable)).
  - exact (proj1 (proj2 (error_message_only_on_error pipelineNodes Hnd) Hinv _
                    pipeline_retry_reachable)).
Defined.

(** C2, counterexample.  Run a lone Source-Text node: it completes with
    its prompt as content.  Press Run again: the reset that opens the
    second run publishes the node Idle and still holding that content.
    The rule on errorMessage needs its starting point as well: in
    I → A → P with A in Error, [duplicateNode] on A appends an Idle copy
    that carries A's message, and a retry on I, which reruns I, A and P,
    returns with the copy still Idle and still carrying it. *)
Lemma reset_leaves_content_on_idle_node :
  (Reachable loneSource [ exampleNode "I" INPUT IDLE "Topic X" (Some "Topic X") None ]
   /\ resetNodes [ exampleNode "I" INPUT COMPLETED "Topic X" (Some "Topic X") None ]
      = [ exampleNode "I" INPUT IDLE "Topic X" (Some "Topic X") None ]
   /\ exists updated final,
        handleRetryNode false pipelineEdges
          (duplicateNode "5" "A"
             [ exampleNode "I" INPUT COMPLETED "Topic X" (Some "Topic X") None;
               exampleNode "A" AI_GENERATOR ERROR "" None (Some "boom");
               exampleNode "P" OUTPUT_PREVIEW IDLE "" None None ]) "I"
        = Some (RetryStarted updated)
        /\ processWorkflowQueue pipelineEdges alwaysText "" 5 updated = Some final
        /\ List.map (fun n => (id n, status n, errorMessage n)) (currentNodes final)
           = [ ("I", COMPLETED, None); ("A", COMPLETED, None); ("P", COMPLETED, None);
               ("node-5", IDLE, Some "boom") ])
  /\ ~ content_only_when_completed.
Proof.
  split; [split; [apply loneSource_reset|split; [reflexivity|]]|].
  - eexists _, _. split; [vm_compute; reflexivity|]. split; vm_compute; reflexivity.
  - intros Hclaim.
    assert (Hnd : List.NoDup (List.map id loneSource)) by (repeat constructor; simpl; intuition).
    assert (He : Forall errorOnlyIfError loneSource)
      by (repeat constructor; intros H; contradiction H; reflexivity).
    assert (Hc : Forall contentOnlyIfCompleted loneSource)
      by (repeat constructor; intros H; contradiction H; reflexivity).
    pose proof (Hclaim loneSource _ Hnd He Hc loneSource_reset) as H.
    inversion H as [|? ? Hhead _]; subst.
    assert (Hs : status (exampleNode "I" INPUT IDLE "Topic X" (Some "Topic X") None) = COMPLETED)
      by (apply Hhead; discriminate).
    discriminate Hs.
Qed.

(** * Further properties of the engine *)

(** ** The cascade *)

(** X1.  The set [getDescendantNodeIds] returns is closed downstream:
    every edge that leaves the start node or a member of the set ends in
    the set, so a retry never resets a node and leaves one it feeds
    untouched.  The start node is in the set exactly when it lies on a
    cycle, and the set is empty when no edge leaves the start node. *)
Theorem cascade_is_closed_downstream :
  forall (connections : list Connection) (startNodeId : string),
  exists D,
    getDescendantNodeIds connections startNodeId = Some D
    /\ (forall v w, v = startNodeId \/ v ∈ D -> edge connections v w -> w ∈ D)
    /\ (startNodeId ∈ D <-> reaches connections startNodeId startNodeId)
    /\ (outgoing connections startNodeId = [] <-> D = ∅).
Proof.
  intros connections startNodeId.
  destruct (getDescendantNodeIds_spec connections startNodeId) as (D & HD & Hreach).
  exists D. split; [exact HD|]. split; [|split; [apply Hreach|]].
  - intros v w Hv He. apply Hreach. destruct Hv as [->|Hv].
    + apply tc_once, He.
    + eapply tc_r; [apply Hreach, Hv|exact He].
  - split.
    + intros Hout. apply set_eq. intros v. split; [|set_solver].
      intros Hv. apply Hreach in Hv.
      assert (Hfirst : exists w, edge connections startNodeId w).
      { clear - Hv. unfold reaches in Hv. induction Hv as [a b H|a m b H _ _]; eauto. }
      destruct Hfirst as (w & c & Hc & Hs & _).
      assert (Hin : In c (outgoing connections startNodeId)) by (apply outgoing_In; auto).
      rewrite Hout in Hin. contradiction.
    + intros ->. destruct (outgoing connections startNodeId) as [|c l] eqn:Hout; [reflexivity|].
      exfalso. assert (Hc : In c (outgoing connections startNodeId)) by (rewrite Hout; left; auto).
      apply outgoing_In in Hc as [Hc Hs].
      assert (Hr : targetId c ∈ (∅ : gset string)).
      { apply Hreach, tc_once. exists c. auto. }
      set_solver.
Qed.

(** ** What each kind of node does when dispatched *)

Lemma textOf_markRunning nodes i e :
  textOf (updateLocalAndState i markRunning nodes) e = textOf nodes e.
Proof.
  unfold textOf. rewrite findNode_update_any.
  destruct (findNode nodes (sourceId e)) as [s|]; simpl; [|reflexivity].
  destruct (String.eqb (id s) i); reflexivity.
Qed.

Lemma imagesOf_markRunning nodes i e :
  imagesOf (updateLocalAndState i markRunning nodes) e = imagesOf nodes e.
Proof.
  unfold imagesOf. rewrite findNode_update_any.
  destruct (findNode nodes (sourceId e)) as [s|]; simpl; [|reflexivity].
  destruct (String.eqb (id s) i); reflexivity.
Qed.

Lemma inputsOf_spec connections nodes node :
  inputsOf connections nodes node
  = (flat_map (textOf nodes) (incoming connections (id node)),
     flat_map (imagesOf nodes) (incoming connections (id node))).
Proof. unfold inputsOf. rewrite fold_gather. reflexivity. Qed.

(** X2.  A Preview node that is dispatched makes no call to the service
    and cannot fail: it completes with the contents of its upstream nodes
    that are not image nodes, in the order of its incoming edges, joined by
    a blank line (image nodes contribute nothing).  Fed by a single edge
    from a node that is not an image node, it ends up holding exactly that
    node's content. *)
Theorem preview_passes_upstream_text_through :
  forall (connections : list Connection) (provider : Provider) (globalContext : string)
         (st : Sched) (node : NodeData),
    type node = OUTPUT_PREVIEW ->
    let text :=
      join (nl +:+ nl) (flat_map (textOf (currentNodes st)) (incoming connections (id node))) in
    calls (dispatch connections provider globalContext st node) = calls st
    /\ currentNodes (dispatch connections provider globalContext st node)
       = List.map (fun n => if String.eqb (id n) (id node)
                            then spread (spread n markRunning) (completeWith text)
                            else n)
           (currentNodes st)
    /\ (forall e s, incoming connections (id node) = [e] ->
          findNode (currentNodes st) (sourceId e) = Some s -> type s <> IMAGE_NODE ->
          text = content s).
Proof.
  intros connections provider globalContext st node Hty text.
  split; [unfold dispatch; simpl; rewrite Hty; reflexivity|]. split.
  - rewrite dispatch_nodes. unfold settle. rewrite Hty. simpl.
    rewrite inputsOf_spec. simpl.
    rewrite (flat_map_ext _ _ (textOf_markRunning (currentNodes st) (id node))).
    reflexivity.
  - intros e s Hin Hs Hnot. unfold text. rewrite Hin. simpl. unfold textOf. rewrite Hs.
    rewrite bool_decide_eq_false_2 by assumption. reflexivity.
Qed.

(** X2, at a concrete input: the Preview of I → A → P once A holds
    "draft". *)
Lemma preview_passes_upstream_text_through_witness :
  List.map content
    (currentNodes
       (dispatch pipelineEdges failFirst ""
          {| currentNodes :=
               [ exampleNode "I" INPUT COMPLETED "Topic X" (Some "Topic X") None;
                 exampleNode "A" AI_GENERATOR COMPLETED "draft" None None;
                 exampleNode "P" OUTPUT_PREVIEW IDLE "" None None ];
             calls := 1 |}
          (exampleNode "P" OUTPUT_PREVIEW IDLE "" None None)))
  = [ "Topic X"; "draft"; "draft" ].
Proof.
  destruct (preview_passes_upstream_text_through pipelineEdges failFirst ""
              {| currentNodes :=
                   [ exampleNode "I" INPUT COMPLETED "Topic X" (Some "Topic X") None;
                     exampleNode "A" AI_GENERATOR COMPLETED "draft" None None;
                     exampleNode "P" OUTPUT_PREVIEW IDLE "" None None ];
                 calls := 1 |}
              (exampleNode "P" OUTPUT_PREVIEW IDLE "" None None) eq_refl) as (_ & Hnodes & _).
  rewrite Hnodes. reflexivity.
Defined.

(** X3.  The prompt by kind.  Without a template (none, or an empty
    one) a Coder sends exactly what a Generator would send: the upstream
    texts and the trailing image annotation, with no further instruction.
    With a template it sends a line break, "CONTENT TO INSERT:" and the
    upstream texts, "HTML TEMPLATE:" and the template verbatim,
    "INSTRUCTIONS:" and the fixed instruction, then a line that is empty
    or names the image URLs, then a last line of 28 spaces.  A Brainstorm
    node sends one fixed sentence whatever its edges and whatever its
    upstream nodes hold. *)
Theorem coder_prompt_with_and_without_template :
  forall (connections : list Connection) (nodes : list NodeData) (node : NodeData),
    (type node = AI_CODER -> truthy (customTemplate node) = false ->
       promptOf connections nodes node = payload connections nodes node)
    /\ (forall template, type node = AI_CODER ->
          customTemplate node = Some template -> template <> "" ->
          promptOf connections nodes node
          = nl +:+ "CONTENT TO INSERT:" +:+ nl
            +:+ join (nl +:+ nl) (flat_map (textOf nodes) (incoming connections (id node)))
            +:+ nl +:+ nl
            +:+ "HTML TEMPLATE:" +:+ nl +:+ template +:+ nl +:+ nl
            +:+ "INSTRUCTIONS:" +:+ nl
            +:+ "Insert the content into the HTML template. Do not change the layout structure, only add the text."
            +:+ nl
            +:+ match flat_map (imagesOf nodes) (incoming connections (id node)) with
                | [] => ""
                | images =>
                    "Also, insert these images where appropriate in the HTML: "
                    +:+ join ", " images
                end
            +:+ nl +:+ "                            ")
    /\ (type node = AI_BRAINSTORM ->
          forall connections' nodes',
            promptOf connections nodes node
            = "Generate a list of relevant topics based on the global context provided."
            /\ promptOf connections' nodes' node = promptOf connections nodes node).
Proof.
  intros connections nodes node. split; [|split].
  - intros Hty Htpl. unfold promptOf. rewrite inputsOf_spec. simpl.
    unfold buildPrompt, payload. rewrite Hty, Htpl. simpl.
    destruct (flat_map (imagesOf nodes) (incoming connections (id node))); simpl;
      [symmetry; apply append_nil_r|reflexivity].
  - intros template Hty Htpl Hne. unfold promptOf. rewrite inputsOf_spec. simpl.
    unfold buildPrompt. rewrite Hty, Htpl. simpl.
    destruct template as [|ch template]; [contradiction|]. simpl. unfold coderPrompt.
    destruct (flat_map (imagesOf nodes) (incoming connections (id node))); reflexivity.
  - intros Hty connections' nodes'. unfold promptOf, buildPrompt. rewrite Hty. auto.
Qed.

(** X3, at a concrete input: a Coder with the template "<main></main>"
    fed by a Writer that holds "draft" and by an image node with one
    URL. *)
Lemma coder_prompt_witness :
  promptOf [ exampleEdge "W" "C"; exampleEdge "G" "C" ]
    [ exampleNode "W" AI_GENERATOR COMPLETED "draft" None None;
      {| id := "G"; type := IMAGE_NODE; x := 0; y := 0; title := "G"; content := "u1";
         userPrompt := None; systemInstruction := None; model := None;
         customTemplate := None; imageUrls := Some ["u1"];
         status := COMPLETED; errorMessage := None |};
      {| id := "C"; type := AI_CODER; x := 0; y := 0; title := "C"; content := "";
         userPrompt := None; systemInstruction := None; model := None;
         customTemplate := Some "<main></main>"; imageUrls := None;
         status := IDLE; errorMessage := None |} ]
    {| id := "C"; type := AI_CODER; x := 0; y := 0; title := "C"; content := "";
       userPrompt := None; systemInstruction := None; model := None;
       customTemplate := Some "<main></main>"; imageUrls := None;
       status := IDLE; errorMessage := None |}
  = nl +:+ "CONTENT TO INSERT:" +:+ nl +:+ "draft" +:+ nl +:+ nl
    +:+ "HTML TEMPLATE:" +:+ nl +:+ "<main></main>" +:+ nl +:+ nl
    +:+ "INSTRUCTIONS:" +:+ nl
    +:+ "Insert the content into the HTML template. Do not change the layout structure, only add the text."
    +:+ nl +:+ "Also, insert these images where appropriate in the HTML: u1"
    +:+ nl +:+ "                            ".
Proof.
  match goal with
  | |- promptOf ?edges ?nodes ?node = _ =>
      exact (proj1 (proj2 (coder_prompt_with_and_without_template edges nodes node))
               "<main></main>" eq_refl eq_refl ltac:(discriminate))
  end.
Defined.

(** ** What a run leaves alone *)


Lemma resolveInstant_keeps_settled init n :
  List.NoDup (List.map id init) -> In n init -> status n <> IDLE ->
  findNode (resolveInstant init) (id n) = Some n.
Proof.
  intros Hnd Hin Hs.
  eapply findNode_settled; [apply resolveInstant_settled|apply findNode_NoDup; assumption|].
  intros Hid. apply in_map_iff in Hid as (m & Hm & Hrun).
  apply filter_In in Hrun as [Hmin Hinst]. apply isInstant_spec in Hinst as [_ Hidle].
  assert (m = n) by (eapply NoDup_id_inj; eauto). subst. contradiction.
Qed.

(** X4.  With unique node ids, a node that is not Idle when
    [processWorkflowQueue] starts (Completed, Error, or still Running from
    an interrupted run) is never selected and never written: it is the
    same record at every round boundary and in the final state.  In
    particular a node left Running stays Running. *)
Theorem nodes_not_idle_are_never_touched :
  forall (connections : list Connection) (provider : Provider) (globalContext : string)
         (init : list NodeData) (n : NodeData),
    List.NoDup (List.map id init) ->
    In n init -> status n <> IDLE ->
    (forall j,
        findNode (currentNodes (atRound connections provider globalContext j init)) (id n)
        = Some n
        /\ ~ In n (nodesToRun connections
                     (currentNodes (atRound connections provider globalContext j init))))
    /\ forall fuel final,
         processWorkflowQueue connections provider globalContext fuel init = Some final ->
         findNode (currentNodes final) (id n) = Some n.
Proof.
  intros connections provider globalContext init n Hnd Hin Hs.
  assert (Hall : forall j,
             findNode (currentNodes (atRound connections provider globalContext j init)) (id n)
             = Some n).
  { intros j. eapply atRound_keeps_settled; [exact Hnd| |exact Hs|apply Nat.le_0_l].
    simpl. apply resolveInstant_keeps_settled; assumption. }
  split.
  - intros j. split; [apply Hall|].
    intros Hsel. apply nodesToRun_In in Hsel as [_ Hr]. apply isReady_idle in Hr. contradiction.
  - intros fuel final Hrun.
    destruct (processWorkflowQueue_Some _ _ _ _ _ _ Hrun) as (k & -> & _). apply Hall.
Qed.

(** X4, at a concrete input: on the chain A → B → C → D, the Error node
    C is left as it is by a run. *)
Lemma nodes_not_idle_are_never_touched_witness :
  findNode (currentNodes (atRound chainEdges alwaysText "" 2 chainNodes)) "C"
  = Some (exampleNode "C" AI_OPTIMIZER ERROR "" None (Some "quota exceeded")).
Proof.
  refine (proj1 (proj1 (nodes_not_idle_are_never_touched chainEdges alwaysText "" chainNodes
                          (exampleNode "C" AI_OPTIMIZER ERROR "" None (Some "quota exceeded"))
                          _ _ _) 2)).
  - repeat constructor; simpl; intuition discriminate.
  - simpl. auto.
  - discriminate.
Defined.

(** X5.  Rounds are synchronous.  With unique node ids, a node fed by a
    node that is selected in a round is not selected in that round (unless
    it is a Brainstorm node, which never waits), and the round leaves it
    exactly as it was, even though its upstream node settles during the
    round: it can run in the next round at the earliest. *)
Theorem fed_by_a_selected_node_waits_for_the_next_round :
  forall (connections : list Connection) (provider : Provider) (globalContext : string)
         (st : Sched) (m d : NodeData),
    List.NoDup (List.map id (currentNodes st)) ->
    In m (nodesToRun connections (currentNodes st)) ->
    In d (currentNodes st) ->
    edge connections (id m) (id d) ->
    type d <> AI_BRAINSTORM ->
    ~ In d (nodesToRun connections (currentNodes st))
    /\ findNode (currentNodes (round connections provider globalContext st)) (id d) = Some d.
Proof.
  intros connections provider globalContext st m d Hnd Hm Hd (e & He & Hsrc & Htgt) Hkind.
  assert (Hnot : ~ In d (nodesToRun connections (currentNodes st))).
  { intros Hsel. apply nodesToRun_In in Hsel as [_ Hready].
    apply isReady_spec in Hready as [_ [Hb|[_ Hall]]]; [contradiction|].
    destruct (Hall e) as (s & Hs & Hc); [apply incoming_In; auto|].
    apply nodesToRun_In in Hm as [Hmin Hmready].
    rewrite Hsrc, (findNode_NoDup _ m Hnd Hmin) in Hs. injection Hs as <-.
    apply isReady_idle in Hmready. congruence. }
  split; [exact Hnot|]. apply round_unselected; assumption.
Qed.

(** X5, at a concrete input: in I → A → P, the round that runs A leaves P
    alone. *)
Lemma fed_by_a_selected_node_waits_witness :
  findNode
    (currentNodes (round pipelineEdges alwaysText "" (start pipelineNodes))) "P"
  = Some (exampleNode "P" OUTPUT_PREVIEW IDLE "" None None).
Proof.
  refine (proj2 (fed_by_a_selected_node_waits_for_the_next_round pipelineEdges alwaysText ""
                   (start pipelineNodes)
                   (exampleNode "A" AI_GENERATOR IDLE "" None None)
                   (exampleNode "P" OUTPUT_PREVIEW IDLE "" None None) _ _ _ _ _)).
  - repeat constructor; simpl; intuition discriminate.
  - vm_compute. auto.
  - vm_compute. auto.
  - exists (exampleEdge "A" "P"). simpl. auto.
  - discriminate.
Defined.



(** ** A run that cannot fail *)

Lemma findNode_in_ids l i : In i (List.map id l) -> exists n, findNode l i = Some n.
Proof.
  intros Hin. destruct (findNode l i) as [n|] eqn:Hf; [eauto|]. exfalso.
  apply in_map_iff in Hin as (n & Hn & Hin). unfold findNode in Hf.
  eapply find_none in Hf; [|exact Hin]. rewrite Hn, String.eqb_refl in Hf. discriminate.
Qed.

Lemma resolveStep_cleanStatus nodes node :
  Forall cleanStatus nodes -> Forall cleanStatus (resolveStep nodes node).
Proof.
  intros H. unfold resolveStep, updateLocalAndState. apply List.Forall_map.
  eapply List.Forall_impl; [|exact H]. intros n [Hs He].
  destruct (String.eqb (id n) (id node)); [|split; assumption].
  split; [right; reflexivity|exact He].
Qed.

Lemma resolveInstant_cleanStatus nodes :
  Forall cleanStatus nodes -> Forall cleanStatus (resolveInstant nodes).
Proof.
  unfold resolveInstant. generalize (List.filter isInstant nodes) as run.
  intros run. revert nodes. induction run as [|m run IH]; intros nodes H; simpl; [exact H|].
  apply IH, resolveStep_cleanStatus, H.
Qed.

Lemma resolveInstant_calm nodes : Forall calm nodes -> Forall calm (resolveInstant nodes).
Proof.
  unfold resolveInstant. generalize (List.filter isInstant nodes) as run.
  intros run. revert nodes. induction run as [|m run IH]; intros nodes H; simpl; [exact H|].
  apply IH. unfold resolveStep, updateLocalAndState. apply List.Forall_map.
  eapply List.Forall_impl; [|exact H]. intros n Hn.
  destruct (String.eqb (id n) (id m)); [right; reflexivity|exact Hn].
Qed.

Section NeverThrows.

Variable connections : list Connection.
Variable provider : Provider.
Variable globalContext : string.
Hypothesis Hprovider : neverThrows provider.

Notation dispatch := (dispatch connections provider globalContext).
Notation round := (round connections provider globalContext).
Notation atRound := (atRound connections provider globalContext).
Notation settle := (settle connections provider globalContext).

Lemma settle_completes nodes k node :
  exists text, settle nodes k node = completeWith text.
Proof.
  unfold settle. destruct (bool_decide (type node = OUTPUT_PREVIEW)); [eauto|].
  unfold generateText. destruct (Hprovider k
    {| r_model := orElse (model node) "gemini-2.5-flash";
       r_contents := promptOf connections nodes node;
       r_systemInstruction :=
         combinedSystemInstruction (systemInstruction node) (Some globalContext) |})
    as [t ->].
  eauto.
Qed.

Lemma dispatch_cleanStatus st node :
  Forall cleanStatus (currentNodes st) -> Forall cleanStatus (currentNodes (dispatch st node)).
Proof.
  intros H. rewrite dispatch_nodes. apply List.Forall_map.
  eapply List.Forall_impl; [|exact H]. intros n Hn.
  destruct (String.eqb (id n) (id node)); [|exact Hn].
  destruct (settle_completes (updateLocalAndState (id node) markRunning (currentNodes st))
              (calls st) node) as [text ->].
  split; [right; reflexivity|reflexivity].
Qed.

Lemma fold_dispatch_cleanStatus run st :
  Forall cleanStatus (currentNodes st) ->
  Forall cleanStatus (currentNodes (fold_left dispatch run st)).
Proof.
  revert st. induction run as [|m run IH]; intros st H; simpl; [exact H|].
  apply IH, dispatch_cleanStatus, H.
Qed.

Lemma atRound_cleanStatus k init :
  Forall cleanStatus init -> Forall cleanStatus (currentNodes (atRound k init)).
Proof.
  intros H. induction k as [|k IH]; [apply resolveInstant_cleanStatus, H|].
  rewrite atRound_S, round_unfold. apply fold_dispatch_cleanStatus, IH.
Qed.

Lemma dispatch_calm st node :
  Forall calm (currentNodes st) -> Forall calm (currentNodes (dispatch st node)).
Proof.
  intros H. rewrite dispatch_nodes. apply List.Forall_map.
  eapply List.Forall_impl; [|exact H]. intros n Hn.
  destruct (String.eqb (id n) (id node)); [|exact Hn].
  destruct (settle_completes (updateLocalAndState (id node) markRunning (currentNodes st))
              (calls st) node) as [text ->].
  right. reflexivity.
Qed.

Lemma fold_dispatch_calm run st :
  Forall calm (currentNodes st) -> Forall calm (currentNodes (fold_left dispatch run st)).
Proof.
  revert st. induction run as [|m run IH]; intros st H; simpl; [exact H|].
  apply IH, dispatch_calm, H.
Qed.

Lemma atRound_calm k init :
  Forall calm init -> Forall calm (currentNodes (atRound k init)).
Proof.
  intros H. induction k as [|k IH]; [apply resolveInstant_calm, H|].
  rewrite atRound_S, round_unfold. apply fold_dispatch_calm, IH.
Qed.

End NeverThrows.

Lemma atRound_sameStatic connections provider globalContext k init :
  Forall2 sameStatic init (currentNodes (atRound connections provider globalContext k init)).
Proof.
  destruct (atRound_settled connections provider globalContext k init) as [T HT].
  eapply Forall2_compose; [|apply resolveInstant_settled|exact HT].
  intros a b c (Hab & _) (Hbc & _). eapply sameStatic_trans; eassumption.
Qed.

(** From a store with no node Running or in Error, on an acyclic edge
    set whose sources all exist and where every node of a kind that needs
    input is fed, a service that never throws lets the loop complete every
    node. *)
Lemma calm_run_completes connections provider globalContext init rank :
  neverThrows provider ->
  climbs connections rank ->
  (forall e, In e connections -> In (sourceId e) (List.map id init)) ->
  (forall n, In n init -> ~ needsNoInput (type n) -> incoming connections (id n) <> []) ->
  Forall calm init ->
  exists k,
    (forall fuel, length init < fuel ->
       processWorkflowQueue connections provider globalContext fuel init
       = Some (atRound connections provider globalContext k init))
    /\ Forall (fun n => status n = COMPLETED)
         (currentNodes (atRound connections provider globalContext k init)).
Proof.
  intros Hprov Hclimb Hsrc Hfed Hcalm.
  destruct (quiescence connections provider globalContext init) as (k & _ & Hq & _ & Hloop).
  exists k. split; [exact Hloop|].
  set (final := atRound connections provider globalContext k init) in *.
  assert (Hids : List.map id (currentNodes final) = List.map id init)
    by (unfold final; apply atRound_ids).
  assert (Hfinal : Forall calm (currentNodes final))
    by (apply atRound_calm; assumption).
  assert (Hstatic : Forall2 sameStatic init (currentNodes final))
    by apply atRound_sameStatic.
  assert (Hdone : forall r n, In n (currentNodes final) -> rank (id n) < r ->
                              status n = COMPLETED).
  { induction r as [|r IH]; intros n Hn Hr; [lia|].
    destruct (proj1 (List.Forall_forall _ _) Hfinal n Hn) as [Hidle|Hc]; [|exact Hc].
    exfalso.
    destruct (Forall2_in_r _ _ _ _ Hstatic Hn) as (n0 & Hn0 & Hst).
    assert (Hready : isReady connections (currentNodes final) n = true).
    { apply isReady_spec. split; [exact Hidle|].
      destruct (bool_decide_reflect (type n = AI_BRAINSTORM)) as [Hb|Hb]; [left; exact Hb|right].
      split.
      - destruct (bool_decide_reflect (type n = INPUT)) as [Hi|Hi]; [tauto|].
        destruct (bool_decide_reflect (type n = IMAGE_NODE)) as [Hm|Hm]; [tauto|].
        left. rewrite (sameStatic_id _ _ Hst). apply Hfed; [exact Hn0|].
        rewrite <- (sameStatic_type _ _ Hst). unfold needsNoInput. tauto.
      - intros e He. apply incoming_In in He as [He Htgt].
        destruct (findNode_in_ids (currentNodes final) (sourceId e)) as [s Hs];
          [rewrite Hids; apply Hsrc, He|].
        exists s. split; [exact Hs|].
        apply findNode_Some in Hs as [Hsin Hsid]. apply IH; [exact Hsin|].
        specialize (Hclimb e He). rewrite Htgt in Hclimb. rewrite Hsid. lia. }
    assert (Hsel : In n (nodesToRun connections (currentNodes final)))
      by (apply nodesToRun_In; auto).
    rewrite Hq in Hsel. contradiction. }
  apply List.Forall_forall. intros n Hn. apply (Hdone (S (rank (id n)))); [exact Hn|lia].
Qed.

(** X7.  A full run that cannot fail completes everything.  Let the
    service never throw, let the edge set be acyclic (some ranking of the
    ids climbs along every edge), let every edge start at an existing
    node and every node of a kind that needs input have an incoming edge.
    Then [executeWorkflow] returns, and in the state it returns every node
    is Completed with no error message; the ids are those it started
    with, in the same order. *)
Theorem a_full_run_that_cannot_fail_completes_every_node :
  forall (connections : list Connection) (provider : Provider) (globalContext : string)
         (nodes : list NodeData) (rank : string -> nat),
    neverThrows provider ->
    climbs connections rank ->
    (forall e, In e connections -> In (sourceId e) (List.map id nodes)) ->
    (forall n, In n nodes -> ~ needsNoInput (type n) -> incoming connections (id n) <> []) ->
    exists final,
      (forall fuel, length nodes < fuel ->
         executeWorkflow connections provider globalContext fuel nodes = Some final)
      /\ Forall (fun n => status n = COMPLETED /\ errorMessage n = None) (currentNodes final)
      /\ List.map id (currentNodes final) = List.map id nodes.
Proof.
  intros connections provider globalContext nodes rank Hprov Hclimb Hsrc Hfed.
  destruct (resetNodes_spec nodes) as (Hrid & Hreset & Hrstatic).
  assert (Hlen : length (resetNodes nodes) = length nodes)
    by (unfold resetNodes; apply length_map).
  destruct (calm_run_completes connections provider globalContext (resetNodes nodes) rank)
    as (k & Hloop & Hdone); [exact Hprov|exact Hclimb| | | |].
  - intros e He. rewrite Hrid. apply Hsrc, He.
  - intros n' Hn'. destruct (Forall2_in_r _ _ _ _ Hrstatic Hn') as (n & Hn & _ & Hst).
    rewrite (sameStatic_id _ _ Hst), (sameStatic_type _ _ Hst). apply Hfed, Hn.
  - eapply List.Forall_impl; [|exact Hreset]. intros n [Hs _]. left. exact Hs.
  - exists (atRound connections provider globalContext k (resetNodes nodes)).
    split; [|split].
    + intros fuel Hfuel. unfold executeWorkflow. apply Hloop. lia.
    + assert (Hclean : Forall cleanStatus
                         (currentNodes
                            (atRound connections provider globalContext k (resetNodes nodes)))).
      { apply atRound_cleanStatus; [exact Hprov|].
        eapply List.Forall_impl; [|exact Hreset]. intros n [Hs He]. split; auto. }
      apply List.Forall_forall. intros n Hn. split.
      * apply (proj1 (List.Forall_forall _ _) Hdone n Hn).
      * apply (proj1 (List.Forall_forall _ _) Hclean n Hn).
    + rewrite atRound_ids. exact Hrid.
Qed.

(** X7, at a concrete input: I → A → P with a service that always
    answers "ok". *)
Lemma a_full_run_that_cannot_fail_witness :
  exists final,
    executeWorkflow pipelineEdges alwaysText "" 4 pipelineNodes = Some final
    /\ Forall (fun n => status n = COMPLETED /\ errorMessage n = None) (currentNodes final).
Proof.
  destruct (a_full_run_that_cannot_fail_completes_every_node pipelineEdges alwaysText ""
              pipelineNodes pipelineRank) as (final & Hrun & Hall & _).
  - intros calls request. exists (Some "ok"). reflexivity.
  - intros e [<-|[<-|[]]]; vm_compute; lia.
  - intros e [<-|[<-|[]]]; simpl; auto.
  - intros n [<-|[<-|[<-|[]]]] Hkind; simpl; try discriminate.
    exfalso. apply Hkind. left. reflexivity.
  - exists final. split; [apply Hrun; simpl; lia|exact Hall].
Defined.

(** ** An edge whose source is gone *)

Lemma findNode_not_in_ids l i : ~ In i (List.map id l) -> findNode l i = None.
Proof.
  intros Hni. destruct (findNode l i) as [n|] eqn:Hf; [|reflexivity].
  apply findNode_Some in Hf as [Hin Hid]. exfalso. apply Hni. rewrite <- Hid.
  apply in_map. exact Hin.
Qed.

(** X8.  An edge whose source id names no node blocks its target.  With
    unique node ids, let [b] be Idle when the run starts and of a kind
    that needs input, and let one of its incoming edges come from an id
    that no node carries.  Then the run returns, no round selects [b],
    and [b] is the same record at every round boundary and in the state
    the run returns. *)
Theorem an_edge_from_a_missing_node_blocks_its_target :
  forall (connections : list Connection) (provider : Provider) (globalContext : string)
         (init : list NodeData) (e : Connection) (b : NodeData),
    List.NoDup (List.map id init) ->
    In b init -> status b = IDLE -> ~ needsNoInput (type b) ->
    In e connections -> targetId e = id b ->
    ~ In (sourceId e) (List.map id init) ->
    (forall j,
        findNode (currentNodes (atRound connections provider globalContext j init)) (id b)
        = Some b
        /\ ~ In b (nodesToRun connections
                     (currentNodes (atRound connections provider globalContext j init))))
    /\ exists final,
         (forall fuel, length init < fuel ->
            processWorkflowQueue connections provider globalContext fuel init = Some final)
         /\ findNode (currentNodes final) (id b) = Some b.
Proof.
  intros connections provider globalContext init e b Hnd Hb Hidle Hkind He Htgt Hmissing.
  set (B := fun i : string => i = id b).
  assert (Hnever : forall j s, 0 <= j ->
            findNode (currentNodes (atRound connections provider globalContext j init))
              (sourceId e) = Some s -> status s <> COMPLETED).
  { intros j s _ Hs. rewrite findNode_not_in_ids in Hs; [discriminate|].
    rewrite atRound_ids. exact Hmissing. }
  assert (H0 : Forall2 (fun n n' => id n' = id n /\ (B (id n) -> n' = n))
                 init (resolveInstant init)).
  { apply resolveInstant_keeps. intros n Hn Hid.
    assert (n = b) by (eapply NoDup_id_inj; eauto). subst. exact Hkind. }
  assert (Hb0 : findNode (resolveInstant init) (id b) = Some b).
  { eapply findNode_kept; [exact H0|apply findNode_NoDup; assumption|reflexivity]. }
  assert (Hstart : forall d,
             In d (currentNodes (atRound connections provider globalContext 0 init)) ->
             B (id d) -> status d = IDLE /\ ~ needsNoInput (type d)).
  { intros d Hd Hid. simpl in Hd.
    assert (d = b).
    { apply findNode_Some in Hb0 as [Hbin _].
      eapply NoDup_id_inj; [rewrite resolveInstant_ids; exact Hnd|exact Hd|exact Hbin|exact Hid]. }
    subst. auto. }
  assert (Hfed : forall i, B i ->
             exists p, edge connections p i
               /\ (B p \/ forall j s, 0 <= j ->
                     findNode (currentNodes (atRound connections provider globalContext j init)) p
                     = Some s -> status s <> COMPLETED)).
  { intros i ->. exists (sourceId e). split; [exists e; auto|right; exact Hnever]. }
  pose proof (blocked_ids_stay connections provider globalContext B init 0 Hfed Hstart) as Hstay.
  assert (Hall : forall j,
             findNode (currentNodes (atRound connections provider globalContext j init)) (id b)
             = Some b
             /\ ~ In b (nodesToRun connections
                          (currentNodes (atRound connections provider globalContext j init)))).
  { intros j. destruct (Hstay j ltac:(lia)) as [HF Hsel].
    assert (Hf : findNode (currentNodes (atRound connections provider globalContext j init)) (id b)
                 = Some b)
      by (eapply findNode_kept; [exact HF|exact Hb0|reflexivity]).
    split; [exact Hf|]. apply Hsel; [apply findNode_Some in Hf; tauto|reflexivity]. }
  split; [exact Hall|].
  destruct (quiescence connections provider globalContext init) as (k & _ & _ & _ & Hloop).
  exists (atRound connections provider globalContext k init).
  split; [exact Hloop|apply Hall].
Qed.

(** X8, at a concrete input: the edge into P comes from "gone", an id no
    node carries; A completes, P is left as it was. *)
Lemma an_edge_from_a_missing_node_witness :
  exists final,
    processWorkflowQueue [exampleEdge "I" "A"; exampleEdge "gone" "P"] alwaysText "" 4
      pipelineNodes = Some final
    /\ findNode (currentNodes final) "P" = Some (exampleNode "P" OUTPUT_PREVIEW IDLE "" None None).
Proof.
  destruct (an_edge_from_a_missing_node_blocks_its_target
              [exampleEdge "I" "A"; exampleEdge "gone" "P"] alwaysText "" pipelineNodes
              (exampleEdge "gone" "P") (exampleNode "P" OUTPUT_PREVIEW IDLE "" None None))
    as (_ & final & Hrun & Hp).
  - repeat constructor; simpl; intuition discriminate.
  - simpl. auto.
  - reflexivity.
  - unfold needsNoInput. simpl. intuition discriminate.
  - simpl. auto.
  - reflexivity.
  - simpl. intuition discriminate.
  - exists final. split; [apply Hrun; simpl; lia|exact Hp].
Defined.

(** * The editing surface *)

Lemma NoDup_snoc {A} (l : list A) a : List.NoDup l -> ~ In a l -> List.NoDup (l ++ [a]).
Proof.
  intros Hl Ha. apply List.NoDup_app; [exact Hl|repeat constructor; simpl; tauto|].
  intros b Hb [<-|[]]. contradiction.
Qed.

Lemma handleConnectEnd_cases start stamp connections t :
  fst (handleConnectEnd start stamp connections t true) = connections
  \/ exists s, start = Some s /\ s <> t
       /\ (forall c, In c connections -> ends c <> (s, t))
       /\ fst (handleConnectEnd start stamp connections t true)
          = connections ++ [ {| cid := "c-" +:+ stamp; sourceId := s; targetId := t |} ].
Proof.
  unfold handleConnectEnd. simpl. destruct start as [s|]; [|left; reflexivity].
  destruct (String.eqb s t) eqn:Est; simpl; [left; reflexivity|].
  destruct (find _ connections) eqn:Hf; [left; reflexivity|].
  right. exists s. split; [reflexivity|]. split; [apply String.eqb_neq; exact Est|].
  split; [|reflexivity].
  intros c Hc Hends. eapply find_none in Hf; [|exact Hc]. simpl in Hf.
  unfold ends in Hends. injection Hends as Hs Ht. rewrite Hs, Ht, !String.eqb_refl in Hf.
  discriminate.
Qed.







(** ** Deleting a node *)

Lemma findNode_filter_other (i j : string) nodes :
  j <> i ->
  findNode (List.filter (fun n => negb (String.eqb (id n) i)) nodes) j = findNode nodes j.
Proof.
  intros Hne. unfold findNode. induction nodes as [|a nodes IH]; simpl; [reflexivity|].
  destruct (String.eqb (id a) i) eqn:Ei; simpl.
  - apply String.eqb_eq in Ei. destruct (String.eqb (id a) j) eqn:Ej; [|exact IH].
    apply String.eqb_eq in Ej. congruence.
  - destruct (String.eqb (id a) j); [reflexivity|exact IH].
Qed.

Lemma incoming_deleteNode (i j : string) connections :
  j <> i ->
  incoming (List.filter (fun c => negb (String.eqb (sourceId c) i)
                                  && negb (String.eqb (targetId c) i)) connections) j
  = List.filter (fun c => negb (String.eqb (sourceId c) i)) (incoming connections j).
Proof.
  intros Hne. unfold incoming. induction connections as [|c connections IH]; simpl; [reflexivity|].
  destruct (String.eqb (sourceId c) i) eqn:Es, (String.eqb (targetId c) i) eqn:Ei,
           (String.eqb (targetId c) j) eqn:Et; simpl; rewrite ?Es, ?Et; simpl;
    try rewrite IH; try reflexivity;
    apply String.eqb_eq in Ei, Et; congruence.
Qed.

(** X10.  [deleteNode] takes the node and every connection that touches
    it, and nothing else.  Afterwards no node carries the id and the
    connections left are exactly those that did not touch it; a lookup of
    any other id finds what it found before, and the incoming connections
    of any other node are the old ones, in the old order, less those that
    came from the deleted node.  If every connection joined two existing
    nodes before, every connection does afterwards. *)
Theorem deleting_a_node_leaves_no_dangling_connection :
  forall (nodeId : string) (nodes : list NodeData) (connections : list Connection),
    ~ In nodeId (List.map id (fst (deleteNode nodeId nodes connections)))
    /\ (forall c, In c (snd (deleteNode nodeId nodes connections))
                  <-> In c connections /\ sourceId c <> nodeId /\ targetId c <> nodeId)
    /\ (forall j, j <> nodeId ->
          findNode (fst (deleteNode nodeId nodes connections)) j = findNode nodes j
          /\ incoming (snd (deleteNode nodeId nodes connections)) j
             = List.filter (fun c => negb (String.eqb (sourceId c) nodeId))
                 (incoming connections j))
    /\ ((forall c, In c connections ->
           In (sourceId c) (List.map id nodes) /\ In (targetId c) (List.map id nodes)) ->
        forall c, In c (snd (deleteNode nodeId nodes connections)) ->
          In (sourceId c) (List.map id (fst (deleteNode nodeId nodes connections)))
          /\ In (targetId c) (List.map id (fst (deleteNode nodeId nodes connections)))).
Proof.
  intros nodeId nodes connections. unfold deleteNode. simpl.
  assert (Hkeep : forall c,
            In c (List.filter (fun c => negb (String.eqb (sourceId c) nodeId)
                                        && negb (String.eqb (targetId c) nodeId)) connections)
            <-> In c connections /\ sourceId c <> nodeId /\ targetId c <> nodeId).
  { intros c. rewrite filter_In, andb_true_iff, !negb_true_iff, !String.eqb_neq. tauto. }
  assert (Hids : forall j, j <> nodeId -> In j (List.map id nodes) ->
            In j (List.map id (List.filter (fun n => negb (String.eqb (id n) nodeId)) nodes))).
  { intros j Hne Hj. apply in_map_iff in Hj as (m & Hid & Hm). apply in_map_iff.
    exists m. split; [exact Hid|]. apply filter_In. split; [exact Hm|].
    apply negb_true_iff, String.eqb_neq. congruence. }
  split; [|split; [exact Hkeep|split]].
  - intros Hin. apply in_map_iff in Hin as (m & Hid & Hm). apply filter_In in Hm as [_ Hm].
    rewrite Hid, String.eqb_refl in Hm. discriminate.
  - intros j Hne. split; [apply findNode_filter_other, Hne|apply incoming_deleteNode, Hne].
  - intros Hclosed c Hc. apply Hkeep in Hc as (Hc & Hs & Ht).
    destruct (Hclosed c Hc) as [Hsrc Htgt]. split; apply Hids; assumption.
Qed.

(** ** Drawing a connection *)

Lemma filter_all {A} (p : A -> bool) l : (forall a, In a l -> p a = true) -> List.filter p l = l.
Proof.
  induction l as [|a l IH]; simpl; intros H; [reflexivity|].
  rewrite (H a (or_introl eq_refl)). f_equal. apply IH. auto.
Qed.

(** X11.  A drag from the output of [s] released on the input of another
    node [t] not yet fed by [s] adds one connection, after all others, so
    that it is also the last of the incoming connections of [t], the order
    in which a run reads its inputs.  Releasing the same drag again adds
    nothing.  If no other connection carries its id, [deleteConnection]
    on that id undoes it. *)
Theorem a_drawn_connection_comes_last_and_can_be_undone :
  forall (s t stamp stamp' : string) (connections : list Connection),
    s <> t ->
    (forall c, In c connections -> ends c <> (s, t)) ->
    fst (handleConnectEnd (Some s) stamp connections t true)
    = connections ++ [ {| cid := "c-" +:+ stamp; sourceId := s; targetId := t |} ]
    /\ incoming (fst (handleConnectEnd (Some s) stamp connections t true)) t
       = incoming connections t
         ++ [ {| cid := "c-" +:+ stamp; sourceId := s; targetId := t |} ]
    /\ fst (handleConnectEnd (Some s) stamp'
              (fst (handleConnectEnd (Some s) stamp connections t true)) t true)
       = fst (handleConnectEnd (Some s) stamp connections t true)
    /\ ((forall c, In c connections -> cid c <> "c-" +:+ stamp) ->
        deleteConnection ("c-" +:+ stamp)
          (fst (handleConnectEnd (Some s) stamp connections t true))
        = connections).
Proof.
  intros s t stamp stamp' connections Hne Hnew.
  assert (Hadd : fst (handleConnectEnd (Some s) stamp connections t true)
                 = connections
                   ++ [ {| cid := "c-" +:+ stamp; sourceId := s; targetId := t |} ]).
  { destruct (handleConnectEnd_cases (Some s) stamp connections t)
      as [Hsame|(s' & Hs & _ & _ & Heq)]; [|injection Hs as <-; exact Heq].
    exfalso. unfold handleConnectEnd in Hsame. simpl in Hsame.
    apply String.eqb_neq in Hne. rewrite Hne in Hsame. simpl in Hsame.
    destruct (find _ connections) as [c|] eqn:Hf.
    - apply find_some in Hf as [Hc Hends]. apply andb_true_iff in Hends as [Hs Ht].
      apply String.eqb_eq in Hs, Ht. apply (Hnew c Hc). unfold ends. congruence.
    - apply (f_equal (@length _)) in Hsame. rewrite length_app in Hsame. simpl in Hsame. lia. }
  rewrite Hadd. split; [reflexivity|]. split; [|split].
  - unfold incoming. rewrite List.filter_app. simpl. rewrite String.eqb_refl. reflexivity.
  - unfold handleConnectEnd. simpl. apply String.eqb_neq in Hne. rewrite Hne. simpl.
    destruct (find _ (connections ++ _)) eqn:Hf; [reflexivity|].
    eapply find_none in Hf; [|apply in_or_app; right; left; reflexivity].
    simpl in Hf. rewrite !String.eqb_refl in Hf. discriminate.
  - intros Hfresh. unfold deleteConnection. rewrite List.filter_app. simpl.
    rewrite String.eqb_refl. simpl. rewrite app_nil_r. apply filter_all.
    intros c Hc. apply negb_true_iff, String.eqb_neq, Hfresh, Hc.
Qed.

(** X11, at a concrete input: on the default workspace, from the Input
    node to the HTML Builder. *)
Lemma a_drawn_connection_witness :
  incoming (fst (handleConnectEnd (Some "node-1") "7" INITIAL_CONNECTIONS "node-5" true))
    "node-5"
  = [ {| cid := "c4"; sourceId := "node-2"; targetId := "node-5" |};
      {| cid := "c-7"; sourceId := "node-1"; targetId := "node-5" |} ].
Proof.
  refine (proj1 (proj2 (a_drawn_connection_comes_last_and_can_be_undone
                          "node-1" "node-5" "7" "8" INITIAL_CONNECTIONS _ _))).
  - discriminate.
  - intros c [<-|[<-|[<-|[]]]]; discriminate.
Defined.

(** * Workspaces and the side panel *)

(** ** The image list *)

Lemma splitOn_nonempty sep s : splitOn sep s <> [].
Proof.
  destruct s as [|c s]; simpl; [discriminate|].
  destruct (Ascii.eqb c sep); [discriminate|]. destruct (splitOn sep s); discriminate.
Qed.

Lemma splitOn_free sep s : mentions sep s = false -> splitOn sep s = [s].
Proof.
  induction s as [|c s IH]; simpl; [reflexivity|]. intros H.
  apply orb_false_iff in H as [Hc Hs]. rewrite Hc, (IH Hs). reflexivity.
Qed.

Lemma splitOn_app sep a rest :
  mentions sep a = false ->
  splitOn sep (a +:+ String sep rest) = a :: splitOn sep rest.
Proof.
  induction a as [|c a IH]; intros H.
  - rewrite append_nil_l. simpl. rewrite Ascii.eqb_refl. reflexivity.
  - simpl in H. apply orb_false_iff in H as [Hc Ha].
    rewrite append_cons. simpl. rewrite Hc, (IH Ha). reflexivity.
Qed.

Lemma splitOn_join l :
  l <> [] -> Forall (fun line => mentions newline line = false) l ->
  splitOn newline (join nl l) = l.
Proof.
  induction l as [|a l IH]; intros Hne Hall; [contradiction|].
  apply Forall_cons_iff in Hall as [Ha Hl]. destruct l as [|b l].
  - simpl. apply splitOn_free, Ha.
  - change (join nl (a :: b :: l)) with (a +:+ nl +:+ join nl (b :: l)).
    unfold nl at 1. rewrite append_cons, append_nil_l.
    rewrite (splitOn_app newline a _ Ha). f_equal. apply IH; [discriminate|exact Hl].
Qed.

Lemma splitOn_lines sep s : Forall (fun line => mentions sep line = false) (splitOn sep s).
Proof.
  induction s as [|c s IH]; simpl; [repeat constructor|].
  destruct (Ascii.eqb c sep) eqn:Ec; [constructor; [reflexivity|exact IH]|].
  destruct (splitOn sep s) as [|line lines]; [repeat constructor; simpl; rewrite Ec; reflexivity|].
  apply Forall_cons_iff in IH as [Hline Hlines]. constructor; [|exact Hlines].
  simpl. rewrite Ec, Hline. reflexivity.
Qed.

(** X12.  The image list survives the textarea.  What an edit stores is
    the non-blank lines of the text, none of which contains a line break;
    the test [line === '\n'] of the filter never decides.  A list of such
    lines, shown in the textarea and stored again unedited, is stored
    unchanged; so storing what the textarea shows for a stored list is
    the identity. *)
Theorem the_image_list_survives_the_textarea :
  (forall value,
      parseImageUrls value
      = List.filter (fun line => negb (String.eqb (trim line) "")) (splitOn newline value)
      /\ Forall urlLine (parseImageUrls value)
      /\ parseImageUrls (showImageUrls (Some (parseImageUrls value))) = parseImageUrls value)
  /\ (forall imageUrls,
         Forall urlLine imageUrls -> parseImageUrls (showImageUrls (Some imageUrls)) = imageUrls)
  /\ parseImageUrls (showImageUrls None) = [].
Proof.
  assert (Hdead : forall value,
            parseImageUrls value
            = List.filter (fun line => negb (String.eqb (trim line) ""))
                (splitOn newline value)).
  { intros value. unfold parseImageUrls. apply filter_ext_in. intros line Hline.
    pose proof (proj1 (List.Forall_forall _ _) (splitOn_lines newline value) line Hline) as Hfree.
    destruct (String.eqb line nl) eqn:Enl; [|apply orb_false_r].
    apply String.eqb_eq in Enl. subst. discriminate Hfree. }
  assert (Hstored : forall value, Forall urlLine (parseImageUrls value)).
  { intros value. rewrite Hdead. apply List.Forall_forall. intros line Hline.
    apply filter_In in Hline as [Hline Hkeep]. split.
    - apply (proj1 (List.Forall_forall _ _) (splitOn_lines newline value) line Hline).
    - apply negb_true_iff, Hkeep. }
  assert (Hround : forall imageUrls,
            Forall urlLine imageUrls ->
            parseImageUrls (showImageUrls (Some imageUrls)) = imageUrls).
  { intros imageUrls Hall. rewrite Hdead. unfold showImageUrls.
    rewrite orElse_empty. simpl. destruct imageUrls as [|a l]; [reflexivity|].
    rewrite splitOn_join; [|discriminate|].
    - apply filter_all. intros line Hline.
      apply negb_true_iff. apply (proj1 (List.Forall_forall _ _) Hall line Hline).
    - eapply List.Forall_impl; [|exact Hall]. intros line [Hfree _]. exact Hfree. }
  split; [|split; [exact Hround|reflexivity]].
  intros value. split; [apply Hdead|]. split; [apply Hstored|apply Hround, Hstored].
Qed.

(** ** Workspaces *)

Lemma find_map_id (activeWorkspaceId : string) (updates : Workspace -> Workspace) workspaces :
  (forall w, w_id (updates w) = w_id w) ->
  List.find (fun w => String.eqb (w_id w) activeWorkspaceId)
    (updateActiveWorkspace activeWorkspaceId updates workspaces)
  = updates <$> List.find (fun w => String.eqb (w_id w) activeWorkspaceId) workspaces.
Proof.
  intros Hid. unfold updateActiveWorkspace.
  induction workspaces as [|w workspaces IH]; simpl; [reflexivity|].
  destruct (String.eqb (w_id w) activeWorkspaceId) eqn:Ew.
  - rewrite Hid, Ew. reflexivity.
  - rewrite Ew. exact IH.
Qed.

(** X13.  An update reaches the workspace on show only when the active id
    names a workspace.  For an update that leaves the workspace id alone:
    when some workspace carries the active id, the workspace on show after
    [updateActiveWorkspace] is the updated one and every workspace under
    another id is left as it was; when none does, the first workspace is
    on show but [updateActiveWorkspace] changes nothing. *)
Theorem an_update_reaches_the_workspace_on_show_only_under_a_known_id :
  forall (activeWorkspaceId : string) (updates : Workspace -> Workspace)
         (workspaces : list Workspace),
    (forall w, w_id (updates w) = w_id w) ->
    (In activeWorkspaceId (List.map w_id workspaces) ->
       exists w, activeWorkspace workspaces activeWorkspaceId = Some w
                 /\ w_id w = activeWorkspaceId
                 /\ activeWorkspace
                      (updateActiveWorkspace activeWorkspaceId updates workspaces)
                      activeWorkspaceId
                    = Some (updates w))
    /\ Forall2 (fun w w' => w' = if String.eqb (w_id w) activeWorkspaceId then updates w else w)
         workspaces (updateActiveWorkspace activeWorkspaceId updates workspaces)
    /\ (~ In activeWorkspaceId (List.map w_id workspaces) ->
          activeWorkspace workspaces activeWorkspaceId = List.head workspaces
          /\ updateActiveWorkspace activeWorkspaceId updates workspaces = workspaces).
Proof.
  intros activeWorkspaceId updates workspaces Hid. split; [|split].
  - intros Hin. unfold activeWorkspace. rewrite (find_map_id _ _ _ Hid).
    destruct (List.find _ workspaces) as [w|] eqn:Hf.
    + exists w. split; [reflexivity|]. split; [|reflexivity].
      apply find_some in Hf as [_ Hw]. apply String.eqb_eq, Hw.
    + exfalso. apply in_map_iff in Hin as (w & Hw & Hin).
      eapply find_none in Hf; [|exact Hin]. simpl in Hf.
      rewrite Hw, String.eqb_refl in Hf. discriminate.
  - unfold updateActiveWorkspace. apply Forall2_map_self. intros w _. reflexivity.
  - intros Hnot.
    assert (Hall : forall w, In w workspaces -> String.eqb (w_id w) activeWorkspaceId = false).
    { intros w Hw. apply String.eqb_neq. intros Heq. apply Hnot. rewrite <- Heq.
      apply in_map. exact Hw. }
    split.
    + unfold activeWorkspace. destruct (List.find _ workspaces) as [w|] eqn:Hf; [|reflexivity].
      apply find_some in Hf as [Hw Heq]. rewrite (Hall w Hw) in Heq. discriminate.
    + unfold updateActiveWorkspace. rewrite <- (map_id workspaces) at 2.
      apply map_ext_in. intros w Hw. rewrite (Hall w Hw). reflexivity.
Qed.

(** X13, at a concrete input: renaming under an id no workspace carries. *)
Lemma an_update_under_an_unknown_id_witness :
  updateActiveWorkspace "ws-9"
    (fun w => {| w_id := w_id w; w_name := "Renamed"; w_globalContext := w_globalContext w;
                 w_nodes := w_nodes w; w_connections := w_connections w;
                 w_pan := w_pan w; w_scale := w_scale w |})
    [ {| w_id := "ws-1"; w_name := "Tech Blog Campaign"; w_globalContext := "";
         w_nodes := INITIAL_NODES; w_connections := INITIAL_CONNECTIONS;
         w_pan := (0, 0)%Z; w_scale := 1%Z |} ]
  = [ {| w_id := "ws-1"; w_name := "Tech Blog Campaign"; w_globalContext := "";
         w_nodes := INITIAL_NODES; w_connections := INITIAL_CONNECTIONS;
         w_pan := (0, 0)%Z; w_scale := 1%Z |} ].
Proof.
  refine (proj2 (proj2 (proj2 (an_update_reaches_the_workspace_on_show_only_under_a_known_id
                                 "ws-9" _ _ _)) _)).
  - intros w. reflexivity.
  - simpl. intuition discriminate.
Defined.

(** X14.  [deleteWorkspace] keeps a workspace and a valid selection.
    With unique workspace ids and at least one workspace it never throws
    and never leaves the list empty; it keeps the workspaces under other
    ids, in their order; the workspace goes unless it is the only one;
    and if the active id named a workspace before, it names one
    afterwards. *)
Theorem deleting_a_workspace_keeps_one_and_a_valid_selection :
  forall (workspaceId : string) (workspaces : list Workspace) (activeWorkspaceId : string),
    List.NoDup (List.map w_id workspaces) -> workspaces <> [] ->
    exists workspaces' activeWorkspaceId',
      deleteWorkspace workspaceId workspaces activeWorkspaceId
      = Some (workspaces', activeWorkspaceId')
      /\ workspaces' <> []
      /\ (workspaces' = workspaces /\ length workspaces = 1
          \/ workspaces'
             = List.filter (fun w => negb (String.eqb (w_id w) workspaceId)) workspaces
             /\ 2 <= length workspaces)
      /\ (In activeWorkspaceId (List.map w_id workspaces) ->
          In activeWorkspaceId' (List.map w_id workspaces')).
Proof.
  intros workspaceId workspaces activeWorkspaceId Hnd Hne. unfold deleteWorkspace.
  destruct (length workspaces <=? 1)%nat eqn:Hlen.
  - apply Nat.leb_le in Hlen. exists workspaces, activeWorkspaceId.
    split; [reflexivity|]. split; [exact Hne|]. split; [|auto].
    left. split; [reflexivity|]. destruct workspaces; [contradiction|simpl in *; lia].
  - apply Nat.leb_gt in Hlen.
    set (rest := List.filter (fun w => negb (String.eqb (w_id w) workspaceId)) workspaces).
    assert (Hrest : rest <> []).
    { destruct workspaces as [|a [|b tl]]; simpl in Hlen; try lia.
      simpl in Hnd. apply NoDup_cons_iff in Hnd as [Hab _].
      intros Hempty.
      assert (Ha : w_id a = workspaceId).
      { destruct (String.eqb (w_id a) workspaceId) eqn:Ea; [apply String.eqb_eq, Ea|].
        unfold rest in Hempty. simpl in Hempty. rewrite Ea in Hempty. discriminate. }
      assert (Hb : w_id b = workspaceId).
      { destruct (String.eqb (w_id b) workspaceId) eqn:Eb; [apply String.eqb_eq, Eb|].
        unfold rest in Hempty. simpl in Hempty. rewrite Eb in Hempty.
        destruct (negb (String.eqb (w_id a) workspaceId)); discriminate. }
      apply Hab. left. congruence. }
    assert (Hkeep : forall i, i <> workspaceId -> In i (List.map w_id workspaces) ->
                              In i (List.map w_id rest)).
    { intros i Hi Hin. apply in_map_iff in Hin as (w & Hw & Hin). apply in_map_iff.
      exists w. split; [exact Hw|]. apply filter_In. split; [exact Hin|].
      apply negb_true_iff, String.eqb_neq. congruence. }
    destruct (String.eqb activeWorkspaceId workspaceId) eqn:Eact.
    + destruct rest as [|first rest'] eqn:Erest; [contradiction|].
      exists (first :: rest'), (w_id first). split; [reflexivity|]. split; [discriminate|].
      split; [right; split; [reflexivity|lia]|]. intros _. left. reflexivity.
    + exists rest, activeWorkspaceId. split; [reflexivity|]. split; [exact Hrest|].
      split; [right; split; [reflexivity|lia]|].
      apply Hkeep, String.eqb_neq, Eact.
Qed.

(** X14, at a concrete input: deleting the workspace on show, the first
    of two. *)
Lemma deleting_a_workspace_witness :
  exists workspaces' activeWorkspaceId',
    deleteWorkspace "ws-1"
      (fst (createWorkspace "2"
              [ {| w_id := "ws-1"; w_name := "Tech Blog Campaign"; w_globalContext := "";
                   w_nodes := INITIAL_NODES; w_connections := INITIAL_CONNECTIONS;
                   w_pan := (0, 0)%Z; w_scale := 1%Z |} ]))
      "ws-1"
    = Some (workspaces', activeWorkspaceId')
    /\ In activeWorkspaceId' (List.map w_id workspaces').
Proof.
  destruct (deleting_a_workspace_keeps_one_and_a_valid_selection "ws-1"
              (fst (createWorkspace "2"
                      [ {| w_id := "ws-1"; w_name := "Tech Blog Campaign"; w_globalContext := "";
                           w_nodes := INITIAL_NODES; w_connections := INITIAL_CONNECTIONS;
                           w_pan := (0, 0)%Z; w_scale := 1%Z |} ]))
              "ws-1")
    as (workspaces' & activeWorkspaceId' & Hrun & _ & _ & Hvalid).
  - repeat constructor; simpl; intuition discriminate.
  - discriminate.
  - exists workspaces', activeWorkspaceId'. split; [exact Hrun|]. apply Hvalid. simpl. auto.
Defined.

(** * What a run does to each node *)

Lemma Forall2_with_In_both {A B} (R : A -> B -> Prop) l l' :
  Forall2 R l l' -> Forall2 (fun a b => In a l /\ In b l' /\ R a b) l l'.
Proof.
  induction 1 as [|a b l l' Hab _ IH]; constructor.
  - split; [left; reflexivity|]. split; [left; reflexivity|exact Hab].
  - eapply Forall2_impl; [exact IH|]. intros a' b' (Ha & Hb & HR).
    split; [right; exact Ha|]. split; [right; exact Hb|exact HR].
Qed.

Section RunOutcome.

Variable connections : list Connection.
Variable provider : Provider.
Variable globalContext : string.

Notation dispatch := (dispatch connections provider globalContext).
Notation round := (round connections provider globalContext).
Notation atRound := (atRound connections provider globalContext).
Notation settle := (settle connections provider globalContext).

Lemma settle_cases nodes k node :
  (exists text, settle nodes k node = completeWith text)
  \/ (exists message, settle nodes k node = failWith message).
Proof.
  unfold settle. destruct (bool_decide (type node = OUTPUT_PREVIEW)); [left; eauto|].
  destruct (generateText _ _ _ _ _ _) as [result|message]; [left|right]; eauto.
Qed.

(** With unique ids, a node the round selects ends the round as itself
    with the two writes of its own dispatch. *)
Lemma dispatched_own init k pre post node :
  List.NoDup (List.map id init) ->
  nodesToRun connections (currentNodes (atRound k init)) = pre ++ node :: post ->
  findNode (currentNodes (atRound (S k) init)) (id node)
  = Some (spread (spread node markRunning)
            (settle (updateLocalAndState (id node) markRunning
                       (currentNodes (fold_left dispatch pre (atRound k init))))
                    (calls (fold_left dispatch pre (atRound k init))) node)).
Proof.
  intros Hnd Hrun.
  pose proof (failing_before connections provider globalContext init k pre post node Hnd Hrun)
    as Hbefore.
  pose proof (failing_ids_apart connections provider globalContext init k pre post node Hnd Hrun)
    as [_ Hpost].
  rewrite atRound_S, round_unfold, Hrun, fold_left_app. simpl.
  set (mid := fold_left dispatch pre (atRound k init)) in *.
  set (u := settle (updateLocalAndState (id node) markRunning (currentNodes mid))
              (calls mid) node).
  assert (Hafter : findNode (currentNodes (dispatch mid node)) (id node)
                   = Some (spread (spread node markRunning) u)).
  { rewrite dispatch_nodes. fold u. rewrite <- updateLocalAndState_twice.
    apply findNode_update, findNode_update, Hbefore. }
  exact (findNode_settled _ _ _ (spread (spread node markRunning) u)
           (fold_dispatch_settled connections provider globalContext post _)
           Hafter Hpost).
Qed.

Lemma run_outcome init k n :
  List.NoDup (List.map id init) -> In n init ->
  exists n', findNode (currentNodes (atRound k init)) (id n) = Some n' /\ ranOnce n n'.
Proof.
  intros Hnd Hn. induction k as [|k (n' & Hf & Hst & Hcase)].
  - change (currentNodes (atRound 0 init)) with (resolveInstant init).
    destruct (isInstant n) eqn:Hinst.
    + exists (spread n (completeWith (instantContent n))).
      split; [apply resolveInstant_own; assumption|].
      split; [apply sameStatic_spread|]. right.
      split; [apply isInstant_spec in Hinst; tauto|]. left.
      split; [reflexivity|]. rewrite Hinst. split; [reflexivity|]. intros _. reflexivity.
    + exists n. split; [|split; [apply sameStatic_refl|left; reflexivity]].
      eapply findNode_settled;
        [apply resolveInstant_settled|apply findNode_NoDup; assumption|].
      intros Hid. apply in_map_iff in Hid as (m & Hm & Hrun).
      apply filter_In in Hrun as [Hmin Hminst].
      assert (m = n) by (eapply NoDup_id_inj; eauto). subst. congruence.
  - pose proof (findNode_Some _ _ _ Hf) as [Hin' Hid'].
    assert (Hnd' : List.NoDup (List.map id (currentNodes (atRound k init))))
      by (rewrite atRound_ids; exact Hnd).
    destruct (isReady connections (currentNodes (atRound k init)) n') eqn:Hready.
    + assert (Hsel : In n' (nodesToRun connections (currentNodes (atRound k init))))
        by (apply nodesToRun_In; auto).
      pose proof (isReady_idle _ _ _ Hready) as Hidle.
      assert (n' = n).
      { destruct Hcase as [Heq|[_ [[Hc _]|[He _]]]]; [exact Heq|congruence|congruence]. }
      subst n'.
      assert (Hni : isInstant n = false).
      { destruct (isInstant n) eqn:Hinst; [|reflexivity]. exfalso.
        apply isInstant_spec in Hinst as [Hty _].
        exact (atRound_no_idle_source connections provider globalContext k init n Hin' Hty Hidle). }
      apply in_split in Hsel as (pre & post & Hrun).
      rewrite (dispatched_own init k pre post n Hnd Hrun).
      eexists. split; [reflexivity|].
      split; [eapply sameStatic_trans; apply sameStatic_spread|]. right.
      split; [exact Hidle|]. rewrite Hni.
      destruct (settle_cases
                  (updateLocalAndState (id n) markRunning
                     (currentNodes (fold_left dispatch pre (atRound k init))))
                  (calls (fold_left dispatch pre (atRound k init))) n)
        as [[text ->]|[message ->]].
      * left. split; [reflexivity|]. split; [reflexivity|]. discriminate.
      * right. split; [reflexivity|]. split; [reflexivity|]. split; [reflexivity|].
        simpl. discriminate.
    + exists n'. split; [|split; [exact Hst|exact Hcase]].
      rewrite atRound_S, <- Hid'.
      apply round_unselected; [exact Hnd'|exact Hin'|].
      intros Hsel. apply nodesToRun_In in Hsel as [_ Hsel]. congruence.
Qed.

End RunOutcome.

(** X15.  What a run does to each node.  With unique node ids,
    [processWorkflowQueue] returns, and position by position the node it
    returns has the id, type, position, title and settings of the node it
    was given and is either that very record, or the node was Idle and
    is now Completed, or the node was Idle and is now in Error with its
    content as it was and an error message set.  A node that was
    dispatched and completed has its error message cleared; a source node
    resolved by step 1 keeps the one it had. *)
Theorem a_run_writes_each_node_at_most_once :
  forall (connections : list Connection) (provider : Provider) (globalContext : string)
         (init : list NodeData),
    List.NoDup (List.map id init) ->
    exists final,
      (forall fuel, length init < fuel ->
         processWorkflowQueue connections provider globalContext fuel init = Some final)
      /\ Forall2 ranOnce init (currentNodes final).
Proof.
  intros connections provider globalContext init Hnd.
  destruct (quiescence connections provider globalContext init) as (k & _ & _ & _ & Hloop).
  exists (atRound connections provider globalContext k init). split; [exact Hloop|].
  eapply Forall2_impl;
    [apply Forall2_with_In_both, (atRound_sameStatic connections provider globalContext k init)|].
  intros n n' (Hn & Hn' & Hst).
  destruct (run_outcome connections provider globalContext init k n Hnd Hn)
    as (n'' & Hf & Hran).
  assert (Hf' : findNode (currentNodes (atRound connections provider globalContext k init))
                  (id n') = Some n')
    by (apply findNode_NoDup; [rewrite atRound_ids; exact Hnd|exact Hn']).
  rewrite (sameStatic_id _ _ Hst), Hf in Hf'. injection Hf' as ->. exact Hran.
Qed.

(** X15, at a concrete input: I → A → P with a service whose first call
    throws. *)
Lemma a_run_writes_each_node_at_most_once_witness :
  exists final,
    processWorkflowQueue pipelineEdges failFirst "" 4 pipelineNodes = Some final
    /\ Forall2 ranOnce pipelineNodes (currentNodes final).
Proof.
  destruct (a_run_writes_each_node_at_most_once pipelineEdges failFirst "" pipelineNodes)
    as (final & Hrun & Hall).
  - repeat constructor; simpl; intuition discriminate.
  - exists final. split; [apply Hrun; simpl; lia|exact Hall].
Defined.

(** X19.  A retry once the service answers finishes the workflow.  Let
    the edge set be acyclic, every edge start at an existing node and
    every node of a kind that needs input have an incoming edge, and let
    every node that is Running or in Error be the retried node or one of
    its descendants.  If the service does not throw, the retry is
    accepted and the loop it starts returns with every node Completed;
    the ids are those of the store, in the same order. *)
Theorem a_retry_once_the_service_answers_finishes_the_workflow :
  forall (connections : list Connection) (provider : Provider) (globalContext : string)
         (nodes : list NodeData) (nodeId : string) (rank : string -> nat),
    neverThrows provider ->
    climbs connections rank ->
    (forall e, In e connections -> In (sourceId e) (List.map id nodes)) ->
    (forall n, In n nodes -> ~ needsNoInput (type n) -> incoming connections (id n) <> []) ->
    (forall n, In n nodes ->
       calm n \/ id n = nodeId \/ reaches connections nodeId (id n)) ->
    exists updated final,
      handleRetryNode false connections nodes nodeId = Some (RetryStarted updated)
      /\ (forall fuel, length nodes < fuel ->
            processWorkflowQueue connections provider globalContext fuel updated = Some final)
      /\ Forall (fun n => status n = COMPLETED) (currentNodes final)
      /\ List.map id (currentNodes final) = List.map id nodes.
Proof.
  intros connections provider globalContext nodes nodeId rank Hprov Hclimb Hsrc Hfed Hrest.
  destruct (getDescendantNodeIds_spec connections nodeId) as (D & HD & Hreach).
  set (updated := resetIn ({[ nodeId ]} ∪ D) nodes).
  assert (Hretry : handleRetryNode false connections nodes nodeId
                   = Some (RetryStarted updated)).
  { unfold handleRetryNode. rewrite HD. reflexivity. }
  destruct (resetIn_spec ({[ nodeId ]} ∪ D) nodes) as [Hids Hkept]. fold updated in Hids, Hkept.
  assert (Hlen : length updated = length nodes)
    by (unfold updated, resetIn; apply length_map).
  assert (Hcalm : Forall calm updated).
  { unfold updated, resetIn. apply List.Forall_map, List.Forall_forall. intros n Hn.
    destruct (decide (id n ∈ ({[ nodeId ]} ∪ D))) as [Hin|Hout]; [left; reflexivity|].
    destruct (Hrest n Hn) as [Hc|[Hid|Hr]]; [exact Hc| |]; exfalso; apply Hout.
    - apply elem_of_union. left. apply elem_of_singleton. exact Hid.
    - apply elem_of_union. right. apply Hreach, Hr. }
  destruct (calm_run_completes connections provider globalContext updated rank)
    as (k & Hloop & Hdone); [exact Hprov|exact Hclimb| | |exact Hcalm|].
  - intros e He. rewrite Hids. apply Hsrc, He.
  - intros n' Hn'. destruct (Forall2_in_r _ _ _ _ Hkept Hn') as (n & Hn & Hcase).
    assert (Hst : id n' = id n /\ type n' = type n).
    { destruct Hcase as [->|(_ & _ & _ & Hst)]; [auto|].
      split; [apply sameStatic_id, Hst|apply sameStatic_type, Hst]. }
    destruct Hst as [-> ->]. apply Hfed, Hn.
  - exists updated, (atRound connections provider globalContext k updated).
    split; [exact Hretry|]. split; [|split; [exact Hdone|]].
    + intros fuel Hfuel. apply Hloop. lia.
    + rewrite atRound_ids. exact Hids.
Qed.

(** X19, at a concrete input: in I → A → P the first run left A in Error
    and P Idle; A is retried. *)
Lemma a_retry_once_the_service_answers_witness :
  exists updated final,
    handleRetryNode false pipelineEdges
      [ exampleNode "I" INPUT COMPLETED "Topic X" (Some "Topic X") None;
        exampleNode "A" AI_GENERATOR ERROR "" None (Some "boom");
        exampleNode "P" OUTPUT_PREVIEW IDLE "" None None ] "A"
    = Some (RetryStarted updated)
    /\ processWorkflowQueue pipelineEdges alwaysText "" 4 updated = Some final
    /\ Forall (fun n => status n = COMPLETED) (currentNodes final).
Proof.
  destruct (a_retry_once_the_service_answers_finishes_the_workflow pipelineEdges alwaysText ""
              [ exampleNode "I" INPUT COMPLETED "Topic X" (Some "Topic X") None;
                exampleNode "A" AI_GENERATOR ERROR "" None (Some "boom");
                exampleNode "P" OUTPUT_PREVIEW IDLE "" None None ] "A" pipelineRank)
    as (updated & final & Hretry & Hrun & Hall & _).
  - intros calls request. exists (Some "ok"). reflexivity.
  - intros e [<-|[<-|[]]]; vm_compute; lia.
  - intros e [<-|[<-|[]]]; simpl; auto.
  - intros n [<-|[<-|[<-|[]]]] Hkind; simpl; try discriminate.
    exfalso. apply Hkind. left. reflexivity.
  - intros n [<-|[<-|[<-|[]]]].
    + left. right. reflexivity.
    + right. left. reflexivity.
    + left. left. reflexivity.
  - exists updated, final. split; [exact Hretry|]. split; [apply Hrun; simpl; lia|exact Hall].
Defined.

(** * Copies and reloads *)

(** X16.  A copy starts Idle and empty but keeps the error message.
    [duplicateNode] on an id no node carries changes nothing.  Otherwise
    it appends one node: the first node under that id with a new id,
    Idle, with empty content and with the type, settings and error
    message of the original.  If the new id is not in use the ids stay
    unique.  The rule that only a node in Error carries an error message
    survives the copy exactly when the original carries none. *)
Theorem a_copy_starts_idle_and_empty_but_keeps_the_error_message :
  forall (stamp nodeId : string) (nodes : list NodeData),
    (findNode nodes nodeId = None -> duplicateNode stamp nodeId nodes = nodes)
    /\ forall n, findNode nodes nodeId = Some n ->
         exists copy,
           duplicateNode stamp nodeId nodes = nodes ++ [copy]
           /\ id copy = "node-" +:+ stamp
           /\ status copy = IDLE /\ content copy = ""
           /\ type copy = type n /\ userPrompt copy = userPrompt n
           /\ systemInstruction copy = systemInstruction n /\ model copy = model n
           /\ customTemplate copy = customTemplate n /\ imageUrls copy = imageUrls n
           /\ errorMessage copy = errorMessage n
           /\ (List.NoDup (List.map id nodes) -> ~ In ("node-" +:+ stamp) (List.map id nodes) ->
               List.NoDup (List.map id (duplicateNode stamp nodeId nodes)))
           /\ (Forall errorOnlyIfError nodes ->
               (Forall errorOnlyIfError (duplicateNode stamp nodeId nodes)
                <-> errorMessage n = None)).
Proof.
  intros stamp nodeId nodes. unfold duplicateNode. split; [intros ->; reflexivity|].
  intros n ->. exists (cloneOf stamp n).
  split; [reflexivity|]. do 10 (split; [reflexivity|]). split.
  - intros Hnd Hfresh. rewrite map_app. apply NoDup_snoc; assumption.
  - intros Hinv. split.
    + intros Hall. apply Forall_app in Hall as [_ Hcopy].
      apply Forall_cons_iff in Hcopy as [Hcopy _]. unfold errorOnlyIfError in Hcopy.
      simpl in Hcopy. destruct (errorMessage n) as [m|]; [|reflexivity].
      exfalso. assert (IDLE = ERROR) by (apply Hcopy; discriminate). discriminate.
    + intros Hnone. apply Forall_app. split; [exact Hinv|].
      constructor; [|constructor]. unfold errorOnlyIfError. simpl. rewrite Hnone.
      intros H. contradiction.
Qed.

(** X17.  A reload leaves no node Running.  The safety reset applied to
    the stored nodes turns every Running node into an Idle one and changes
    nothing else: the other fields, the other nodes and the order are
    kept.  Applying it twice is applying it once, and it keeps the rule
    that only a node in Error carries an error message. *)
Theorem a_reload_leaves_no_node_running :
  forall nodes : list NodeData,
    Forall (fun n => status n <> RUNNING) (recoverNodes nodes)
    /\ Forall2 (fun n n' =>
                  sameStatic n n' /\ content n' = content n
                  /\ errorMessage n' = errorMessage n
                  /\ status n' = (if bool_decide (status n = RUNNING) then IDLE else status n))
         nodes (recoverNodes nodes)
    /\ recoverNodes (recoverNodes nodes) = recoverNodes nodes
    /\ (Forall errorOnlyIfError nodes -> Forall errorOnlyIfError (recoverNodes nodes)).
Proof.
  intros nodes. unfold recoverNodes. split; [|split; [|split]].
  - apply List.Forall_map, List.Forall_forall. intros n _. unfold recoverNode.
    destruct (bool_decide_reflect (status n = RUNNING)) as [H|H]; [discriminate|exact H].
  - apply Forall2_map_self. intros n _. unfold recoverNode.
    destruct (bool_decide (status n = RUNNING)); repeat split.
  - rewrite map_map. apply map_ext. intros n. unfold recoverNode.
    destruct (bool_decide_reflect (status n = RUNNING)) as [H|H]; simpl.
    + reflexivity.
    + rewrite (bool_decide_eq_false_2 _ H). reflexivity.
  - intros Hinv. apply List.Forall_map. eapply List.Forall_impl; [|exact Hinv].
    intros n Hn. unfold recoverNode.
    destruct (bool_decide_reflect (status n = RUNNING)) as [H|H]; [|exact Hn].
    unfold errorOnlyIfError in *. simpl. intros Hm. specialize (Hn Hm). congruence.
Qed.

(** ** Typing into an Input node *)

Lemma findNode_map (f : NodeData -> NodeData) l i :
  (forall n, id (f n) = id n) -> findNode (List.map f l) i = f <$> findNode l i.
Proof.
  intros Hid. unfold findNode. induction l as [|a l IH]; simpl; [reflexivity|].
  rewrite Hid. destruct (String.eqb (id a) i); [reflexivity|exact IH].
Qed.

(** X18.  What is typed into an Input node is its content after a run.
    With unique node ids, after [updateNodeContent] on the id of an Input
    node, a full run returns, and in the state it returns that node is
    Completed, its prompt is the text typed and its content is that
    text. *)
Theorem what_is_typed_into_an_input_node_is_its_content_after_a_run :
  forall (connections : list Connection) (provider : Provider) (globalContext : string)
         (nodes : list NodeData) (nodeId text : string) (n : NodeData),
    List.NoDup (List.map id nodes) ->
    findNode nodes nodeId = Some n -> type n = INPUT ->
    exists final n',
      (forall fuel, length nodes < fuel ->
         executeWorkflow connections provider globalContext fuel
           (updateNodeContent nodeId text nodes) = Some final)
      /\ findNode (currentNodes final) nodeId = Some n'
      /\ status n' = COMPLETED /\ userPrompt n' = Some text /\ content n' = text
      /\ id n' = id n /\ type n' = INPUT.
Proof.
  intros connections provider globalContext nodes nodeId text n Hnd Hf Hty.
  pose proof (findNode_Some _ _ _ Hf) as [_ Hid].
  set (typed := updateNodeContent nodeId text nodes).
  set (init := resetNodes typed).
  assert (Hids : List.map id init = List.map id nodes).
  { unfold init, resetNodes, typed, updateNodeContent. rewrite !map_map.
    apply map_ext. intros m. destruct (String.eqb (id m) nodeId); reflexivity. }
  assert (Hlen : length init = length nodes).
  { unfold init, resetNodes, typed, updateNodeContent. rewrite !length_map. reflexivity. }
  assert (Hnd' : List.NoDup (List.map id init)) by (rewrite Hids; exact Hnd).
  destruct (findNode init nodeId) as [n0|] eqn:Hf0.
  2:{ exfalso. unfold init, resetNodes, typed, updateNodeContent in Hf0.
      rewrite findNode_map in Hf0 by reflexivity.
      rewrite findNode_map in Hf0
        by (intros m; destruct (String.eqb (id m) nodeId); reflexivity).
      rewrite Hf in Hf0. discriminate. }
  assert (Hn0 : id n0 = nodeId /\ type n0 = INPUT /\ status n0 = IDLE
                /\ userPrompt n0 = Some text).
  { unfold init, resetNodes, typed, updateNodeContent in Hf0.
    rewrite findNode_map in Hf0 by reflexivity.
    rewrite findNode_map in Hf0
      by (intros m; destruct (String.eqb (id m) nodeId); reflexivity).
    rewrite Hf in Hf0. simpl in Hf0. rewrite Hid, String.eqb_refl in Hf0.
    injection Hf0 as <-. simpl. auto. }
  destruct Hn0 as (Hid0 & Hty0 & Hidle0 & Hprompt0).
  pose proof (findNode_Some _ _ _ Hf0) as [Hin0 _].
  assert (Hinst : isInstant n0 = true) by (apply isInstant_spec; auto).
  pose proof (resolveInstant_own init n0 Hnd' Hin0 Hinst) as Hown.
  rewrite Hid0 in Hown.
  destruct (quiescence connections provider globalContext init) as (k & _ & _ & _ & Hloop).
  exists (atRound connections provider globalContext k init),
         (spread n0 (completeWith (instantContent n0))).
  split; [intros fuel Hfuel; unfold executeWorkflow; apply Hloop; lia|]. split.
  - apply (atRound_keeps_settled connections provider globalContext init 0 nodeId _ Hnd');
      [exact Hown|discriminate|lia].
  - split; [reflexivity|]. split; [exact Hprompt0|]. split; [|split].
    + simpl. unfold instantContent. rewrite Hty0, Hprompt0. simpl.
      destruct text; reflexivity.
    + simpl. congruence.
    + exact Hty0.
Qed.

(** X18, at a concrete input: typing "Bikes" into the Input node of
    I → A → P. *)
Lemma what_is_typed_into_an_input_node_witness :
  exists final n',
    executeWorkflow pipelineEdges alwaysText "" 4 (updateNodeContent "I" "Bikes" pipelineNodes)
    = Some final
    /\ findNode (currentNodes final) "I" = Some n'
    /\ status n' = COMPLETED /\ content n' = "Bikes".
Proof.
  destruct (what_is_typed_into_an_input_node_is_its_content_after_a_run
              pipelineEdges alwaysText "" pipelineNodes "I" "Bikes"
              (exampleNode "I" INPUT IDLE "" (Some "Topic X") None))
    as (final & n' & Hrun & Hf & Hs & _ & Hc & _).
  - repeat constructor; simpl; intuition discriminate.
  - reflexivity.
  - reflexivity.
  - exists final, n'. split; [apply Hrun; simpl; lia|]. auto.
Defined.
